(** * merge_candidates.py: candidate construction from OCR word records

    A shallow embedding of [src/Python.OCRTools/merge_candidates.py] and the
    properties of its record normalizer, line reconstructor, script
    classifier and candidate segmenter.

    Conventions of the embedding.
    - A Python [str] is a list of Unicode code points ([ord] of each
      character); dictionary keys, which the program only compares, are
      plain [string]s.
    - A decoded JSON document is a [value]; a JSON object is a
      [gmap string value].
    - An operation that can raise returns a [result]; [Raise] carries the
      exception class.
    - A Python float is represented by the rational it holds, and an
      operation that returns a float by the exact operation followed by
      [binary64], the rounding to the nearest value of the format, ties
      to even.  The format is not bounded above here: where a result
      leaves the range of the format the program raises [OverflowError],
      and the functions of the line reconstructor, which are total, go on
      with the rounded value.  The properties that depend on the value of
      a quotient bound the integers it is made from.
    - The script ratio is kept as the exact quotient of two counts of
      characters of one text: [guess_lang] only compares it with 0.3 and
      0.05, and rounding changes neither comparison for a text of fewer
      than 2^50 characters. *)

From Stdlib Require Import ZArith NArith QArith Qround Qpower Qabs Lqa Lia Bool.
From stdpp Require Import gmap strings list.

Local Open Scope Z_scope.

(** ** Exceptions *)

Inductive exn := TypeError | ValueError | AttributeError | OverflowError.

Inductive result (A : Type) :=
  | Ok (a : A)
  | Raise (e : exn).
Arguments Ok {A} a.
Arguments Raise {A} e.

#[global] Instance result_ret : MRet result := @Ok.
#[global] Instance result_bind : MBind result := λ A B f r,
  match r with Ok a => f a | Raise e => Raise e end.

(** ** Strings and the Unicode character database *)

Definition char := N.
Definition str := list char.

(** An ASCII literal as a [str]. *)
Definition U (s : string) : str :=
  map Ascii.N_of_ascii (String.list_ascii_of_string s).

(** The character predicates of the Python runtime that depend on the
    Unicode character database.  [decimal c] is the digit value of a
    character of category Nd: it is what [int] accepts and what [\d]
    matches in a [str] pattern. *)
Class Unicode := {
  isalpha : char → bool;
  isdigit : char → bool;
  decimal : char → option Z;
}.

(** [str.isspace] on one character, which is also [\s] of a [str] pattern
    and the set [str.strip] removes. *)
Definition isspace (c : char) : bool :=
  ((9 <=? c) && (c <=? 13) || (28 <=? c) && (c <=? 32) || (c =? 0x85)
   || (c =? 0xA0) || (c =? 0x1680) || (0x2000 <=? c) && (c <=? 0x200A)
   || (c =? 0x2028) || (c =? 0x2029) || (c =? 0x202F) || (c =? 0x205F)
   || (c =? 0x3000))%N.

(** The database on the Basic Latin, Latin-1 Supplement and Devanagari
    blocks: letters are the code points of the categories Lu, Ll, Lt, Lm
    and Lo, decimal digits those of the category Nd.  Outside these blocks
    the three functions answer no, which is not the database: the instance
    serves to evaluate the functions on text of the two scripts the
    pipeline reads, and the general properties hold for every instance. *)
Definition latin_devanagari : Unicode := {|
  isalpha c :=
    ((65 <=? c) && (c <=? 90) || (97 <=? c) && (c <=? 122)
     || (c =? 170) || (c =? 181) || (c =? 186)
     || (192 <=? c) && (c <=? 214) || (216 <=? c) && (c <=? 246)
     || (248 <=? c) && (c <=? 255)
     || (0x904 <=? c) && (c <=? 0x939) || (c =? 0x93D) || (c =? 0x950)
     || (0x958 <=? c) && (c <=? 0x961) || (0x971 <=? c) && (c <=? 0x97F))%N;
  isdigit c :=
    ((48 <=? c) && (c <=? 57) || (c =? 178) || (c =? 179) || (c =? 185)
     || (0x966 <=? c) && (c <=? 0x96F))%N;
  decimal c :=
    if ((48 <=? c) && (c <=? 57))%N then Some (Z.of_N c - 48)
    else if ((0x966 <=? c) && (c <=? 0x96F))%N then Some (Z.of_N c - 0x966)
    else None;
|}.

Fixpoint lstrip_by (p : char → bool) (s : str) : str :=
  match s with
  | c :: r => if p c then lstrip_by p r else s
  | [] => []
  end.

Definition rstrip_by (p : char → bool) (s : str) : str :=
  rev (lstrip_by p (rev s)).

(** [s.strip()] *)
Definition strip (s : str) : str := rstrip_by isspace (lstrip_by isspace s).

(** [" ".join(parts)] *)
Fixpoint join_space (parts : list str) : str :=
  match parts with
  | [] => []
  | [p] => p
  | p :: rest => p ++ 32%N :: join_space rest
  end.

(** ** Python values *)

Inductive pyfloat :=
  | FFinite (q : Q)
  | FInf (negative : bool)
  | FNaN.

(** What [json.loads] returns. *)
#[warnings="-register-all"] Inductive value :=
  | VNone
  | VBool (b : bool)
  | VInt (z : Z)
  | VFloat (f : pyfloat)
  | VStr (s : str)
  | VList (l : list value)
  | VDict (m : gmap string value).

(** [int(x)] of a rational: truncation toward zero. *)
Definition Qtrunc (q : Q) : Z := Z.quot (Qnum q) (Zpos (Qden q)).

(** ** Floats

    The nearest integer, ties to the even one. *)
Definition round_half_even (q : Q) : Z :=
  let f := Qfloor q in
  match (q - inject_Z f ?= 1 # 2)%Q with
  | Lt => f
  | Gt => f + 1
  | Eq => if Z.even f then f else f + 1
  end.

(** The exponent of a positive rational [q]: the [e] with
    [2^e <= q < 2^(e+1)]. *)
Definition exponent (q : Q) : Z :=
  let e := Z.log2 (Qnum q) - Z.log2 (Zpos (Qden q)) in
  if Qle_bool (2 ^ e) q then e else e - 1.

(** The distance between the values of the format around [q]: 53 bits
    from the exponent of [q] down, and from -1022 down below 2^-1022. *)
Definition quantum (q : Q) : Q :=
  (2 ^ (Z.max (exponent (Qabs q)) (-1022) - 52))%Q.

(** The float nearest to [q], ties to even: what the division of two
    integers, the conversion of an integer to a float and the operations
    on floats return for the exact result [q]. *)
Definition binary64 (q : Q) : Q :=
  if Qeq_bool q 0 then 0%Q
  else (inject_Z (round_half_even (q / quantum q)) * quantum q)%Q.

(** A number: an [int] or a [float]. *)
Inductive number :=
  | Int (z : Z)
  | Float (q : Q).

(** The rational a number holds, and [float(x)]. *)
Definition number_value (x : number) : Q :=
  match x with Int z => inject_Z z | Float q => q end.
Definition float (x : number) : Q :=
  match x with Int z => binary64 (inject_Z z) | Float q => q end.

(** [x or 20] on a number. *)
Definition number_or (x dflt : number) : number :=
  if Qeq_bool (number_value x) 0 then dflt else x.

(** Truth value of [v], as [or], [if] and [not] test it. *)
Definition truthy (v : value) : bool :=
  match v with
  | VNone => false
  | VBool b => b
  | VInt z => negb (z =? 0)
  | VFloat (FFinite q) => negb (Qeq_bool q 0)
  | VFloat _ => true
  | VStr s => negb (bool_decide (s = []))
  | VList l => negb (bool_decide (l = []))
  | VDict m => negb (bool_decide (m = ∅))
  end.

(** [a or b] *)
Definition py_or (a b : value) : value := if truthy a then a else b.

(** [d.get(k)] and [d.get(k, dflt)] *)
Definition get (d : gmap string value) (k : string) : value :=
  default VNone (d !! k).
Definition get_or (d : gmap string value) (k : string) (dflt : value) : value :=
  default dflt (d !! k).
(** [k in d] *)
Definition contains (d : gmap string value) (k : string) : bool :=
  bool_decide (is_Some (d !! k)).

(** ** Loops

    A [while] loop over a state, with [break]; [fuel] bounds the number of
    turns.  Every loop of the segmenter advances an index that the number
    of lines bounds, and runs on that much fuel. *)

Inductive turn (S : Type) :=
  | Next (s : S)
  | Break (s : S).
Arguments Next {S} s.
Arguments Break {S} s.

Fixpoint while {S : Type} (fuel : nat) (cond : S → bool) (body : S → turn S)
    (s : S) : S :=
  match fuel with
  | O => s
  | Datatypes.S fuel =>
      if cond s then
        match body s with
        | Next s' => while fuel cond body s'
        | Break s' => s'
        end
      else s
  end.

Section Python.
Context `{Unicode}.

(** [s.isdigit()] *)
Definition str_isdigit (s : str) : bool :=
  negb (bool_decide (s = [])) && forallb isdigit s.

(** The digits of an integer literal as [int] reads them in base 10: one
    or more decimal digits, single underscores allowed between digits. *)
Fixpoint digits_value (acc : Z) (after_digit : bool) (s : str) : option Z :=
  match s with
  | [] => if after_digit then Some acc else None
  | c :: r =>
      match decimal c with
      | Some d => digits_value (10 * acc + d) true r
      | None =>
          if (c =? 95)%N && after_digit then digits_value acc false r
          else None
      end
  end.

(** The whitespace [int] accepts around a literal: that of [str.isspace]
    but for the separators U+001C to U+001F. *)
Definition int_space (c : char) : bool :=
  isspace c && negb ((28 <=? c) && (c <=? 31))%N.

(** [sys.get_int_max_str_digits()], by default. *)
Definition int_max_str_digits : nat := 4300.

(** [int(s)] for a [str]: surrounding whitespace, an optional sign, then
    the digits, no more of them than the interpreter converts. *)
Definition int_of_str (s : str) : result Z :=
  let s := rstrip_by int_space (lstrip_by int_space s) in
  let '(negative, body) :=
    match s with
    | c :: r => if (c =? 45)%N then (true, r)
                else if (c =? 43)%N then (false, r) else (false, s)
    | [] => (false, s)
    end in
  if (int_max_str_digits
      <? length (List.filter (λ c, bool_decide (is_Some (decimal c))) body))%nat
  then Raise ValueError
  else
    match digits_value 0 false body with
    | Some v => Ok (if negative then - v else v)
    | None => Raise ValueError
    end.

(** [int(v)] *)
Definition py_int (v : value) : result Z :=
  match v with
  | VNone => Raise TypeError
  | VBool b => Ok (if b then 1 else 0)
  | VInt z => Ok z
  | VFloat (FFinite q) => Ok (Qtrunc q)
  | VFloat (FInf _) => Raise OverflowError
  | VFloat FNaN => Raise ValueError
  | VStr s => int_of_str s
  | VList _ => Raise TypeError
  | VDict _ => Raise TypeError
  end.

(** [v.strip()]: only a [str] has the method. *)
Definition py_strip (v : value) : result str :=
  match v with
  | VStr s => Ok (strip s)
  | _ => Raise AttributeError
  end.

(** [str(v).lstrip('-').isdigit()].  The text of an integer is an optional
    minus sign followed by ASCII digits; the text of [None], of a boolean,
    of a float (which always has a point, an exponent, [inf] or [nan]), of
    a list and of a dict holds a character that is no digit.  (The parser
    of the documents refuses the integers of more digits than the
    interpreter converts to text, so that [str] raises on no integer of a
    decoded document.) *)
Definition signed_digits (v : value) : bool :=
  match v with
  | VInt _ => true
  | VStr s => str_isdigit (lstrip_by (λ c, (c =? 45)%N) s)
  | _ => false
  end.

(** ** Record Normalizer *)

Record word := {
  w_page : Z;
  w_text : str;
  w_conf : option Z;
  w_left : Z;
  w_top : Z;
  w_width : Z;
  w_height : Z;
  w_block_num : Z;
  w_par_num : Z;
  w_line_num : Z;
}.

(** The [try]/[except] around the confidence: any exception gives [None]. *)
Definition conf_of (conf : value) : option Z :=
  match conf with
  | VNone => None
  | _ =>
      if signed_digits conf then
        match py_int conf with Ok z => Some z | Raise _ => None end
      else None
  end.

(** [bbox = obj.get('bbox') or {}], as the receiver of [bbox.get]. *)
Definition bbox_of (obj : gmap string value) : result (gmap string value) :=
  match py_or (get obj "bbox") (VDict ∅) with
  | VDict m => Ok m
  | _ => Raise AttributeError
  end.

(** [int(bbox.get(long) or bbox.get(short) or obj.get(long, 0) or 0)] *)
Definition nested_coord (obj bbox : gmap string value) (long short : string)
  : result Z :=
  py_int (py_or (py_or (py_or (get bbox long) (get bbox short))
                       (get_or obj long (VInt 0)))
                (VInt 0)).

(** [int(obj.get(k) or 0)] *)
Definition direct_coord (obj : gmap string value) (k : string) : result Z :=
  py_int (py_or (get obj k) (VInt 0)).

Definition normalize_row (obj : gmap string value) : result word :=
  page ← py_int (get_or obj "page" (VInt 1));
  text ← py_strip (py_or (py_or (get obj "text") (get obj "ocr_text"))
                         (VStr []));
  let conf := conf_of (get obj "conf") in
  '(x, y, w, h) ←
    (if contains obj "left" && contains obj "top" && contains obj "width"
        && contains obj "height"
     then
       x ← direct_coord obj "left";
       y ← direct_coord obj "top";
       w ← direct_coord obj "width";
       h ← direct_coord obj "height";
       mret (x, y, w, h)
     else
       bbox ← bbox_of obj;
       x ← nested_coord obj bbox "left" "x";
       y ← nested_coord obj bbox "top" "y";
       w ← nested_coord obj bbox "width" "w";
       h ← nested_coord obj bbox "height" "h";
       mret (x, y, w, h));
  block_num ← py_int (py_or (py_or (get obj "block_num") (get obj "block_id"))
                            (VInt 0));
  par_num ← py_int (py_or (get obj "par_num") (VInt 0));
  line_num ← py_int (py_or (get obj "line_num") (VInt 0));
  mret {| w_page := page; w_text := text; w_conf := conf;
          w_left := x; w_top := y; w_width := w; w_height := h;
          w_block_num := block_num; w_par_num := par_num;
          w_line_num := line_num |}.

(** The dictionary [normalize_row] returns, as a record again. *)
Definition word_obj (w : word) : gmap string value :=
  <["page" := VInt (w_page w)]> (
  <["text" := VStr (w_text w)]> (
  <["conf" := from_option VInt VNone (w_conf w)]> (
  <["left" := VInt (w_left w)]> (
  <["top" := VInt (w_top w)]> (
  <["width" := VInt (w_width w)]> (
  <["height" := VInt (w_height w)]> (
  <["block_num" := VInt (w_block_num w)]> (
  <["par_num" := VInt (w_par_num w)]> (
  <["line_num" := VInt (w_line_num w)]> ∅))))))))).

(** ** Script Classifier *)

Definition DEVANAGARI_RANGE : N * N := (0x0900, 0x097F)%N.

Definition is_devanagari_char (ch : char) : bool :=
  ((DEVANAGARI_RANGE.1 <=? ch) && (ch <=? DEVANAGARI_RANGE.2))%N.

(** [sum(1 for c in text if p(c))] *)
Fixpoint count_if (p : char → bool) (text : str) : Z :=
  match text with
  | [] => 0
  | c :: r => (if p c then 1 else 0) + count_if p r
  end.

Definition script_ratio (text : str) : Q :=
  if bool_decide (text = []) then 0%Q
  else
    let dev := count_if is_devanagari_char text in
    let total := count_if isalpha text in
    if 0 <? total then (inject_Z dev / inject_Z total)%Q else 0%Q.

Inductive lang := hindi | english | mixed.

Definition Qltb (a b : Q) : bool := negb (Qle_bool b a).

Definition guess_lang (text : str) : lang :=
  let r := script_ratio text in
  if Qltb (3 # 10) r then hindi
  else if Qltb r (5 # 100) then english
  else mixed.

(** ** Line Reconstructor *)

Record line := {
  l_text : str;
  l_left : Z;
  l_top : Z;
  l_right : Z;
  l_bottom : Z;
  l_conf : option Z;
  l_words : list word;
}.

(** [sorted(l, key=key)]: the stable sort, by insertion from the right. *)
Section Sorted.
Context {A K : Type} (key : A → K) (le : K → K → bool).

Fixpoint insert_sorted (x : A) (l : list A) : list A :=
  match l with
  | [] => [x]
  | y :: r => if le (key x) (key y) then x :: l else y :: insert_sorted x r
  end.

Definition sorted (l : list A) : list A := foldr insert_sorted [] l.
End Sorted.

Definition sum_Z (l : list Z) : Z := foldr Z.add 0 l.
Definition len {A} (l : list A) : Z := Z.of_nat (length l).

(** [min(l)] and [max(l)]; the program calls them on the words of a group,
    and a group holds at least the word that opened it. *)
Definition py_min (l : list Z) : Z :=
  match l with [] => 0 | x :: r => foldl Z.min x r end.
Definition py_max (l : list Z) : Z :=
  match l with [] => 0 | x :: r => foldl Z.max x r end.

(** [int(sum(l)/len(l))], which the program computes for lists that are
    not empty: the quotient of two integers is the float nearest to the
    exact quotient. *)
Definition int_quotient (l : list Z) : Z :=
  Qtrunc (binary64 (inject_Z (sum_Z l) / inject_Z (len l))).

(** [int(sum(confs)/len(confs)) if confs else None] *)
Definition int_mean (confs : list Z) : option Z :=
  match confs with
  | [] => None
  | _ => Some (int_quotient confs)
  end.

(** The body shared by the two loops that build the lines, from the
    words of one group already sorted by [left]. *)
Definition make_line (words : list word) : line :=
  {| l_text := strip (join_space (map (λ w, strip (w_text w)) words));
     l_left := py_min (map w_left words);
     l_top := py_min (map w_top words);
     l_right := py_max (map (λ w, w_left w + w_width w) words);
     l_bottom := py_max (map (λ w, w_top w + w_height w) words);
     l_conf := int_mean (omap w_conf words);
     l_words := words |}.

Definition line_key (w : word) : Z * Z * Z :=
  (w_block_num w, w_par_num w, w_line_num w).

(** Order of tuples of integers. *)
Definition key_le (a b : Z * Z * Z) : bool :=
  let '(a1, a2, a3) := a in
  let '(b1, b2, b3) := b in
  (a1 <? b1) || (a1 =? b1) && ((a2 <? b2) || (a2 =? b2) && (a3 <=? b3)).

(** [by_line.setdefault(key, []).append(w)], on a dictionary kept in
    insertion order. *)
Fixpoint setdefault_append (k : Z * Z * Z) (w : word)
    (d : list (Z * Z * Z * list word)) : list (Z * Z * Z * list word) :=
  match d with
  | [] => [(k, [w])]
  | (k', ws) :: r =>
      if decide (k = k') then (k', ws ++ [w]) :: r
      else (k', ws) :: setdefault_append k w r
  end.

Definition by_line (page_words : list word) : list (Z * Z * Z * list word) :=
  foldl (λ d w, setdefault_append (line_key w) w d) [] page_words.

(** [d[k]] *)
Fixpoint item (k : Z * Z * Z) (d : list (Z * Z * Z * list word))
  : option (list word) :=
  match d with
  | [] => None
  | (k', ws) :: r => if decide (k = k') then Some ws else item k r
  end.

Definition has_line_num (page_words : list word) : bool :=
  existsb (λ w, negb (w_line_num w =? 0)) page_words.

Definition lines_by_metadata (page_words : list word) : list line :=
  let d := by_line page_words in
  omap (λ k, (λ words, make_line (sorted w_left Z.leb words)) <$> item k d)
       (sorted id key_le (map fst d)).

(** [_median]: the middle element of the elements that are not [None],
    an [int], or the float [(a + b) / 2.0] of the two middle ones. *)
Definition _median (arr : list (option Z)) : option number :=
  let arr := sorted id Z.leb (omap id arr) in
  match arr with
  | [] => None
  | _ =>
      let n := length arr in
      if (n mod 2 =? 1)%nat then Int <$> arr !! (n / 2)%nat
      else
        a ← arr !! (n / 2 - 1)%nat;
        b ← arr !! (n / 2)%nat;
        Some (Float (binary64 (binary64 (inject_Z (a + b)) / 2)))
  end.

Record group := { g_top : Z; g_words : list word }.

(** One turn of [for w in page_words_sorted]: the first group within the
    tolerance takes the word and recomputes its average top, or a new
    group is opened. *)
Fixpoint place (tol : Q) (w : word) (groups : list group) : list group :=
  match groups with
  | [] => [ {| g_top := w_top w; g_words := [w] |} ]
  | g :: rest =>
      if Qle_bool (inject_Z (Z.abs (w_top w - g_top g))) tol then
        let ws := g_words g ++ [w] in
        {| g_top := int_quotient (map w_top ws); g_words := ws |} :: rest
      else g :: place tol w rest
  end.

Definition lines_by_clustering (page_words : list word) (y_tol : Q)
  : list line :=
  let page_words_sorted := sorted w_top Z.leb page_words in
  let median_h :=
    match _median (map (λ w, Some (if w_height w =? 0 then 20 else w_height w))
                       page_words_sorted) with
    | Some m => number_or m (Int 20)
    | None => Int 20
    end in
  let groups :=
    foldl (λ groups w, place (binary64 (float median_h * y_tol)) w groups) []
          page_words_sorted in
  map (λ g, make_line (sorted w_left Z.leb (g_words g))) groups.

Definition group_words_to_lines (page_words : list word) (y_tol : Q)
  : list line :=
  if has_line_num page_words then lines_by_metadata page_words
  else lines_by_clustering page_words y_tol.

(** ** Candidate Segmenter *)

(** The pattern of a numbered question, matched at the start of the
    text: optional whitespace; optionally [Q] or [Question] and optional
    whitespace; one to four decimal digits (group 1); optional whitespace;
    optionally one separator among [)], [.], [:] and [-]; optional
    whitespace; the rest of the line (group 2).  No alternative of the
    pattern can succeed after the greedy one failed, so the groups are
    those of the greedy match. *)

Fixpoint strip_prefix (p s : str) : option str :=
  match p, s with
  | [], _ => Some s
  | a :: p', b :: s' => if (a =? b)%N then strip_prefix p' s' else None
  | _ :: _, [] => None
  end.

(** [(\d{1,4})]: at most [n] leading decimal digits, and what follows. *)
Fixpoint take_digits (n : nat) (s : str) : str * str :=
  match n, s with
  | Datatypes.S n', c :: r =>
      if is_Some_dec (decimal c) then
        let '(ds, rest) := take_digits n' r in (c :: ds, rest)
      else ([], s)
  | _, _ => ([], s)
  end.

(** [.*]: up to the first line feed. *)
Fixpoint dot_star (s : str) : str :=
  match s with
  | c :: r => if (c =? 10)%N then [] else c :: dot_star r
  | [] => []
  end.

Definition QUESTION_NUM_REGEX (text : str) : option (str * str) :=
  let s := lstrip_by isspace text in
  let s :=
    match s with
    | c :: r =>
        if (c =? 81)%N then
          lstrip_by isspace (default r (strip_prefix (U "uestion") r))
        else s
    | [] => s
    end in
  let '(digits, s) := take_digits 4 s in
  match digits with
  | [] => None
  | _ =>
      let s := lstrip_by isspace s in
      let s :=
        match s with
        | c :: r =>
            if (c =? 41)%N || (c =? 46)%N || (c =? 58)%N || (c =? 45)%N
            then r else s
        | [] => s
        end in
      let s := lstrip_by isspace s in
      Some (digits, dot_star s)
  end.

Definition detect_question_number (line_text : str) : option str * str :=
  match QUESTION_NUM_REGEX line_text with
  | Some (qnum, rest) => (Some qnum, strip rest)
  | None => (None, line_text)
  end.

(** The pattern of an answer option, matched at the start of the text:
    optional whitespace, a letter from [A] to [D], optional whitespace,
    then [.] or [)].  The program writes it twice, once with optional
    whitespace at the end, which matches the same texts. *)
Definition option_marker (text : str) : bool :=
  match lstrip_by isspace text with
  | c :: r =>
      ((65 <=? c) && (c <=? 68))%N &&
      match lstrip_by isspace r with
      | d :: _ => ((d =? 46) || (d =? 41))%N
      | [] => false
      end
  | [] => false
  end.

Record bbox := { bb_left : Z; bb_top : Z; bb_width : Z; bb_height : Z }.

Record block := {
  b_lang : lang;
  b_text : str;
  b_bbox : bbox;
  b_conf : option Z;
}.

Record candidate := {
  qnum : option str;
  blocks : list block;
  conf_avg : option Z;
}.

Definition _bbox (ln : line) : bbox :=
  {| bb_left := l_left ln; bb_top := l_top ln;
     bb_width := l_right ln - l_left ln;
     bb_height := l_bottom ln - l_top ln |}.

Definition _avg_conf (blocks : list block) : option Z :=
  int_mean (omap b_conf blocks).

(** The block appended for a line taken whole. *)
Definition line_block (ln : line) : block :=
  {| b_lang := guess_lang (l_text ln); b_text := l_text ln;
     b_bbox := _bbox ln; b_conf := l_conf ln |}.

(** [if qnum:] *)
Definition is_qnum (q : option str) : bool :=
  match q with
  | Some (_ :: _) => true
  | _ => false
  end.

(** [line.get('bottom',0)-line.get('top',0) or 1] *)
Definition line_height (ln : line) : Z :=
  let h := l_bottom ln - l_top ln in
  if h =? 0 then 1 else h.

Section Segmenter.
Variable lines : list line.
Let n := length lines.

(** The inner loop of the numbered branch; the state is
    [(line, i, blocks)]. *)
Definition question_cond (s : line * nat * list block) : bool :=
  let '(_, i, _) := s in (i <? n)%nat.

Definition question_body (s : line * nat * list block)
  : turn (line * nat * list block) :=
  let '(ln, i, blocks) := s in
  match lines !! i with
  | None => Break s
  | Some nxt =>
      let '(nxt_qnum, _) := detect_question_number (l_text nxt) in
      if is_qnum nxt_qnum then Break s
      else if l_top nxt - l_bottom ln >? line_height ln * 6 then Break s
      else Next (nxt, Datatypes.S i, blocks ++ [line_block nxt])
  end.

(** The numbered branch from [i += 1] to the end of its loop. *)
Definition collect_question (ln : line) (i : nat) (first : block)
  : line * nat * list block :=
  while n question_cond question_body (ln, Datatypes.S i, [first]).

(** The loop that extends a chunk after an option marker; the state is
    [(j, blocks)]. *)
Definition options_cond (i : nat) (s : nat * list block) : bool :=
  let '(j, _) := s in
  (j <? n)%nat
  && match lines !! j with
     | Some ln => negb (option_marker (l_text ln))
     | None => false
     end
  && (j <? i + 8)%nat.

Definition options_body (s : nat * list block) : turn (nat * list block) :=
  let '(j, blocks) := s in
  match lines !! j with
  | None => Break s
  | Some ln => Next (Datatypes.S j, blocks ++ [line_block ln])
  end.

(** The loop that collects an unnumbered chunk; the state is
    [(j, blocks)]. *)
Definition chunk_cond (i : nat) (s : nat * list block) : bool :=
  let '(j, _) := s in (j <? n `min` (i + 6))%nat.

Definition chunk_body (i : nat) (s : nat * list block)
  : turn (nat * list block) :=
  let '(j, blocks) := s in
  match lines !! j with
  | None => Break s
  | Some ln =>
      let blocks := blocks ++ [line_block ln] in
      if option_marker (l_text ln) then
        Break (while n (options_cond i) options_body (Datatypes.S j, blocks))
      else Next (Datatypes.S j, blocks)
  end.

(** The unnumbered branch from [blocks = []] to the end of its loop. *)
Definition collect_chunk (i : nat) : nat * list block :=
  while n (chunk_cond i) (chunk_body i) (i, []).

(** [len(" ".join(b['text'] for b in blocks).strip())] *)
Definition chunk_length (blocks : list block) : Z :=
  len (strip (join_space (map b_text blocks))).

(** One turn of the outer loop; the state is [(i, candidates)]. *)
Definition segment_cond (s : nat * list candidate) : bool :=
  let '(i, _) := s in (i <? n)%nat.

Definition segment_body (s : nat * list candidate)
  : turn (nat * list candidate) :=
  let '(i, candidates) := s in
  match lines !! i with
  | None => Break s
  | Some ln =>
      let '(q, rest) := detect_question_number (l_text ln) in
      if is_qnum q then
        let first :=
          {| b_lang := guess_lang (l_text ln);
             b_text := if bool_decide (rest = []) then l_text ln else rest;
             b_bbox := _bbox ln; b_conf := l_conf ln |} in
        let '(_, i', blocks) := collect_question ln i first in
        Next (i', candidates ++
                  [{| qnum := q; blocks := blocks;
                      conf_avg := _avg_conf blocks |}])
      else
        let '(j, blocks) := collect_chunk i in
        if chunk_length blocks >? 10 then
          Next (j, candidates ++
                   [{| qnum := None; blocks := blocks;
                       conf_avg := _avg_conf blocks |}])
        else Next (Datatypes.S i, candidates)
  end.

Definition group_lines_to_candidates : list candidate :=
  (while n segment_cond segment_body (0%nat, [])).2.
End Segmenter.

End Python.

(** ** Page Loader and orchestration *)

(** A line of the input file, by what [line.strip()] and [json.loads]
    make of it: a line of whitespace, a line that is no JSON document (on
    which [json.loads] raises [JSONDecodeError], a [ValueError]), or a
    document. *)
Inductive input_line :=
  | Blank
  | Malformed
  | Document (v : value).

(** [blocks_by_page[page].append(w)] on a [defaultdict(list)], kept in
    insertion order. *)
Fixpoint page_append (page : Z) (w : word) (d : list (Z * list word))
  : list (Z * list word) :=
  match d with
  | [] => [(page, [w])]
  | (p, ws) :: r =>
      if decide (page = p) then (p, ws ++ [w]) :: r
      else (p, ws) :: page_append page w r
  end.

(** A candidate after [c['page'] = page]. *)
Record output := {
  o_candidate : candidate;
  o_page : Z;
}.

(** The key [(l['top'], l['left'])] and the order of pairs of integers. *)
Definition reading_key (ln : line) : Z * Z := (l_top ln, l_left ln).
Definition pair_le (a b : Z * Z) : bool :=
  (a.1 <? b.1) || (a.1 =? b.1) && (a.2 <=? b.2).

Section Pipeline.
Context `{Unicode}.

(** [normalize_row(obj)] on what [json.loads] returned: [obj.get] exists
    on a dict only. *)
Definition normalize_document (v : value) : result word :=
  match v with
  | VDict obj => normalize_row obj
  | _ => Raise AttributeError
  end.

(** The loop of [load_blocks] from the dictionary [d] on. *)
Fixpoint load_from (d : list (Z * list word)) (file : list input_line)
  : result (list (Z * list word)) :=
  match file with
  | [] => Ok d
  | Blank :: rest => load_from d rest
  | Malformed :: _ => Raise ValueError
  | Document v :: rest =>
      norm ← normalize_document v;
      load_from (page_append (w_page norm) norm d) rest
  end.

Definition load_blocks (file : list input_line)
  : result (list (Z * list word)) :=
  load_from [] file.

(** The body of the loop of [main] over the pages: the candidates of one
    page, each with its page.  [group_words_to_lines] is called with its
    default tolerance. *)
Definition page_candidates (page : Z) (words : list word) : list output :=
  let lines := group_words_to_lines words (1 # 2) in
  let lines_sorted := sorted reading_key pair_le lines in
  map (λ c, {| o_candidate := c; o_page := page |})
      (group_lines_to_candidates lines_sorted).

(** [main] up to the list [all_candidates] that it writes.  The pages of
    the dictionary are distinct, so [sorted(pages.items())] orders the
    items by page. *)
Definition main (file : list input_line) : result (list output) :=
  pages ← load_blocks file;
  Ok (flat_map (λ '(page, words), page_candidates page words)
               (sorted fst Z.leb pages)).

End Pipeline.

(** ** Definitions used to state the properties *)

(** Types of the fields of a record. *)
Definition is_int (v : value) : bool :=
  match v with VInt _ => true | _ => false end.
Definition int_or_null (v : value) : bool :=
  match v with VNone | VInt _ => true | _ => false end.
Definition str_or_null (v : value) : bool :=
  match v with VNone | VStr _ => true | _ => false end.

(** The field [k] of [d] is absent or satisfies [p]. *)
Definition field (p : value → bool) (d : gmap string value) (k : string)
  : bool :=
  match d !! k with Some v => p v | None => true end.

Definition box_or_null (v : value) : bool :=
  match v with
  | VNone => true
  | VDict m =>
      forallb (field int_or_null m)
              ["left"; "top"; "width"; "height"; "x"; "y"; "w"; "h"]%string
  | _ => false
  end.

(** A record whose present fields have the types of the schemas the
    normalizer reads: an integer page, string or null texts, integer or
    null geometry and layout identifiers, and a nested box that is null
    or an object of integer or null coordinates.  The confidence is not
    constrained. *)
Definition well_typed (obj : gmap string value) : bool :=
  field is_int obj "page"
  && field str_or_null obj "text" && field str_or_null obj "ocr_text"
  && forallb (field int_or_null obj)
             ["left"; "top"; "width"; "height";
              "block_num"; "block_id"; "par_num"; "line_num"]%string
  && field box_or_null obj "bbox".

(** The resolution order of a coordinate, in the words of the
    specification: the first of the candidate fields, in order, that is
    present and holds neither null nor zero (nor another false value),
    and 0 when there is none. *)
Fixpoint first_truthy (candidates : list (option value)) : value :=
  match candidates with
  | [] => VInt 0
  | Some v :: rest => if truthy v then v else first_truthy rest
  | None :: rest => first_truthy rest
  end.

(** The nested box of a record: the object under [bbox], and the empty
    object when the record has none. *)
Definition sub_object (obj : gmap string value) : gmap string value :=
  match obj !! "bbox" with
  | Some (VDict m) => m
  | _ => ∅
  end.

(** Whether the record exposes the four geometry fields directly. *)
Definition exposes_box (obj : gmap string value) : bool :=
  contains obj "left" && contains obj "top" && contains obj "width"
  && contains obj "height".

(** The loop without a bound on its turns: [runs cond body s s'] when the
    loop entered in state [s] leaves in state [s']. *)
Inductive runs {S : Type} (cond : S → bool) (body : S → turn S)
  : S → S → Prop :=
  | runs_exit s : cond s = false → runs cond body s s
  | runs_break s s' : cond s = true → body s = Break s' → runs cond body s s'
  | runs_next s s1 s' :
      cond s = true → body s = Next s1 → runs cond body s1 s' →
      runs cond body s s'.

(** The vertical gap test of the numbered branch: the gap from the bottom
    of [cur] to the top of [nxt] exceeds six heights of [cur], a height of
    zero counting as 1. *)
Definition gap_exceeds (cur nxt : line) : bool :=
  let h := l_bottom cur - l_top cur in
  l_top nxt - l_bottom cur >? 6 * (if h =? 0 then 1 else h).

(** The same test in the words of the specification, where every height
    that is not positive counts as 1. *)
Definition described_gap_exceeds (cur nxt : line) : bool :=
  let h := l_bottom cur - l_top cur in
  l_top nxt - l_bottom cur >? 6 * (if h <=? 0 then 1 else h).

Section Described.
Context `{Unicode}.

(** The script ratio as the specification describes it: the fraction of
    the alphabetic characters of the text that lie in the Devanagari
    block. *)
Definition alphabetic_fraction (text : str) : Q :=
  let dev := count_if (λ c, isalpha c && is_devanagari_char c) text in
  let total := count_if isalpha text in
  if 0 <? total then (inject_Z dev / inject_Z total)%Q else 0%Q.

(** The line matches the pattern of a numbered question. *)
Definition numbered (ln : line) : bool :=
  bool_decide (is_Some (QUESTION_NUM_REGEX (l_text ln))).

(** The text of the first block of a numbered candidate. *)
Definition first_text (ln : line) (rest : str) : str :=
  if bool_decide (strip rest = []) then l_text ln else strip rest.

(** Line [m] is taken into the numbered candidate that holds line
    [m - 1]: it has no question number and the gap before it is small. *)
Definition continues (lines : list line) (m : nat) : Prop :=
  ∃ prev cur, lines !! (m - 1)%nat = Some prev ∧ lines !! m = Some cur
              ∧ numbered cur = false ∧ gap_exceeds prev cur = false.

(** Line [k] ends the numbered candidate that holds line [k - 1]: it has
    a question number, or the gap before it is large. *)
Definition stops (lines : list line) (k : nat) : Prop :=
  ∃ prev nxt, lines !! (k - 1)%nat = Some prev ∧ lines !! k = Some nxt
              ∧ (numbered nxt = true ∨ gap_exceeds prev nxt = true).

(** The first block of the numbered candidate opened by line [ln]. *)
Definition first_block (ln : line) (rest : str) : block :=
  {| b_lang := guess_lang (l_text ln); b_text := first_text ln rest;
     b_bbox := _bbox ln; b_conf := l_conf ln |}.

(** What the two loops of the unnumbered branch keep of their state
    [(j, blocks)]: at least one block, and a position after the line that
    opened the chunk, within the page. *)
Definition chunk_inv (lines : list line) (i : nat) (s : nat * list block)
  : Prop :=
  (i < s.1 ≤ length lines)%nat ∧ s.2 ≠ [].

(** What the segmenter asks of a candidate it emits. *)
Definition well_formed_candidate (c : candidate) : Prop :=
  blocks c ≠ [] ∧ (qnum c = None → 10 < chunk_length (blocks c)).

(** The state a turn leaves. *)
Definition turn_state {S : Type} (t : turn S) : S :=
  match t with Next s | Break s => s end.

(** The scan position after the turn at position [i], and the candidates
    that this turn appends. *)
Definition next_position (lines : list line) (i : nat) : nat :=
  (turn_state (segment_body lines (i, []))).1.
Definition emitted (lines : list line) (i : nat) : list candidate :=
  (turn_state (segment_body lines (i, []))).2.

(** The scan positions of a page: the values that [i] takes at the head
    of the outer loop. *)
Inductive scanned (lines : list line) : nat → Prop :=
  | scanned_first : scanned lines 0
  | scanned_next i :
      scanned lines i → (i < length lines)%nat →
      scanned lines (next_position lines i).

End Described.

(** The confidence of a line in the words of the specification: the
    arithmetic mean of the confidences, rounded down. *)
Definition floor_mean (confs : list Z) : option Z :=
  match confs with
  | [] => None
  | _ => Some (sum_Z confs / len confs)
  end.

(** The mean rounded toward zero. *)
Definition truncated_mean (confs : list Z) : option Z :=
  match confs with
  | [] => None
  | _ => Some (sum_Z confs ÷ len confs)
  end.

(** ** Records, texts and pages on which the functions are evaluated *)

(** [{"page": null}] *)
Definition null_page_record : gmap string value :=
  {[ "page" := VNone ]}.

(** [{"text": 5}] *)
Definition numeric_text_record : gmap string value :=
  {[ "text" := VInt 5 ]}.

(** [{"page": 2, "text": "  Q1) What ", "conf": "87", "left": 10,
      "top": 20, "width": 30, "height": 12, "line_num": 3}] *)
Definition flat_record : gmap string value :=
  <["page" := VInt 2]> (
  <["text" := VStr (U "  Q1) What ")]> (
  <["conf" := VStr (U "87")]> (
  <["left" := VInt 10]> (
  <["top" := VInt 20]> (
  <["width" := VInt 30]> (
  <["height" := VInt 12]> (
  <["line_num" := VInt 3]> ∅))))))).

Definition flat_word : word :=
  {| w_page := 2; w_text := U "Q1) What"; w_conf := Some 87;
     w_left := 10; w_top := 20; w_width := 30; w_height := 12;
     w_block_num := 0; w_par_num := 0; w_line_num := 3 |}.

(** [{"bbox": {"left": 0, "top": 5, "width": 1, "height": 1}, "left": 7}]:
    the nested box gives 0 for [left], the record itself gives 7. *)
Definition nested_zero_record : gmap string value :=
  <["bbox" := VDict (<["left" := VInt 0]> (<["top" := VInt 5]> (
                     <["width" := VInt 1]> (<["height" := VInt 1]> ∅))))]> (
  <["left" := VInt 7]> ∅).

Definition nested_zero_word : word :=
  {| w_page := 1; w_text := []; w_conf := None;
     w_left := 7; w_top := 5; w_width := 1; w_height := 1;
     w_block_num := 0; w_par_num := 0; w_line_num := 0 |}.

(** The Hindi word for question, of the third scenario of the
    specification: four letters and two signs virama (U+094D), which are
    marks and not alphabetic. *)
Definition prashna : str :=
  [0x92A; 0x94D; 0x930; 0x936; 0x94D; 0x928]%N.

(** Three Devanagari letters among ten letters, and one among twenty. *)
Definition three_in_ten : str :=
  [0x915; 0x916; 0x917]%N ++ U "abcdefg".
Definition one_in_twenty : str :=
  [0x915]%N ++ U "abcdefghijklmnopqrs".

(** A word of a page, as the normalizer returns it. *)
Definition word_at (text : string) (x y w h : Z) (conf : option Z)
    (line_num : Z) : word :=
  {| w_page := 1; w_text := U text; w_conf := conf;
     w_left := x; w_top := y; w_width := w; w_height := h;
     w_block_num := 0; w_par_num := 0; w_line_num := line_num |}.

(** Two words of confidence -1 and -2 on one line, with and without
    layout identifiers. *)
Definition negative_conf_page (line_num : Z) : list word :=
  [ word_at "a" 0 10 20 10 (Some (-1)) line_num;
    word_at "b" 30 10 20 10 (Some (-2)) line_num ].

(** A numbered line whose word has the height -5, and a line that
    starts at the same top: the records
    [{"text": "1) a", "left": 0, "top": 10, "width": 20, "height": -5,
      "line_num": 1}] and
    [{"text": "b", "left": 50, "top": 10, "width": 10, "height": 10,
      "line_num": 2}]. *)
Definition negative_height_page : list line :=
  group_words_to_lines
    [ word_at "1) a" 0 10 20 (-5) None 1;
      word_at "b" 50 10 10 10 None 2 ] (1 # 2).

(** A question on two lines, followed by the next question. *)
Definition two_questions_page : list line :=
  group_words_to_lines
    [ word_at "1)" 0 10 20 10 (Some 90) 1;
      word_at "What" 30 10 40 10 (Some 80) 1;
      word_at "is it?" 0 25 60 10 (Some 70) 2;
      word_at "2." 0 40 20 10 (Some 90) 3;
      word_at "Why?" 30 40 40 10 None 3 ] (1 # 2).

(** A page whose only line is a number. *)
Definition digits_page : list line :=
  group_words_to_lines [ word_at "12" 0 10 20 10 (Some 90) 0 ] (1 # 2).

(** The second scenario of the specification: three short lines far
    apart, without a question number. *)
Definition short_lines_page : list line :=
  group_words_to_lines
    [ word_at "ab" 0 10 20 10 None 0;
      word_at "cd" 0 500 20 10 None 0;
      word_at "ef" 0 1000 20 10 None 0 ] (1 # 2).

(** An unnumbered line, long enough, that swallows what follows. *)
Definition chunk_page : list line :=
  group_words_to_lines
    [ word_at "Instructions:" 0 10 90 10 (Some 95) 1;
      word_at "A." 0 30 10 10 (Some 60) 2;
      word_at "B." 0 50 10 10 None 3 ] (1 # 2).

(** One word with a line number, and two words without, of the same
    block and paragraph, at the two ends of the page. *)
Definition mixed_metadata_page : list word :=
  [ word_at "top" 0 10 30 10 None 0;
    word_at "title" 0 400 50 10 None 1;
    word_at "bottom" 40 900 30 10 None 0 ].

(** The lines of [two_questions_page] and of [digits_page]. *)
Definition question_line : line :=
  make_line [ word_at "1)" 0 10 20 10 (Some 90) 1;
              word_at "What" 30 10 40 10 (Some 80) 1 ].
Definition digits_line : line :=
  make_line [ word_at "12" 0 10 20 10 (Some 90) 0 ].

(** ** Definitions used to state further properties *)

(** The token [w] with the confidence [c]. *)
Definition with_conf (c : option Z) (w : word) : word :=
  {| w_page := w_page w; w_text := w_text w; w_conf := c;
     w_left := w_left w; w_top := w_top w; w_width := w_width w;
     w_height := w_height w; w_block_num := w_block_num w;
     w_par_num := w_par_num w; w_line_num := w_line_num w |}.

(** The text has no whitespace at either end. *)
Definition trimmed (s : str) : Prop :=
  (∀ c, head s = Some c → isspace c = false)
  ∧ (∀ c, last s = Some c → isspace c = false).

(** The strict order of the layout triples. *)
Definition key_lt (a b : Z * Z * Z) : Prop := key_le a b = true ∧ a ≠ b.

(** The box of the line encloses the word. *)
Definition encloses (ln : line) (w : word) : Prop :=
  l_left ln ≤ w_left w ∧ l_top ln ≤ w_top w
  ∧ w_left w + w_width w ≤ l_right ln
  ∧ w_top w + w_height w ≤ l_bottom ln.

(** What a block keeps of the line it is made from: the box, the
    confidence and the language of the text of the line. *)
Definition block_source (b : block) : bbox * option Z * lang :=
  (b_bbox b, b_conf b, b_lang b).

(** The line is blank. *)
Definition is_blank (ln : input_line) : bool :=
  match ln with Blank => true | _ => false end.

(** The entry of a page in the dictionary of the loader. *)
Fixpoint page_item (page : Z) (d : list (Z * list word))
  : option (list word) :=
  match d with
  | [] => None
  | (p, ws) :: r => if decide (page = p) then Some ws else page_item page r
  end.

(** The dictionary of the loader after the tokens [ws]. *)
Definition pages_of (ws : list word) : list (Z * list word) :=
  foldl (λ d w, page_append (w_page w) w d) [] ws.

Section DescribedFurther.
Context `{Unicode}.

(** The classifier with the rounding of the division and of the two
    literals written out. *)
Definition guess_lang_binary64 (text : str) : lang :=
  let r := binary64 (script_ratio text) in
  if Qltb (binary64 (3 # 10)) r then hindi
  else if Qltb r (binary64 (5 # 100)) then english
  else mixed.

Definition line_source (ln : line) : bbox * option Z * lang :=
  (_bbox ln, l_conf ln, guess_lang (l_text ln)).

(** The tokens of the documents of a file, in the order of the file; the
    first line that is no document, or whose document does not normalize,
    raises. *)
Fixpoint normalized (file : list input_line) : result (list word) :=
  match file with
  | [] => Ok []
  | Blank :: rest => normalized rest
  | Malformed :: _ => Raise ValueError
  | Document v :: rest =>
      w ← normalize_document v;
      ws ← normalized rest;
      Ok (w :: ws)
  end.

End DescribedFurther.

(** ** Records, texts and pages for the further properties *)

(** Three Devanagari letters, the first with the sign virama, among ten
    letters: three of the ten alphabetic characters lie in the block, and
    four code points of the text do. *)
Definition three_in_ten_with_virama : str :=
  [0x915; 0x94D; 0x916; 0x917]%N ++ U "abcdefg".

(** Confidences and top coordinates from 2^53 on, on words of height 1. *)
Definition beyond_2_53 : Z := 2 ^ 53 + 1.
Definition beyond_2_53_page : list word :=
  [ word_at "a" 0 beyond_2_53 10 1 (Some beyond_2_53) 0;
    word_at "b" 20 beyond_2_53 10 1 (Some beyond_2_53) 0;
    word_at "c" 40 beyond_2_53 10 1 None 0 ].

(** [flat_record] with a string under [bbox]. *)
Definition shadowed_box_record : gmap string value :=
  <["bbox" := VStr (U "none")]> flat_record.

(** The Devanagari digits one, two and three: code points of the block,
    none of them alphabetic. *)
Definition devanagari_digits : str := [0x967; 0x968; 0x969]%N.

(** A line of the input file holding one token of a page. *)
Definition token_line (page : Z) (text : string) (x y : Z) : input_line :=
  Document (VDict (
    <["page" := VInt page]> (
    <["text" := VStr (U text)]> (
    <["conf" := VInt 90]> (
    <["left" := VInt x]> (
    <["top" := VInt y]> (
    <["width" := VInt 20]> (
    <["height" := VInt 10]> ∅)))))))).

(** A file whose second page comes first, with a blank line. *)
Definition two_page_file : list input_line :=
  [ token_line 2 "2)" 0 10; Blank; token_line 1 "1)" 0 10 ].

(** The words of a page with confidences between 70 and 90, one of them
    without confidence. *)
Definition confident_page : list word :=
  [ word_at "1)" 0 10 20 10 (Some 90) 1;
    word_at "What" 30 10 40 10 (Some 80) 1;
    word_at "is it?" 0 25 60 10 (Some 70) 2;
    word_at "2." 0 40 20 10 (Some 90) 3;
    word_at "Why?" 30 40 40 10 None 3 ].

(** An unnumbered line followed by a numbered one. *)
Definition heading_line : line :=
  make_line [ word_at "Read carefully" 0 10 90 10 (Some 95) 0 ].
Definition heading_page : list line := [ heading_line; question_line ].

(** Two words without line number on one baseline, the right one first,
    the left one of height zero. *)
Definition baseline_page : list word :=
  [ word_at "cd" 50 10 20 10 None 0;
    word_at "ab" 0 10 20 0 None 0 ].

(** * Properties *)

(** ** Rounding

    [binary64] is monotone, leaves the values of the format where they
    are, and below 2^50 changes the integer part of no quotient of two
    integers. *)

Section RoundingFacts.

#[global] Instance round_half_even_comp : Proper (Qeq ==> eq) round_half_even.
Proof.
  intros q q' Hq. unfold round_half_even.
  rewrite (Qfloor_comp q q' Hq). by rewrite Hq.
Qed.

Lemma round_half_even_floor q :
  Qfloor q ≤ round_half_even q ≤ Qfloor q + 1.
Proof.
  unfold round_half_even.
  destruct (q - inject_Z (Qfloor q) ?= 1 # 2)%Q; [|lia|lia].
  destruct (Z.even (Qfloor q)); lia.
Qed.

Lemma round_half_even_lower (n : Z) q :
  (inject_Z n <= q)%Q → n ≤ round_half_even q.
Proof.
  intros Hn. apply Qfloor_resp_le in Hn. rewrite Qfloor_Z in Hn.
  pose proof (round_half_even_floor q). lia.
Qed.

Lemma round_half_even_upper (n : Z) q :
  (q <= inject_Z n)%Q → round_half_even q ≤ n.
Proof.
  intros Hn. pose proof (Qfloor_resp_le _ _ Hn) as Hf. rewrite Qfloor_Z in Hf.
  pose proof (round_half_even_floor q) as Hr.
  destruct (Z.eq_dec (Qfloor q) n) as [Heq|]; [|lia].
  unfold round_half_even. rewrite Heq.
  destruct (Qcompare_spec (q - inject_Z n) (1 # 2)) as [H1|H1|H1];
    [lra|lia|lra].
Qed.

Lemma round_half_even_Z (n : Z) : round_half_even (inject_Z n) = n.
Proof.
  pose proof (round_half_even_lower n (inject_Z n) (Qle_refl _)).
  pose proof (round_half_even_upper n (inject_Z n) (Qle_refl _)). lia.
Qed.

Lemma round_half_even_mono q q' :
  (q <= q')%Q → round_half_even q ≤ round_half_even q'.
Proof.
  intros Hq. pose proof (Qfloor_resp_le _ _ Hq) as Hf.
  pose proof (round_half_even_floor q) as Hr.
  pose proof (round_half_even_floor q') as Hr'.
  destruct (Z.eq_dec (Qfloor q) (Qfloor q')) as [Heq|]; [|lia].
  unfold round_half_even. rewrite <- Heq.
  destruct (Qcompare_spec (q - inject_Z (Qfloor q)) (1 # 2)) as [H1|H1|H1];
    destruct (Qcompare_spec (q' - inject_Z (Qfloor q)) (1 # 2)) as [H2|H2|H2];
    try lia; try lra; destruct (Z.even (Qfloor q)); lia.
Qed.

Lemma round_half_even_opp q : round_half_even (- q) = - round_half_even q.
Proof.
  pose proof (Qfloor_le q) as Hl. pose proof (Qlt_floor q) as Hu.
  rewrite inject_Z_plus in Hu. change (inject_Z 1) with 1%Q in Hu.
  destruct (Qeq_dec q (inject_Z (Qfloor q))) as [Hint|Hfrac].
  { rewrite (round_half_even_comp q _ Hint), round_half_even_Z.
    assert (Hopp : (- q == inject_Z (- Qfloor q))%Q)
      by (rewrite inject_Z_opp; by apply Qopp_comp).
    by rewrite (round_half_even_comp _ _ Hopp), round_half_even_Z. }
  assert (Hf : Qfloor (- q) = - Qfloor q - 1).
  { pose proof (Qfloor_le (- q)) as Hl'. pose proof (Qlt_floor (- q)) as Hu'.
    rewrite inject_Z_plus in Hu'. change (inject_Z 1) with 1%Q in Hu'.
    assert (Ha : (inject_Z (Qfloor (- q)) < inject_Z (- Qfloor q))%Q).
    { rewrite inject_Z_opp. apply Qle_lt_trans with (- q)%Q; [done|].
      apply Qopp_lt_compat. apply Qle_lteq in Hl as [Hl|Hl]; [done|].
      exfalso. apply Hfrac. by symmetry. }
    assert (Hb : (inject_Z (- Qfloor q - 2) < inject_Z (Qfloor (- q)))%Q).
    { unfold Z.sub. rewrite !inject_Z_plus, !inject_Z_opp.
      change (inject_Z 2) with 2%Q. lra. }
    rewrite <- Zlt_Qlt in Ha, Hb. lia. }
  unfold round_half_even. rewrite Hf.
  assert (Hfr : (- q - inject_Z (- Qfloor q - 1)
                 == 1 - (q - inject_Z (Qfloor q)))%Q).
  { unfold Z.sub. rewrite !inject_Z_plus, !inject_Z_opp.
    change (inject_Z 1) with 1%Q. ring. }
  rewrite Hfr.
  assert (He : Z.even (- Qfloor q - 1) = negb (Z.even (Qfloor q))).
  { replace (- Qfloor q - 1) with (- (Qfloor q + 1)) by lia.
    rewrite Z.even_opp. replace (Qfloor q + 1) with (Z.succ (Qfloor q)) by lia.
    rewrite Z.even_succ. by rewrite <- Z.negb_even. }
  rewrite He.
  destruct (Qcompare_spec (q - inject_Z (Qfloor q)) (1 # 2)) as [H1|H1|H1];
    destruct (Qcompare_spec (1 - (q - inject_Z (Qfloor q))) (1 # 2))
      as [H2|H2|H2]; try lra; try lia.
  destruct (Z.even (Qfloor q)); simpl; lia.
Qed.

End RoundingFacts.

Section PowerFacts.

Lemma pow2_pos x : (0 < 2 ^ x)%Q.
Proof. by apply Qpower_0_lt. Qed.

Lemma pow2_add x y : (2 ^ (x + y) == 2 ^ x * 2 ^ y)%Q.
Proof. by apply Qpower_plus. Qed.

Lemma pow2_succ x : (2 ^ (x + 1) == 2 * 2 ^ x)%Q.
Proof. rewrite pow2_add. change (2 ^ 1)%Q with 2%Q. ring. Qed.

Lemma pow2_mono x y : x ≤ y → (2 ^ x <= 2 ^ y)%Q.
Proof. intros. by apply Qpower_le_compat_l. Qed.

Lemma pow2_lt_inv x y : (2 ^ x < 2 ^ y)%Q → x < y.
Proof. intros. by eapply Qpower_lt_compat_l_inv. Qed.

Lemma pow2_Z x : 0 ≤ x → (inject_Z (2 ^ x) == 2 ^ x)%Q.
Proof. intros. by rewrite Zpower_Qpower. Qed.

Lemma exponent_spec q :
  (0 < q)%Q → (2 ^ exponent q <= q)%Q ∧ (q < 2 ^ (exponent q + 1))%Q.
Proof.
  intros Hq. unfold exponent.
  set (e := Z.log2 (Qnum q) - Z.log2 (Z.pos (Qden q))).
  assert (Hn : 0 < Qnum q).
  { destruct q as [n d]. unfold Qlt in Hq. simpl in *. lia. }
  destruct (Z.log2_spec _ Hn) as [Hn1 Hn2].
  destruct (Z.log2_spec (Z.pos (Qden q)) (Pos2Z.is_pos _)) as [Hd1 Hd2].
  rewrite Zle_Qle in Hn1, Hd1. rewrite Zlt_Qlt in Hn2, Hd2.
  rewrite pow2_Z in Hn1, Hn2, Hd1, Hd2 by
    (try apply Z.le_le_succ_r; apply Z.log2_nonneg).
  unfold Z.succ in Hn2, Hd2. rewrite pow2_succ in Hn2, Hd2.
  assert (Hqd : (q * inject_Z (Z.pos (Qden q)) == inject_Z (Qnum q))%Q).
  { destruct q as [n d]. simpl. unfold Qeq, Qmult, inject_Z. simpl. lia. }
  assert (He : (2 ^ Z.log2 (Qnum q)
                == 2 ^ e * 2 ^ Z.log2 (Z.pos (Qden q)))%Q).
  { rewrite <- pow2_add. subst e. by replace (_ - _ + _) with
      (Z.log2 (Qnum q)) by lia. }
  pose proof (pow2_pos e) as He0.
  pose proof (pow2_pos (Z.log2 (Z.pos (Qden q)))) as Hd0.
  set (E := (2 ^ e)%Q) in *. set (B := (2 ^ Z.log2 (Z.pos (Qden q)))%Q) in *.
  set (A := (2 ^ Z.log2 (Qnum q))%Q) in *.
  set (N := inject_Z (Qnum q)) in *. set (D := inject_Z (Z.pos (Qden q))) in *.
  assert (Hlo : (E < 2 * q)%Q) by nra.
  assert (Hhi : (q < 2 * E)%Q) by nra.
  destruct (Qle_bool E q) eqn:Hle.
  - apply Qle_bool_iff in Hle. rewrite pow2_succ. fold E. split; lra.
  - assert (Hlt : (q < E)%Q).
    { apply Qnot_le_lt. intros Hc. apply Qle_bool_iff in Hc. congruence. }
    replace (e - 1 + 1) with e by lia. fold E.
    assert (HE : (E == 2 * 2 ^ (e - 1))%Q).
    { rewrite <- pow2_succ. subst E. by replace (e - 1 + 1) with e by lia. }
    split; lra.
Qed.

Lemma exponent_unique q e :
  (2 ^ e <= q)%Q → (q < 2 ^ (e + 1))%Q → exponent q = e.
Proof.
  intros Hl Hu.
  assert (Hq : (0 < q)%Q) by (pose proof (pow2_pos e); lra).
  destruct (exponent_spec q Hq) as [Hl' Hu'].
  assert (e < exponent q + 1) by (apply pow2_lt_inv; lra).
  assert (exponent q < e + 1) by (apply pow2_lt_inv; lra).
  lia.
Qed.

Lemma exponent_comp q q' : (0 < q)%Q → (q == q')%Q → exponent q = exponent q'.
Proof.
  intros Hq Heq. symmetry. destruct (exponent_spec q Hq).
  apply exponent_unique; by rewrite <- Heq.
Qed.

Lemma exponent_mono q q' :
  (0 < q)%Q → (q <= q')%Q → exponent q ≤ exponent q'.
Proof.
  intros Hq Hle. destruct (exponent_spec q Hq) as [Hl _].
  destruct (exponent_spec q') as [_ Hu]; [lra|].
  assert (exponent q < exponent q' + 1) by (apply pow2_lt_inv; lra). lia.
Qed.

End PowerFacts.

Section Binary64Facts.

Lemma Qabs_pos_iff q : ¬ (q == 0)%Q → (0 < Qabs q)%Q.
Proof.
  intros Hq. apply Qabs_case; intros; apply Qnot_le_lt; intros Hc; apply Hq; lra.
Qed.

Lemma quantum_pos q : (0 < quantum q)%Q.
Proof. apply pow2_pos. Qed.

Lemma quantum_comp q q' :
  ¬ (q == 0)%Q → (q == q')%Q → quantum q = quantum q'.
Proof.
  intros Hq Heq. unfold quantum.
  rewrite (exponent_comp (Qabs q) (Qabs q')); [done|by apply Qabs_pos_iff|].
  by rewrite Heq.
Qed.

Lemma quantum_opp q : ¬ (q == 0)%Q → quantum (- q) = quantum q.
Proof.
  intros Hq. unfold quantum.
  rewrite (exponent_comp (Qabs (- q)) (Qabs q)); [done| |apply Qabs_opp].
  rewrite Qabs_opp. by apply Qabs_pos_iff.
Qed.

Lemma binary64_zero q : (q == 0)%Q → binary64 q = 0%Q.
Proof. intros Hq. unfold binary64. apply Qeq_bool_iff in Hq. by rewrite Hq. Qed.

Lemma binary64_nonzero q :
  ¬ (q == 0)%Q →
  binary64 q = (inject_Z (round_half_even (q / quantum q)) * quantum q)%Q.
Proof.
  intros Hq. unfold binary64. destruct (Qeq_bool q 0) eqn:He; [|done].
  by apply Qeq_bool_iff in He.
Qed.

Lemma binary64_wd q q' : (q == q')%Q → (binary64 q == binary64 q')%Q.
Proof.
  intros Heq. destruct (Qeq_dec q 0) as [H0|H0].
  - assert (H0' : (q' == 0)%Q) by (by apply Qeq_trans with q; [symmetry|]).
    by rewrite (binary64_zero q H0), (binary64_zero q' H0').
  - assert (H0' : ¬ (q' == 0)%Q)
      by (intros Hc; apply H0; by apply Qeq_trans with q').
    rewrite (binary64_nonzero q H0), (binary64_nonzero q' H0').
    rewrite <- (quantum_comp q q' H0 Heq).
    assert (Hd : (q / quantum q == q' / quantum q)%Q)
      by (by apply Qmult_comp).
    by rewrite (round_half_even_comp _ _ Hd).
Qed.

#[global] Instance binary64_comp : Proper (Qeq ==> Qeq) binary64.
Proof. exact binary64_wd. Qed.

Lemma binary64_opp q : (binary64 (- q) == - binary64 q)%Q.
Proof.
  destruct (Qeq_dec q 0) as [H0|H0].
  - rewrite (binary64_zero q H0), (binary64_zero (- q)); [done|lra].
  - rewrite (binary64_nonzero q H0), (binary64_nonzero (- q)) by lra.
    rewrite (quantum_opp q H0).
    assert (Hd : (- q / quantum q == - (q / quantum q))%Q).
    { pose proof (quantum_pos q). field. lra. }
    rewrite (round_half_even_comp _ _ Hd), round_half_even_opp, inject_Z_opp.
    ring.
Qed.

Lemma binary64_nonneg q : (0 <= q)%Q → (0 <= binary64 q)%Q.
Proof.
  intros Hq. destruct (Qeq_dec q 0) as [H0|H0].
  - rewrite (binary64_zero q H0). lra.
  - rewrite (binary64_nonzero q H0). pose proof (quantum_pos q) as Hu.
    apply Qmult_le_0_compat; [|lra].
    change 0%Q with (inject_Z 0). rewrite <- Zle_Qle.
    apply round_half_even_lower. change (inject_Z 0) with 0%Q.
    apply Qle_shift_div_l; lra.
Qed.

(** A positive number between two powers of two rounds between them. *)
Lemma binary64_pow2_bounds q :
  (0 < q)%Q →
  let e := Z.max (exponent q) (-1022) in
  ((exponent q = e → 2 ^ e <= binary64 q) ∧ binary64 q <= 2 ^ (e + 1))%Q.
Proof.
  intros Hq e. destruct (exponent_spec q Hq) as [Hl Hu].
  assert (H0 : ¬ (q == 0)%Q) by lra.
  assert (Habs : (Qabs q == q)%Q) by (apply Qabs_pos; lra).
  assert (Hqu : quantum q = (2 ^ (e - 52))%Q).
  { unfold quantum. by rewrite (exponent_comp _ _ (Qabs_pos_iff q H0) Habs). }
  rewrite (binary64_nonzero q H0), Hqu.
  pose proof (pow2_pos (e - 52)) as Hu0.
  assert (He : (2 ^ e == inject_Z (2 ^ 52) * 2 ^ (e - 52))%Q).
  { rewrite pow2_Z by done. rewrite <- pow2_add. by replace (52 + (e - 52))
      with e by lia. }
  assert (He1 : (2 ^ (e + 1) == inject_Z (2 ^ 53) * 2 ^ (e - 52))%Q).
  { rewrite pow2_Z by done. rewrite <- pow2_add. by replace (53 + (e - 52))
      with (e + 1) by lia. }
  split.
  - intros Hex. rewrite He. apply Qmult_le_compat_r; [|lra].
    rewrite <- Zle_Qle. apply round_half_even_lower.
    apply Qle_shift_div_l; [done|]. rewrite <- He, <- Hex. done.
  - rewrite He1. apply Qmult_le_compat_r; [|lra].
    rewrite <- Zle_Qle. apply round_half_even_upper.
    apply Qle_shift_div_r; [done|]. rewrite <- He1.
    apply Qle_trans with (2 ^ (exponent q + 1))%Q; [lra|].
    apply pow2_mono. lia.
Qed.

Lemma binary64_mono_pos q q' :
  (0 < q)%Q → (q <= q')%Q → (binary64 q <= binary64 q')%Q.
Proof.
  intros Hq Hle.
  assert (Hq' : (0 < q')%Q) by lra.
  pose proof (exponent_mono q q' Hq Hle) as Hex.
  destruct (binary64_pow2_bounds q Hq) as [_ Hu].
  destruct (binary64_pow2_bounds q' Hq') as [Hl' _].
  set (e := Z.max (exponent q) (-1022)) in *.
  set (e' := Z.max (exponent q') (-1022)) in *.
  destruct (Z.eq_dec e e') as [Heq|Hne].
  - assert (H0 : ¬ (q == 0)%Q) by lra. assert (H0' : ¬ (q' == 0)%Q) by lra.
    rewrite (binary64_nonzero q H0), (binary64_nonzero q' H0').
    assert (Hqu : quantum q' = quantum q).
    { unfold quantum.
      rewrite (exponent_comp (Qabs q) q), (exponent_comp (Qabs q') q');
        [|by apply Qabs_pos_iff|apply Qabs_pos; lra
         |by apply Qabs_pos_iff|apply Qabs_pos; lra].
      fold e e'. by rewrite Heq. }
    rewrite Hqu. pose proof (quantum_pos q) as Hu0.
    apply Qmult_le_compat_r; [|lra]. rewrite <- Zle_Qle.
    apply round_half_even_mono. apply Qmult_le_compat_r; [done|].
    apply Qinv_le_0_compat. lra.
  - assert (e + 1 ≤ e') by lia.
    assert (exponent q' = e') by lia.
    apply Qle_trans with (2 ^ (e + 1))%Q; [done|].
    apply Qle_trans with (2 ^ e')%Q; [by apply pow2_mono|by apply Hl'].
Qed.

Lemma binary64_mono q q' : (q <= q')%Q → (binary64 q <= binary64 q')%Q.
Proof.
  intros Hle.
  destruct (Qlt_le_dec 0 q) as [Hq|Hq]; [by apply binary64_mono_pos|].
  destruct (Qlt_le_dec q' 0) as [Hq'|Hq'].
  - assert (Hm : (binary64 (- q') <= binary64 (- q))%Q)
      by (apply binary64_mono_pos; lra).
    rewrite !binary64_opp in Hm. lra.
  - assert (Hm : (0 <= binary64 (- q))%Q) by (apply binary64_nonneg; lra).
    rewrite binary64_opp in Hm.
    pose proof (binary64_nonneg q' Hq'). lra.
Qed.

(** The numbers [m * 2^x] with [|m| < 2^53] and [x] from -1074 up are
    values of the format. *)
Lemma binary64_fix (m x : Z) :
  Z.abs m < 2 ^ 53 → -1074 ≤ x →
  (binary64 (inject_Z m * 2 ^ x) == inject_Z m * 2 ^ x)%Q.
Proof.
  intros Hm Hx. set (q := (inject_Z m * 2 ^ x)%Q).
  pose proof (pow2_pos x) as Hx0.
  destruct (Z.eq_dec m 0) as [->|Hm0].
  { rewrite (binary64_zero q); subst q; ring. }
  assert (H0 : ¬ (q == 0)%Q).
  { subst q. intros Hc. apply Qmult_integral in Hc as [Hc|Hc]; [|lra].
    apply Hm0. unfold Qeq, inject_Z in Hc. simpl in Hc. lia. }
  rewrite (binary64_nonzero q H0).
  set (e := Z.max (exponent (Qabs q)) (-1022)).
  assert (Hqu : quantum q = (2 ^ (e - 52))%Q) by done. rewrite Hqu.
  assert (Habs : (Qabs q == inject_Z (Z.abs m) * 2 ^ x)%Q).
  { subst q. rewrite Qabs_Qmult, (Qabs_pos (2 ^ x)) by lra.
    unfold inject_Z. by rewrite <- Zabs_Qabs. }
  assert (He : e - 52 ≤ x).
  { destruct (exponent_spec _ (Qabs_pos_iff q H0)) as [Hl _].
    assert (Hl' : (2 ^ exponent (Qabs q) <= inject_Z (Z.abs m) * 2 ^ x)%Q).
    { eapply Qle_trans; [exact Hl|]. apply Qle_lteq. by right. }
    assert (Hlt : (2 ^ exponent (Qabs q) < 2 ^ (53 + x))%Q).
    { apply Qle_lt_trans with (inject_Z (Z.abs m) * 2 ^ x)%Q; [done|].
      rewrite pow2_add, <- (pow2_Z 53) by done.
      apply Qmult_lt_compat_r; [done|]. by rewrite <- Zlt_Qlt. }
    apply pow2_lt_inv in Hlt. lia. }
  assert (Hk : (2 ^ x == inject_Z (2 ^ (x - (e - 52))) * 2 ^ (e - 52))%Q).
  { rewrite pow2_Z by lia. rewrite <- pow2_add.
    by replace (x - (e - 52) + (e - 52)) with x by lia. }
  pose proof (pow2_pos (e - 52)) as Hu0.
  assert (Hd : (q / 2 ^ (e - 52)
               == inject_Z (m * 2 ^ (x - (e - 52))))%Q).
  { subst q. rewrite inject_Z_mult. rewrite Hk at 1. field. lra. }
  rewrite (round_half_even_comp _ _ Hd), round_half_even_Z.
  rewrite inject_Z_mult. unfold q. rewrite Hk at 1. ring.
Qed.

Lemma binary64_Z (n : Z) :
  Z.abs n < 2 ^ 53 → (binary64 (inject_Z n) == inject_Z n)%Q.
Proof.
  intros Hn. pose proof (binary64_fix n 0 Hn) as Hf.
  change (2 ^ 0)%Q with 1%Q in Hf.
  assert (Hq : (inject_Z n * 1 == inject_Z n)%Q) by ring.
  rewrite Hq in Hf. apply Hf. lia.
Qed.

End Binary64Facts.

Section TruncationFacts.

Lemma Qtrunc_floor q : (0 <= q)%Q → Qtrunc q = Qfloor q.
Proof.
  destruct q as [n d]. unfold Qle, Qtrunc, Qfloor. simpl. intros Hn.
  apply Z.quot_div_nonneg; lia.
Qed.

Lemma Qtrunc_opp q : Qtrunc (- q) = - Qtrunc q.
Proof. destruct q as [n d]. unfold Qtrunc. simpl. apply Z.quot_opp_l. lia. Qed.

Lemma Qtrunc_neg q : (q <= 0)%Q → Qtrunc q = - Qfloor (- q).
Proof.
  intros Hq. rewrite <- Qtrunc_floor by lra. rewrite Qtrunc_opp. lia.
Qed.

Lemma Qtrunc_wd q q' : (q == q')%Q → Qtrunc q = Qtrunc q'.
Proof.
  intros Heq. destruct (Qlt_le_dec q 0) as [Hq|Hq].
  - rewrite (Qtrunc_neg q), (Qtrunc_neg q') by lra. f_equal.
    apply Qfloor_comp. by apply Qopp_comp.
  - rewrite (Qtrunc_floor q), (Qtrunc_floor q') by lra.
    by apply Qfloor_comp.
Qed.

Lemma Qtrunc_Z (n : Z) : Qtrunc (inject_Z n) = n.
Proof. unfold Qtrunc. simpl. apply Z.quot_1_r. Qed.

Lemma Qtrunc_mono q q' : (q <= q')%Q → Qtrunc q ≤ Qtrunc q'.
Proof.
  intros Hle. destruct (Qlt_le_dec q 0) as [Hq|Hq];
    destruct (Qlt_le_dec q' 0) as [Hq'|Hq'].
  - rewrite (Qtrunc_neg q), (Qtrunc_neg q') by lra.
    assert (Qfloor (- q') ≤ Qfloor (- q)) by (apply Qfloor_resp_le; lra). lia.
  - rewrite (Qtrunc_neg q), (Qtrunc_floor q') by lra.
    assert (Qfloor 0 ≤ Qfloor (- q)) by (apply Qfloor_resp_le; lra).
    assert (Qfloor 0 ≤ Qfloor q') by (by apply Qfloor_resp_le).
    change (Qfloor 0) with 0 in *. lia.
  - lra.
  - rewrite (Qtrunc_floor q), (Qtrunc_floor q') by lra.
    by apply Qfloor_resp_le.
Qed.

(** [int(x)] of a value between two integers that the format holds is
    between them. *)
Lemma Qtrunc_binary64_bounds (lo hi : Z) q :
  - 2 ^ 53 < lo → hi < 2 ^ 53 →
  (inject_Z lo <= q)%Q → (q <= inject_Z hi)%Q →
  lo ≤ Qtrunc (binary64 q) ≤ hi.
Proof.
  intros Hlo Hhi Hl Hu.
  assert (lo ≤ hi) by (rewrite Zle_Qle; lra).
  apply binary64_mono in Hl, Hu.
  rewrite binary64_Z in Hl, Hu by lia.
  apply Qtrunc_mono in Hl, Hu. rewrite Qtrunc_Z in Hl, Hu. lia.
Qed.

(** Below 2^50 the quotient of two integers and its rounding have the
    same integer part. *)
Lemma Qtrunc_binary64_div_nonneg (a b : Z) :
  0 ≤ a ≤ 2 ^ 50 → 0 < b →
  Qtrunc (binary64 (inject_Z a / inject_Z b)) = a / b.
Proof.
  intros Ha Hb. set (q := (inject_Z a / inject_Z b)%Q).
  assert (HB : (0 < inject_Z b)%Q)
    by (change 0%Q with (inject_Z 0); by rewrite <- Zlt_Qlt).
  assert (Hq0 : (0 <= q)%Q).
  { subst q. apply Qle_shift_div_l; [done|]. rewrite Qmult_0_l.
    change 0%Q with (inject_Z 0). rewrite <- Zle_Qle. lia. }
  pose proof (Z.div_mod a b ltac:(lia)) as Hdm.
  pose proof (Z.mod_pos_bound a b Hb) as Hmod.
  set (k := a / b) in *.
  assert (Hk0 : 0 ≤ k) by (apply Z.div_pos; lia).
  assert (Hkq : (inject_Z k <= q)%Q).
  { subst q. apply Qle_shift_div_l; [done|].
    rewrite <- inject_Z_mult, <- Zle_Qle. lia. }
  rewrite Qtrunc_floor by (by apply binary64_nonneg).
  assert (Hlow : (inject_Z k <= binary64 q)%Q).
  { rewrite <- (binary64_Z k) by nia. by apply binary64_mono. }
  assert (Hup : (binary64 q < inject_Z (k + 1))%Q); [|].
  2:{ pose proof (Qfloor_le (binary64 q)) as Hf1.
      pose proof (Qlt_floor (binary64 q)) as Hf2.
      assert (Qfloor (binary64 q) < k + 1) by (rewrite Zlt_Qlt; lra).
      assert (k < Qfloor (binary64 q) + 1) by (rewrite Zlt_Qlt; lra).
      lia. }
  destruct (Z.le_gt_cases (2 * a) b) as [Hhalf|Hhalf].
  - (* the quotient is at most 1/2 *)
    assert (k = 0) by (subst k; apply Z.div_small; lia). subst k.
    assert (Hq : (q <= inject_Z 1 * 2 ^ (-1))%Q).
    { subst q. apply Qle_shift_div_r; [done|].
      change (inject_Z 1 * 2 ^ (-1))%Q with (1 # 2)%Q.
      assert (Hh : (inject_Z 2 * inject_Z a <= inject_Z b)%Q)
        by (by rewrite <- inject_Z_mult, <- Zle_Qle).
      change (inject_Z 2) with 2%Q in Hh. lra. }
    apply binary64_mono in Hq. rewrite binary64_fix in Hq by done.
    change (inject_Z 1 * 2 ^ (-1))%Q with (1 # 2)%Q in Hq.
    replace (a / b + 1) with 1 by lia. change (inject_Z 1) with 1%Q. lra.
  - (* the quotient is at most (k + 1) - 2^-s, where b <= 2^s < 2b *)
    set (s := Z.log2_up b).
    assert (Hs0 : 0 ≤ s) by apply Z.log2_up_nonneg.
    assert (Hs : b ≤ 2 ^ s ∧ 2 ^ s < 2 * b).
    { destruct (Z.eq_dec b 1) as [->|]; [by compute|].
      destruct (Z.log2_up_spec b ltac:(lia)) as [H1 H2]. fold s in H1, H2.
      split; [done|].
      replace (2 ^ s) with (2 * 2 ^ Z.pred s); [lia|].
      rewrite <- Z.pow_succ_r by (pose proof (Z.log2_up_pos b); lia).
      f_equal. lia. }
    set (m := (k + 1) * 2 ^ s - 1).
    assert (Hm : 0 ≤ m < 2 ^ 53) by (subst m; nia).
    assert (Hs' : s ≤ 53).
    { apply Z.log2_up_le_pow2; [lia|]. lia. }
    pose proof (pow2_pos (- s)) as Hp.
    assert (Hinv : (inject_Z (2 ^ s) * 2 ^ (- s) == 1)%Q).
    { rewrite pow2_Z by done. rewrite <- pow2_add.
      by replace (s + - s) with 0 by lia. }
    assert (Hr : (inject_Z m * 2 ^ (- s) == inject_Z (k + 1) - 2 ^ (- s))%Q).
    { subst m. unfold Z.sub. rewrite inject_Z_plus, inject_Z_mult, inject_Z_opp.
      change (inject_Z 1) with 1%Q.
      transitivity (inject_Z (k + 1) * (inject_Z (2 ^ s) * 2 ^ (- s))
                    - 2 ^ (- s))%Q; [ring|]. rewrite Hinv. ring. }
    assert (Hq : (q <= inject_Z m * 2 ^ (- s))%Q).
    { rewrite Hr. subst q. apply Qle_shift_div_r; [done|].
      assert (Hbs : (inject_Z b * 2 ^ (- s) <= 1)%Q).
      { rewrite <- Hinv. apply Qmult_le_compat_r; [|lra].
        rewrite <- Zle_Qle. lia. }
      assert (Hab : (inject_Z a <= inject_Z (k + 1) * inject_Z b - 1)%Q).
      { change 1%Q with (inject_Z 1). unfold Qminus.
        rewrite <- inject_Z_mult, <- inject_Z_opp, <- inject_Z_plus,
          <- Zle_Qle. lia. }
      nra. }
    apply binary64_mono in Hq. rewrite binary64_fix in Hq by lia.
    rewrite Hr in Hq. lra.
Qed.

Lemma Qtrunc_binary64_div (a b : Z) :
  Z.abs a ≤ 2 ^ 50 → 0 < b →
  Qtrunc (binary64 (inject_Z a / inject_Z b)) = a ÷ b.
Proof.
  intros Ha Hb. destruct (Z.le_gt_cases 0 a) as [Hpos|Hneg].
  - rewrite Qtrunc_binary64_div_nonneg by lia.
    symmetry. apply Z.quot_div_nonneg; lia.
  - assert (Heq : (inject_Z a / inject_Z b
                   == - (inject_Z (- a) / inject_Z b))%Q).
    { rewrite inject_Z_opp. field. intros Hc.
      unfold Qeq, inject_Z in Hc. simpl in Hc. lia. }
    rewrite (Qtrunc_wd _ _ (binary64_wd _ _ Heq)).
    rewrite (Qtrunc_wd _ _ (binary64_opp _)), Qtrunc_opp.
    rewrite Qtrunc_binary64_div_nonneg by lia.
    rewrite <- (Z.quot_div_nonneg (- a) b) by lia.
    rewrite Z.quot_opp_l by lia. lia.
Qed.

End TruncationFacts.


Section StripFacts.
Context (p : char → bool).

Lemma lstrip_by_idemp s : lstrip_by p (lstrip_by p s) = lstrip_by p s.
Proof.
  induction s as [|c r IH]; simpl; [done|].
  destruct (p c) eqn:Hc; [done|]. simpl. by rewrite Hc.
Qed.

Lemma lstrip_by_snoc s c :
  p c = false → lstrip_by p (s ++ [c]) = lstrip_by p s ++ [c].
Proof.
  intros Hc. induction s as [|d r IH]; simpl; [by rewrite Hc|].
  by destruct (p d).
Qed.

Lemma lstrip_by_head s :
  lstrip_by p s = [] ∨ ∃ c r, lstrip_by p s = c :: r ∧ p c = false.
Proof.
  induction s as [|c r IH]; simpl; [by left|].
  destruct (p c) eqn:Hc; [done|]. right. eauto.
Qed.

Lemma rstrip_by_cons c r :
  p c = false → rstrip_by p (c :: r) = c :: rstrip_by p r.
Proof.
  intros Hc. unfold rstrip_by. simpl.
  by rewrite lstrip_by_snoc, rev_app_distr.
Qed.

Lemma rstrip_by_idemp s : rstrip_by p (rstrip_by p s) = rstrip_by p s.
Proof. unfold rstrip_by. by rewrite rev_involutive, lstrip_by_idemp. Qed.

End StripFacts.

Lemma strip_idemp s : strip (strip s) = strip s.
Proof.
  unfold strip.
  destruct (lstrip_by_head isspace s) as [->|(c & r & -> & Hc)]; [done|].
  rewrite (rstrip_by_cons _ _ _ Hc). simpl. rewrite Hc.
  by rewrite <- (rstrip_by_cons _ _ _ Hc), rstrip_by_idemp.
Qed.

Section NormalizerFacts.
Context `{Unicode}.

Lemma field_get p d k :
  field p d k = true → p VNone = true → p (get d k) = true.
Proof.
  unfold field, get. destruct (d !! k); simpl; auto.
Qed.

Lemma int_or_null_or a b :
  int_or_null a = true → int_or_null b = true → int_or_null (py_or a b) = true.
Proof. unfold py_or. destruct (truthy a); auto. Qed.

Lemma py_int_or_zero v :
  int_or_null v = true → ∃ z, py_int (py_or v (VInt 0)) = Ok z.
Proof.
  destruct v; try discriminate; intros _; unfold py_or; simpl; eauto.
  destruct (negb (z =? 0)); simpl; eauto.
Qed.

Lemma direct_coord_ok obj k :
  field int_or_null obj k = true → ∃ z, direct_coord obj k = Ok z.
Proof.
  intros Hk. apply py_int_or_zero. by apply field_get.
Qed.

Lemma nested_coord_ok obj bbox long short :
  field int_or_null obj long = true →
  field int_or_null bbox long = true →
  field int_or_null bbox short = true →
  ∃ z, nested_coord obj bbox long short = Ok z.
Proof.
  intros Ho Hl Hs. apply py_int_or_zero.
  apply int_or_null_or; [apply int_or_null_or|]; try by apply field_get.
  unfold get_or, field in *. destruct (obj !! long); auto.
Qed.

Lemma bbox_of_ok obj :
  field box_or_null obj "bbox" = true →
  ∃ bbox, bbox_of obj = Ok bbox ∧
    Forall (λ k, field int_or_null bbox k = true)
           ["left"; "top"; "width"; "height"; "x"; "y"; "w"; "h"]%string.
Proof.
  unfold field, bbox_of, get, py_or.
  assert (He : Forall (λ k, field int_or_null (∅ : gmap string value) k = true)
            ["left"; "top"; "width"; "height"; "x"; "y"; "w"; "h"]%string).
  { apply Forall_forall. intros k _. unfold field. by rewrite lookup_empty. }
  destruct (obj !! "bbox") as [v|]; [|simpl; eauto].
  destruct v; try discriminate; try (simpl; by eauto).
  cbn [default box_or_null id]. intros Hm.
  destruct (truthy (VDict m)); [|by eauto].
  exists m. split; [done|]. apply Forall_forall. intros k Hk.
  rewrite forallb_forall in Hm. apply Hm. by apply list_elem_of_In.
Qed.

Lemma str_or_null_or a b :
  str_or_null a = true → str_or_null b = true → str_or_null (py_or a b) = true.
Proof. unfold py_or. destruct (truthy a); auto. Qed.

Lemma text_ok obj :
  field str_or_null obj "text" = true →
  field str_or_null obj "ocr_text" = true →
  ∃ s, py_strip (py_or (py_or (get obj "text") (get obj "ocr_text"))
                       (VStr [])) = Ok s.
Proof.
  intros Ht Ho.
  apply field_get in Ht; [|done]. apply field_get in Ho; [|done].
  pose proof (str_or_null_or _ _ Ht Ho) as Hv.
  destruct (py_or (get obj "text") (get obj "ocr_text")) as [| | | |s| |];
    try discriminate; unfold py_or.
  - simpl. eauto.
  - destruct (truthy (VStr s)); simpl; eauto.
Qed.

Lemma page_ok obj :
  field is_int obj "page" = true →
  ∃ z, py_int (get_or obj "page" (VInt 1)) = Ok z.
Proof.
  unfold field, get_or. destruct (obj !! "page") as [v|]; simpl; eauto.
  destruct v; try discriminate; simpl; eauto.
Qed.

Ltac in_list := by repeat constructor.

Ltac run_ok lem :=
  let z := fresh "z" in
  let Hz := fresh "Hz" in
  destruct lem as [z Hz]; rewrite Hz;
  cbn [mbind result_bind mret result_ret].

(** C1 (amended): normalization returns a Word Token for every record whose
    present fields have the expected types, whatever fields are missing and
    whatever the confidence holds. *)
Theorem normalize_row_total_on_well_typed (obj : gmap string value) :
  well_typed obj = true → ∃ w, normalize_row obj = Ok w.
Proof.
  unfold well_typed. rewrite !andb_true_iff, forallb_forall.
  intros [[[[Hp Ht] Ho] Hi] Hb].
  assert (Hf : ∀ k, k ∈ ["left"; "top"; "width"; "height"; "block_num";
                         "block_id"; "par_num"; "line_num"]%string →
                    field int_or_null obj k = true).
  { intros k Hk. apply Hi. by apply list_elem_of_In. }
  clear Hi. unfold normalize_row.
  assert (Hid : ∃ z, py_int (py_or (py_or (get obj "block_num")
                                          (get obj "block_id")) (VInt 0)) = Ok z).
  { apply py_int_or_zero, int_or_null_or; apply field_get; try done;
      apply Hf; in_list. }
  assert (Hpar : ∃ z, py_int (py_or (get obj "par_num") (VInt 0)) = Ok z).
  { apply py_int_or_zero, field_get; [apply Hf; in_list|done]. }
  assert (Hline : ∃ z, py_int (py_or (get obj "line_num") (VInt 0)) = Ok z).
  { apply py_int_or_zero, field_get; [apply Hf; in_list|done]. }
  run_ok (page_ok obj Hp). run_ok (text_ok obj Ht Ho).
  destruct (contains obj "left" && contains obj "top" && contains obj "width"
            && contains obj "height").
  - run_ok (direct_coord_ok obj "left" (Hf "left" ltac:(in_list))).
    run_ok (direct_coord_ok obj "top" (Hf "top" ltac:(in_list))).
    run_ok (direct_coord_ok obj "width" (Hf "width" ltac:(in_list))).
    run_ok (direct_coord_ok obj "height" (Hf "height" ltac:(in_list))).
    run_ok Hid. run_ok Hpar. run_ok Hline. eauto.
  - destruct (bbox_of_ok obj Hb) as (bbox & -> & Hbox).
    cbn [mbind result_bind mret result_ret].
    rewrite Forall_forall in Hbox.
    run_ok (nested_coord_ok obj bbox "left" "x" (Hf "left" ltac:(in_list))
              (Hbox "left" ltac:(in_list)) (Hbox "x" ltac:(in_list))).
    run_ok (nested_coord_ok obj bbox "top" "y" (Hf "top" ltac:(in_list))
              (Hbox "top" ltac:(in_list)) (Hbox "y" ltac:(in_list))).
    run_ok (nested_coord_ok obj bbox "width" "w" (Hf "width" ltac:(in_list))
              (Hbox "width" ltac:(in_list)) (Hbox "w" ltac:(in_list))).
    run_ok (nested_coord_ok obj bbox "height" "h" (Hf "height" ltac:(in_list))
              (Hbox "height" ltac:(in_list)) (Hbox "h" ltac:(in_list))).
    run_ok Hid. run_ok Hpar. run_ok Hline. eauto.
Qed.

Lemma py_int_or_zero_int z : py_int (py_or (VInt z) (VInt 0)) = Ok z.
Proof.
  unfold py_or. simpl. destruct (Z.eqb_spec z 0) as [->|]; done.
Qed.

Lemma bind_Ok {A B} (r : result A) (f : A → result B) b :
  r ≫= f = Ok b → ∃ a, r = Ok a ∧ f a = Ok b.
Proof. destruct r as [a|e]; [eauto|discriminate]. Qed.

Ltac inv_bind H :=
  let a := fresh "a" in
  let Ha := fresh "Ha" in
  apply bind_Ok in H as (a & Ha & H).

Lemma normalize_row_text obj w :
  normalize_row obj = Ok w → strip (w_text w) = w_text w.
Proof.
  unfold normalize_row. intros Hn.
  inv_bind Hn. inv_bind Hn. inv_bind Hn.
  destruct a1 as [[[x y] wd] ht].
  inv_bind Hn. inv_bind Hn. inv_bind Hn.
  injection Hn as <-. simpl.
  destruct (py_or (py_or (get obj "text") (get obj "ocr_text")) (VStr []));
    try discriminate.
  injection Ha0 as <-. apply strip_idemp.
Qed.

Lemma normalize_row_word_obj w :
  strip (w_text w) = w_text w → normalize_row (word_obj w) = Ok w.
Proof.
  intros Ht. destruct w as [pg tx cf x y wd ht bn pn lnum]. simpl in Ht.
  unfold normalize_row, direct_coord.
  change (get_or (word_obj _) "page" (VInt 1)) with (VInt pg).
  change (get (word_obj _) "text") with (VStr tx).
  change (get (word_obj _) "ocr_text") with VNone.
  change (get (word_obj _) "conf") with (from_option VInt VNone cf).
  change (contains (word_obj _) "left" && contains (word_obj _) "top"
          && contains (word_obj _) "width" && contains (word_obj _) "height")
    with true.
  change (get (word_obj _) "left") with (VInt x).
  change (get (word_obj _) "top") with (VInt y).
  change (get (word_obj _) "width") with (VInt wd).
  change (get (word_obj _) "height") with (VInt ht).
  change (get (word_obj _) "block_num") with (VInt bn).
  change (get (word_obj _) "block_id") with VNone.
  change (get (word_obj _) "par_num") with (VInt pn).
  change (get (word_obj _) "line_num") with (VInt lnum).
  cbn [py_int mbind result_bind mret result_ret].
  assert (py_strip (py_or (py_or (VStr tx) VNone) (VStr [])) = Ok tx) as ->.
  { destruct tx as [|c tx]; [done|]. unfold py_or.
    assert (truthy (VStr (c :: tx)) = true) as Hc.
    { reflexivity. }
    rewrite Hc, Hc. unfold py_strip. by rewrite Ht. }
  assert (conf_of (from_option VInt VNone cf) = cf) as ->.
  { by destruct cf. }
  assert (py_or (py_or (VInt bn) VNone) (VInt 0) = py_or (VInt bn) (VInt 0)) as ->.
  { unfold py_or. cbn [truthy]. destruct (negb (bn =? 0)) eqn:Hb; [|done].
    cbn [truthy]. by rewrite Hb. }
  cbn [mbind result_bind mret result_ret].
  by rewrite !py_int_or_zero_int.
Qed.

(** C8: re-normalizing a Word Token that the normalizer produced returns
    the same token, field by field. *)
Theorem normalize_row_idempotent (obj : gmap string value) (w : word) :
  normalize_row obj = Ok w → normalize_row (word_obj w) = Ok w.
Proof.
  intros Hn. apply normalize_row_word_obj. by eapply normalize_row_text.
Qed.

Lemma py_or_true a b : truthy a = true → py_or a b = a.
Proof. unfold py_or. by intros ->. Qed.

Lemma py_or_false a b : truthy a = false → py_or a b = b.
Proof. unfold py_or. by intros ->. Qed.

Ltac case_truthy :=
  repeat first
    [ progress cbn [default from_option id first_truthy]
    | progress change (truthy VNone) with false
    | progress change (truthy (VInt 0)) with false
    | progress cbv iota
    | match goal with
      | E : truthy ?v = _ |- context [truthy ?v] => rewrite E
      | |- context [truthy ?v] => is_var v; destruct (truthy v) eqn:?
      end ].

Lemma or_chain_first_truthy (obj bbox : gmap string value) long short :
  py_or (py_or (py_or (get bbox long) (get bbox short))
               (get_or obj long (VInt 0))) (VInt 0)
  = first_truthy [bbox !! long; bbox !! short; obj !! long].
Proof.
  unfold get, get_or, py_or.
  destruct (bbox !! long) as [a|], (bbox !! short) as [b|],
    (obj !! long) as [c|]; case_truthy; reflexivity.
Qed.

Lemma direct_first_truthy (obj : gmap string value) k :
  py_or (get obj k) (VInt 0) = first_truthy [obj !! k].
Proof.
  unfold get, py_or. destruct (obj !! k) as [a|]; case_truthy; reflexivity.
Qed.

Lemma bbox_of_sub_object obj bbox :
  bbox_of obj = Ok bbox → bbox = sub_object obj.
Proof.
  unfold bbox_of, sub_object, get, py_or.
  destruct (obj !! "bbox") as [v|]; simpl; [|by intros [= <-]].
  destruct v; simpl;
    repeat match goal with
           | |- context [if ?b then _ else _] => destruct b eqn:?
           end; try (by intros [= <-]); try discriminate.
  intros [= <-]. symmetry.
  match goal with
  | E : negb (bool_decide _) = false |- _ =>
      apply negb_false_iff, bool_decide_eq_true in E; exact E
  end.
Qed.

(** C2 (amended): with the four geometry fields exposed directly, each
    coordinate is the integer of its field, null and zero giving 0;
    otherwise each of the four coordinates is the integer of the first
    value that is neither null nor zero among the nested box's field of
    that name, the nested box's field of the short name and the top-level
    field of that name, and 0 when there is none. *)
Theorem bounding_box_resolution (obj : gmap string value) (w : word) :
  normalize_row obj = Ok w →
  if exposes_box obj then
    py_int (first_truthy [obj !! "left"]) = Ok (w_left w)
    ∧ py_int (first_truthy [obj !! "top"]) = Ok (w_top w)
    ∧ py_int (first_truthy [obj !! "width"]) = Ok (w_width w)
    ∧ py_int (first_truthy [obj !! "height"]) = Ok (w_height w)
  else
    let bbox := sub_object obj in
    py_int (first_truthy [bbox !! "left"; bbox !! "x"; obj !! "left"])
      = Ok (w_left w)
    ∧ py_int (first_truthy [bbox !! "top"; bbox !! "y"; obj !! "top"])
      = Ok (w_top w)
    ∧ py_int (first_truthy [bbox !! "width"; bbox !! "w"; obj !! "width"])
      = Ok (w_width w)
    ∧ py_int (first_truthy [bbox !! "height"; bbox !! "h"; obj !! "height"])
      = Ok (w_height w).
Proof.
  unfold normalize_row, exposes_box. intros Hn.
  inv_bind Hn. inv_bind Hn. inv_bind Hn.
  destruct a1 as [[[x y] wd] ht].
  inv_bind Hn. inv_bind Hn. inv_bind Hn.
  injection Hn as <-. cbn [w_left w_top w_width w_height].
  destruct (contains obj "left" && contains obj "top" && contains obj "width"
            && contains obj "height").
  - unfold direct_coord in Ha1. rewrite !direct_first_truthy in Ha1.
    inv_bind Ha1. inv_bind Ha1. inv_bind Ha1. inv_bind Ha1.
    injection Ha1 as <- <- <- <-. done.
  - inv_bind Ha1. apply bbox_of_sub_object in Ha5 as ->.
    unfold nested_coord in Ha1. rewrite !or_chain_first_truthy in Ha1.
    inv_bind Ha1. inv_bind Ha1. inv_bind Ha1. inv_bind Ha1.
    injection Ha1 as <- <- <- <-. done.
Qed.

End NormalizerFacts.

Section ClassifierFacts.
Context `{Unicode}.

Lemma count_if_nonneg p text : 0 ≤ count_if p text.
Proof. induction text as [|c r IH]; simpl; [done|]. destruct (p c); lia. Qed.

Lemma count_if_le p q text :
  (∀ c, p c = true → q c = true) → count_if p text ≤ count_if q text.
Proof.
  intros Hpq. induction text as [|c r IH]; simpl; [done|].
  destruct (p c) eqn:Hp; [rewrite (Hpq _ Hp); lia|].
  destruct (q c); lia.
Qed.

Lemma count_if_ext p q text :
  forallb (λ c, eqb (p c) (q c)) text = true →
  count_if p text = count_if q text.
Proof.
  induction text as [|c r IH]; simpl; [done|].
  rewrite andb_true_iff. intros [Hc Hr]. apply eqb_prop in Hc.
  by rewrite Hc, IH.
Qed.

Lemma Qdiv_inject a b : 0 < b → (inject_Z a / inject_Z b == a # Z.to_pos b)%Q.
Proof.
  intros Hb. destruct b as [|b|b]; try lia.
  unfold Qdiv, Qinv, Qmult, Qeq, inject_Z. simpl. lia.
Qed.

Lemma Qltb_lt a b : Qltb a b = true ↔ (a < b)%Q.
Proof.
  unfold Qltb. rewrite negb_true_iff, <- not_true_iff_false, Qle_bool_iff.
  split; [apply Qnot_le_lt|apply Qlt_not_le].
Qed.

Lemma Qltb_ge a b : Qltb a b = false ↔ (b <= a)%Q.
Proof. unfold Qltb. by rewrite negb_false_iff, Qle_bool_iff. Qed.

(** C3 (amended): the script ratio is the number of code points of the
    text in the Devanagari block, alphabetic or not, divided by the number
    of its alphabetic characters, and 0 when it has no alphabetic
    character.  It is at least the fraction of the alphabetic characters
    that lie in the block, and equal to it when every code point of the
    text in the block is alphabetic. *)
Theorem script_ratio_counts (text : str) :
  let dev := count_if is_devanagari_char text in
  let total := count_if isalpha text in
  (script_ratio text == if 0 <? total then dev # Z.to_pos total else 0)%Q
  ∧ (alphabetic_fraction text <= script_ratio text)%Q
  ∧ (forallb (λ c, implb (is_devanagari_char c) (isalpha c)) text = true →
     script_ratio text == alphabetic_fraction text)%Q.
Proof.
  intros dev total.
  assert (Hr : script_ratio text =
               if 0 <? total then (inject_Z dev / inject_Z total)%Q else 0%Q).
  { unfold script_ratio. case_bool_decide as Ht; [|done]. by subst. }
  split; [|split].
  - rewrite Hr. destruct (Z.ltb_spec 0 total); [|done]. by apply Qdiv_inject.
  - rewrite Hr. unfold alphabetic_fraction. fold total.
    destruct (Z.ltb_spec 0 total) as [Hpos|]; [|apply Qle_refl].
    rewrite !Qdiv_inject by done. unfold Qle. simpl.
    apply Z.mul_le_mono_nonneg_r; [lia|].
    apply count_if_le. intros c. rewrite andb_true_iff. tauto.
  - intros Hall. rewrite Hr. unfold alphabetic_fraction. fold total.
    destruct (0 <? total); [|done].
    assert (count_if (λ c, isalpha c && is_devanagari_char c) text = dev)
      as ->; [|done].
    apply count_if_ext. rewrite forallb_forall in *. intros c Hc.
    specialize (Hall c Hc). destruct (isalpha c), (is_devanagari_char c); done.
Qed.

Lemma script_ratio_unfold text :
  script_ratio text
  = if 0 <? count_if isalpha text
    then (inject_Z (count_if is_devanagari_char text)
          / inject_Z (count_if isalpha text))%Q
    else 0%Q.
Proof. unfold script_ratio. case_bool_decide as Ht; [|done]. by subst. Qed.

(** The rounding of the ratio and of the thresholds. *)

Lemma binary64_three_tenths :
  (binary64 (3 # 10) == 5404319552844595 # 18014398509481984)%Q.
Proof. vm_compute. reflexivity. Qed.

Lemma binary64_five_hundredths :
  (binary64 (5 # 100) == 3602879701896397 # 72057594037927936)%Q.
Proof. vm_compute. reflexivity. Qed.

Lemma Qle_div_inject (n : Z) (d : positive) (a b : Z) :
  0 < b → n * b ≤ a * Z.pos d → (n # d <= inject_Z a / inject_Z b)%Q.
Proof.
  intros Hb Hle. rewrite Qdiv_inject by done.
  unfold Qle. simpl. rewrite Z2Pos.id by done. lia.
Qed.

Lemma Qdiv_inject_le (n : Z) (d : positive) (a b : Z) :
  0 < b → a * Z.pos d ≤ n * b → (inject_Z a / inject_Z b <= n # d)%Q.
Proof.
  intros Hb Hle. rewrite Qdiv_inject by done.
  unfold Qle. simpl. rewrite Z2Pos.id by done. lia.
Qed.

Lemma ratio_above_rounding (dev total : Z) :
  0 < total < 2 ^ 50 →
  Qltb (binary64 (3 # 10)) (binary64 (inject_Z dev / inject_Z total))
  = Qltb (3 # 10) (inject_Z dev / inject_Z total).
Proof.
  intros Ht. set (r := (inject_Z dev / inject_Z total)%Q).
  pose proof binary64_three_tenths as Hc.
  destruct (Qlt_le_dec (3 # 10) r) as [Hr|Hr].
  - assert (Hz : 3 * total < 10 * dev).
    { subst r. rewrite Qdiv_inject in Hr by lia. unfold Qlt in Hr.
      simpl in Hr. rewrite Z2Pos.id in Hr by lia. lia. }
    assert (Hn : (5404319552844596 # 18014398509481984 <= r)%Q).
    { apply Qle_div_inject; lia. }
    apply binary64_mono in Hn.
    assert (Hf : (binary64 (5404319552844596 # 18014398509481984)
                  == 5404319552844596 # 18014398509481984)%Q)
      by (vm_compute; reflexivity).
    rewrite Hf in Hn.
    transitivity true; [|symmetry]; apply Qltb_lt; [|done].
    rewrite Hc. eapply Qlt_le_trans; [|exact Hn]. reflexivity.
  - pose proof (binary64_mono _ _ Hr) as Hm.
    transitivity false; [|symmetry]; by apply Qltb_ge.
Qed.

Lemma ratio_below_rounding (dev total : Z) :
  0 < total < 2 ^ 50 →
  Qltb (binary64 (inject_Z dev / inject_Z total)) (binary64 (5 # 100))
  = Qltb (inject_Z dev / inject_Z total) (5 # 100).
Proof.
  intros Ht. set (r := (inject_Z dev / inject_Z total)%Q).
  pose proof binary64_five_hundredths as Hc.
  destruct (Qlt_le_dec r (5 # 100)) as [Hr|Hr].
  - assert (Hz : 100 * dev < 5 * total).
    { subst r. rewrite Qdiv_inject in Hr by lia. unfold Qlt in Hr.
      simpl in Hr. rewrite Z2Pos.id in Hr by lia. lia. }
    assert (Hn : (r <= 3602879701896396 # 72057594037927936)%Q).
    { apply Qdiv_inject_le; lia. }
    apply binary64_mono in Hn.
    assert (Hf : (binary64 (3602879701896396 # 72057594037927936)
                  == 3602879701896396 # 72057594037927936)%Q)
      by (vm_compute; reflexivity).
    rewrite Hf in Hn.
    transitivity true; [|symmetry]; apply Qltb_lt; [|done].
    rewrite Hc. eapply Qle_lt_trans; [exact Hn|]. reflexivity.
  - pose proof (binary64_mono _ _ Hr) as Hm.
    transitivity false; [|symmetry]; by apply Qltb_ge.
Qed.

(** On a text of fewer than 2^50 alphabetic characters the classifier
    answers the same on the rounded ratio and literals as on the exact
    ones. *)
Lemma guess_lang_binary64_agrees (text : str) :
  count_if isalpha text < 2 ^ 50 → guess_lang_binary64 text = guess_lang text.
Proof.
  intros Hlen. unfold guess_lang_binary64, guess_lang.
  rewrite script_ratio_unfold.
  destruct (Z.ltb_spec 0 (count_if isalpha text)) as [Hpos|Hzero].
  - by rewrite ratio_above_rounding, ratio_below_rounding by lia.
  - reflexivity.
Qed.

(** C4 (amended): the classifier answers [hindi] exactly when the ratio
    it computes, the number of code points of the text in the Devanagari
    block divided by the number of its alphabetic characters, is above
    0.3, [english] exactly when this ratio is below 0.05 and [mixed]
    otherwise; a ratio of exactly 0.3 or exactly 0.05 gives [mixed], and
    the empty string gives [english].  On a text of fewer than 2^50
    alphabetic characters the rounding of the division and of the two
    literals changes no answer. *)
Theorem guess_lang_thresholds (text : str) :
  let dev := count_if is_devanagari_char text in
  let total := count_if isalpha text in
  let r := (if 0 <? total then inject_Z dev / inject_Z total else 0)%Q in
  script_ratio text = r
  ∧ (guess_lang text = hindi ↔ (3 # 10 < r)%Q)
  ∧ (guess_lang text = english ↔ (r < 5 # 100)%Q)
  ∧ (guess_lang text = mixed ↔ (5 # 100 <= r)%Q ∧ (r <= 3 # 10)%Q)
  ∧ ((r == 3 # 10)%Q → guess_lang text = mixed)
  ∧ ((r == 5 # 100)%Q → guess_lang text = mixed)
  ∧ guess_lang [] = english
  ∧ (total < 2 ^ 50 → guess_lang_binary64 text = guess_lang text).
Proof.
  intros dev total r.
  assert (Hr : script_ratio text = r) by apply script_ratio_unfold.
  split; [done|].
  assert (Hmain :
    (guess_lang text = hindi ↔ (3 # 10 < r)%Q)
    ∧ (guess_lang text = english ↔ (r < 5 # 100)%Q)
    ∧ (guess_lang text = mixed ↔ (5 # 100 <= r)%Q ∧ (r <= 3 # 10)%Q)
    ∧ ((r == 3 # 10)%Q → guess_lang text = mixed)
    ∧ ((r == 5 # 100)%Q → guess_lang text = mixed)
    ∧ guess_lang [] = english);
    [|destruct Hmain as (H1 & H2 & H3 & H4 & H5 & H6);
      do 6 (split; [assumption|]); apply guess_lang_binary64_agrees].
  unfold guess_lang. rewrite Hr. clearbody r. clear Hr.
  assert (H53 : (5 # 100 < 3 # 10)%Q) by reflexivity.
  destruct (Qltb (3 # 10) r) eqn:Hh; [apply Qltb_lt in Hh|apply Qltb_ge in Hh];
    (destruct (Qltb r (5 # 100)) eqn:He;
     [apply Qltb_lt in He|apply Qltb_ge in He]).
  all: repeat split; try done; try (intros; exfalso).
  all: repeat match goal with
              | E : (_ == _)%Q |- _ => rewrite E in *
              | E : _ ∧ _ |- _ => destruct E
              end.
  all: try (eapply Qlt_irrefl; eauto using Qlt_trans, Qle_lt_trans, Qlt_le_trans; fail).
  all: try (eapply (Qlt_irrefl r);
            eauto using Qlt_trans, Qle_lt_trans, Qlt_le_trans; fail).
  all: try (eapply (Qlt_irrefl (3 # 10));
            eauto using Qlt_trans, Qle_lt_trans, Qlt_le_trans; fail).
  all: try (eapply (Qlt_irrefl (5 # 100));
            eauto using Qlt_trans, Qle_lt_trans, Qlt_le_trans; fail).
Qed.

End ClassifierFacts.

Section LineFacts.

Lemma elem_of_map {A B} (f : A → B) (l : list A) y :
  y ∈ map f l ↔ ∃ x, y = f x ∧ x ∈ l.
Proof.
  rewrite list_elem_of_In, in_map_iff.
  split; intros (x & Hx & Hl); exists x; by rewrite ?list_elem_of_In in *.
Qed.

Lemma insert_sorted_elem_of {A K} (key : A → K) le (l : list A) x y :
  y ∈ insert_sorted key le x l ↔ y = x ∨ y ∈ l.
Proof.
  induction l as [|z r IH]; simpl.
  - by rewrite list_elem_of_singleton, elem_of_nil; tauto.
  - destruct (le (key x) (key z)); rewrite !elem_of_cons, ?IH; tauto.
Qed.

Lemma sorted_elem_of {A K} (key : A → K) le (l : list A) y :
  y ∈ sorted key le l ↔ y ∈ l.
Proof.
  unfold sorted. induction l as [|x r IH]; simpl; [done|].
  by rewrite insert_sorted_elem_of, elem_of_cons, IH.
Qed.

Lemma len_pos {A} (l : list A) : l ≠ [] → 0 < len l.
Proof. unfold len. destruct l; [done|]. simpl. lia. Qed.

(** While the sum is no more than 2^50 in magnitude, the rounding of the
    quotient does not show in its integer part. *)
Lemma int_quotient_quot (l : list Z) :
  l ≠ [] → Z.abs (sum_Z l) ≤ 2 ^ 50 → int_quotient l = sum_Z l ÷ len l.
Proof.
  intros Hne Hs. unfold int_quotient.
  apply Qtrunc_binary64_div; [done|by apply len_pos].
Qed.

Lemma int_mean_truncated confs :
  Z.abs (sum_Z confs) ≤ 2 ^ 50 → int_mean confs = truncated_mean confs.
Proof.
  intros Hs. destruct confs as [|c r]; [done|].
  unfold int_mean, truncated_mean. f_equal. by apply int_quotient_quot.
Qed.

Lemma truncated_mean_floor confs :
  0 ≤ sum_Z confs → truncated_mean confs = floor_mean confs.
Proof.
  intros Hs. destruct confs as [|c r]; [done|].
  unfold truncated_mean, floor_mean. f_equal.
  apply Z.quot_div_nonneg; [done|]. unfold len. simpl. lia.
Qed.

(** Every line of either strategy is built by [make_line] from the words
    it holds. *)
Lemma group_words_to_lines_make_line page_words y_tol ln :
  ln ∈ group_words_to_lines page_words y_tol → ln = make_line (l_words ln).
Proof.
  unfold group_words_to_lines, lines_by_metadata, lines_by_clustering.
  destruct (has_line_num page_words).
  - rewrite list_elem_of_omap. intros (k & _ & Hk).
    destruct (item k (by_line page_words)); [|done]. by injection Hk as <-.
  - rewrite elem_of_map. by intros (g & -> & _).
Qed.

(** C5 (amended): on both strategies the confidence of a line is absent
    when none of its words has a confidence; otherwise it is the integer
    part of the float nearest to the mean of the confidences of its words
    that have one.  While the sum of these confidences is no more than
    2^50 in magnitude this is the mean rounded toward zero, which is the
    mean rounded down whenever the sum is not negative. *)
Theorem line_confidence_truncated_mean (page_words : list word) (y_tol : Q) :
  Forall (λ ln,
            let confs := omap w_conf (l_words ln) in
            (confs = [] → l_conf ln = None)
            ∧ (confs ≠ [] →
               l_conf ln
               = Some (Qtrunc (binary64 (inject_Z (sum_Z confs)
                                         / inject_Z (len confs)))))
            ∧ (Z.abs (sum_Z confs) ≤ 2 ^ 50 →
               l_conf ln = truncated_mean confs
               ∧ (0 ≤ sum_Z confs → l_conf ln = floor_mean confs)))
         (group_words_to_lines page_words y_tol).
Proof.
  apply Forall_forall. intros ln Hln.
  apply group_words_to_lines_make_line in Hln.
  assert (Hc : l_conf ln = int_mean (omap w_conf (l_words ln)))
    by (by rewrite Hln at 1).
  split; [|split].
  - intros Hnil. by rewrite Hc, Hnil.
  - intros Hne. rewrite Hc. by destruct (omap w_conf (l_words ln)).
  - intros Hb. rewrite Hc, int_mean_truncated by done.
    split; [done|]. intros Hs. by apply truncated_mean_floor.
Qed.

Lemma insert_sorted_Permutation {A K} (key : A → K) le x (l : list A) :
  insert_sorted key le x l ≡ₚ x :: l.
Proof.
  induction l as [|y r IH]; simpl; [done|].
  destruct (le (key x) (key y)); [done|].
  rewrite IH. apply Permutation_swap.
Qed.

Lemma sorted_Permutation {A K} (key : A → K) le (l : list A) :
  sorted key le l ≡ₚ l.
Proof.
  unfold sorted. induction l as [|x r IH]; simpl; [done|].
  by rewrite insert_sorted_Permutation, IH.
Qed.

Lemma by_line_snoc ws w :
  by_line (ws ++ [w]) = setdefault_append (line_key w) w (by_line ws).
Proof. unfold by_line. by rewrite foldl_app. Qed.

Lemma item_setdefault_append k k' w d :
  item k (setdefault_append k' w d)
  = if decide (k = k') then Some (default [] (item k d) ++ [w]) else item k d.
Proof.
  induction d as [|[k0 ws] r IH]; simpl.
  - destruct (decide (k = k')) as [->|Hk]; by rewrite ?decide_True, ?decide_False.
  - destruct (decide (k' = k0)) as [->|Hk0]; simpl.
    + destruct (decide (k = k0)) as [->|Hk]; [done|].
      done.
    + destruct (decide (k = k0)) as [->|Hk].
      * by rewrite decide_False.
      * apply IH.
Qed.

(** The entry of a key holds the words of that key, in the order of the
    page. *)
Lemma item_by_line k ws :
  item k (by_line ws)
  = match filter (λ w, line_key w = k) ws with [] => None | l => Some l end.
Proof.
  induction ws as [|w ws IH] using rev_ind; [done|].
  rewrite by_line_snoc, item_setdefault_append, filter_app, IH.
  destruct (decide (k = line_key w)) as [->|Hk].
  - rewrite (filter_cons_True _ w) by done. rewrite filter_nil.
    by destruct (filter _ ws).
  - rewrite (filter_cons_False _ w) by done. rewrite filter_nil.
    by rewrite app_nil_r.
Qed.

Lemma item_Some_fst k d ws : item k d = Some ws → k ∈ map fst d.
Proof.
  induction d as [|[k0 ws0] r IH]; simpl; [done|].
  destruct (decide (k = k0)) as [->|Hk]; rewrite elem_of_cons; auto.
Qed.

Lemma fst_item_Some k d : k ∈ map fst d → is_Some (item k d).
Proof.
  induction d as [|[k0 ws0] r IH]; simpl; [by rewrite elem_of_nil|].
  rewrite elem_of_cons. destruct (decide (k = k0)) as [->|Hk]; [eauto|].
  intros [?|?]; [done|auto].
Qed.

(** The lines of the metadata strategy: one per triple that occurs on the
    page, holding all the words of that triple. *)
Lemma lines_by_metadata_elem_of ws ln :
  ln ∈ lines_by_metadata ws ↔
  ∃ w, w ∈ ws
       ∧ ln = make_line (sorted w_left Z.leb
                           (filter (λ w', line_key w' = line_key w) ws)).
Proof.
  unfold lines_by_metadata. rewrite list_elem_of_omap. split.
  - intros (k & _ & Hk). rewrite item_by_line in Hk.
    destruct (filter (λ w, line_key w = k) ws) as [|w fs] eqn:Hf; [done|].
    injection Hk as <-.
    assert (Hw : w ∈ filter (λ w, line_key w = k) ws)
      by (rewrite Hf; apply list_elem_of_here).
    apply list_elem_of_filter in Hw as [<- Hw].
    exists w. by rewrite Hf.
  - intros (w & Hw & ->). exists (line_key w).
    assert (Hf : w ∈ filter (λ w', line_key w' = line_key w) ws)
      by (by apply list_elem_of_filter).
    assert (Hi : item (line_key w) (by_line ws)
                 = Some (filter (λ w', line_key w' = line_key w) ws)).
    { rewrite item_by_line. destruct (filter _ ws); [|done].
      by apply elem_of_nil in Hf. }
    split; [|by rewrite Hi].
    apply sorted_elem_of. by eapply item_Some_fst.
Qed.

(** C10: when some word of the page has a line number other than zero,
    every word of the page, whatever its line number and its vertical
    position, lies in a line that holds all the words of its triple; two
    words of one triple never lie in two different lines; and every line
    holds the words of one triple and no other word: its words are the
    words of the page that have the triple of one of them, each as many
    times as the page has it. *)
Theorem metadata_grouping_merges_triples (page_words : list word) (y_tol : Q) :
  (∃ w, w ∈ page_words ∧ w_line_num w ≠ 0) →
  let lines := group_words_to_lines page_words y_tol in
  (∀ w, w ∈ page_words →
        ∃ ln, ln ∈ lines
              ∧ ∀ w', w' ∈ page_words → line_key w' = line_key w →
                      w' ∈ l_words ln)
  ∧ (∀ ln ln' w w', ln ∈ lines → ln' ∈ lines →
                    w ∈ l_words ln → w' ∈ l_words ln' →
                    line_key w = line_key w' → ln = ln')
  ∧ (∀ ln, ln ∈ lines →
           ∃ w, w ∈ page_words
                ∧ l_words ln
                  ≡ₚ filter (λ w', line_key w' = line_key w) page_words).
Proof.
  intros (w0 & Hw0 & Hnum) lines.
  assert (Hany : has_line_num page_words = true).
  { apply existsb_exists. exists w0. split; [by apply list_elem_of_In|].
    by apply negb_true_iff, Z.eqb_neq. }
  unfold lines, group_words_to_lines. rewrite Hany.
  split; [|split].
  - intros w Hw. eexists. split.
    + apply lines_by_metadata_elem_of. eauto.
    + intros w' Hw' Hk. simpl. apply sorted_elem_of.
      by apply list_elem_of_filter.
  - intros ln ln' w w'.
    rewrite !lines_by_metadata_elem_of.
    intros (v & _ & ->) (v' & _ & ->). simpl.
    rewrite !sorted_elem_of, !list_elem_of_filter.
    intros [Hk _] [Hk' _] Hww. by rewrite <- Hk, <- Hk', Hww.
  - intros ln (w & Hw & ->)%lines_by_metadata_elem_of.
    exists w. split; [done|]. simpl. apply sorted_Permutation.
Qed.

End LineFacts.

Section WhileFacts.
Context {S : Type} (cond : S → bool) (body : S → turn S).

(** A property that every turn preserves holds when the loop is left. *)
Lemma while_inv (I : S → Prop) fuel s :
  I s →
  (∀ s s', I s → cond s = true → body s = Next s' ∨ body s = Break s' → I s') →
  I (while fuel cond body s).
Proof.
  intros Hs Hstep. revert s Hs.
  induction fuel as [|fuel IH]; intros s Hs; simpl; [done|].
  destruct (cond s) eqn:Hc; [|done].
  destruct (body s) as [s'|s'] eqn:Hb; [apply IH|]; eauto.
Qed.

(** With a measure that is positive while the condition holds and that
    every turn decreases, fuel for the measure of the first state is
    enough: the bounded loop is the loop. *)
Lemma while_runs (m : S → nat) fuel s :
  (∀ s, cond s = true → (0 < m s)%nat) →
  (∀ s s', cond s = true → body s = Next s' → (m s' < m s)%nat) →
  (m s ≤ fuel)%nat →
  runs cond body s (while fuel cond body s).
Proof.
  intros Hpos Hm. revert s.
  induction fuel as [|fuel IH]; intros s Hfuel; simpl.
  - destruct (cond s) eqn:Hc; [|by constructor].
    specialize (Hpos _ Hc). lia.
  - destruct (cond s) eqn:Hc; [|by constructor].
    destruct (body s) as [s'|s'] eqn:Hb.
    + eapply runs_next; eauto. apply IH. specialize (Hm _ _ Hc Hb). lia.
    + by eapply runs_break.
Qed.

End WhileFacts.

Section SegmenterFacts.
Context `{Unicode} (lines : list line).

Lemma QUESTION_NUM_REGEX_digits text q rest :
  QUESTION_NUM_REGEX text = Some (q, rest) → q ≠ [].
Proof.
  unfold QUESTION_NUM_REGEX.
  destruct (take_digits 4 _) as [[|d ds] s']; [done|].
  by intros [= <- _].
Qed.

Lemma detect_question_number_Some text q rest :
  QUESTION_NUM_REGEX text = Some (q, rest) →
  detect_question_number text = (Some q, strip rest) ∧ is_qnum (Some q) = true.
Proof.
  intros Hm. unfold detect_question_number. rewrite Hm. split; [done|].
  apply QUESTION_NUM_REGEX_digits in Hm. by destruct q.
Qed.

Lemma detect_question_number_None text :
  QUESTION_NUM_REGEX text = None →
  detect_question_number text = (None, text).
Proof. intros Hm. unfold detect_question_number. by rewrite Hm. Qed.

Lemma is_qnum_numbered ln :
  is_qnum (detect_question_number (l_text ln)).1 = numbered ln.
Proof.
  unfold numbered.
  destruct (QUESTION_NUM_REGEX (l_text ln)) as [[q rest]|] eqn:Hm.
  - destruct (detect_question_number_Some _ _ _ Hm) as [Hd Hq].
    rewrite Hd. cbn [fst]. rewrite Hq.
    symmetry. apply bool_decide_eq_true. eauto.
  - by rewrite (detect_question_number_None _ Hm).
Qed.

Lemma gap_exceeds_line_height cur nxt :
  (l_top nxt - l_bottom cur >? line_height cur * 6) = gap_exceeds cur nxt.
Proof. unfold gap_exceeds, line_height. by rewrite Z.mul_comm. Qed.

(** The inner loop of the numbered branch, entered at line [i] after line
    [i - 1] was taken: it takes the lines from [i] up to a line [k] that
    ends the candidate or up to the end of the page. *)
Lemma question_loop_spec fuel cur i bs :
  (length lines - i ≤ fuel)%nat → (1 ≤ i ≤ length lines)%nat →
  lines !! (i - 1)%nat = Some cur →
  ∃ cur' k,
    while fuel (question_cond lines) (question_body lines) (cur, i, bs)
    = (cur', k, bs ++ map line_block (take (k - i) (drop i lines)))
    ∧ (i ≤ k ≤ length lines)%nat
    ∧ (∀ m, (i ≤ m < k)%nat → continues lines m)
    ∧ (k = length lines ∨ stops lines k).
Proof.
  revert cur i bs.
  induction fuel as [|fuel IH]; intros cur i bs Hfuel Hi Hcur.
  - exists cur, i. simpl. rewrite Nat.sub_diag, take_0, app_nil_r.
    repeat split; lia.
  - cbn [while]. unfold question_cond at 1.
    destruct (Nat.ltb_spec i (length lines)) as [Hlt|Hge].
    2:{ exists cur, i. rewrite Nat.sub_diag, take_0, app_nil_r.
        repeat split; lia. }
    destruct (lookup_lt_is_Some_2 lines i Hlt) as [nxt Hnxt].
    unfold question_body at 1. rewrite Hnxt.
    pose proof (is_qnum_numbered nxt) as Hq.
    destruct (detect_question_number (l_text nxt)) as [nq nrest].
    cbn [fst] in Hq. rewrite Hq, gap_exceeds_line_height.
    destruct (numbered nxt) eqn:Hnum.
    { exists cur, i. rewrite Nat.sub_diag, take_0, app_nil_r.
      repeat split; try lia. right. exists cur, nxt. auto. }
    destruct (gap_exceeds cur nxt) eqn:Hgap.
    { exists cur, i. rewrite Nat.sub_diag, take_0, app_nil_r.
      repeat split; try lia. right. exists cur, nxt. auto. }
    destruct (IH nxt (Datatypes.S i) (bs ++ [line_block nxt]))
      as (cur' & k & Hw & Hk & Hcont & Hstop); [lia|lia| |].
    { by replace (Datatypes.S i - 1)%nat with i by lia. }
    exists cur', k. rewrite Hw. split; [|split; [lia|split; [|done]]].
    + f_equal. rewrite <- app_assoc. f_equal.
      rewrite (drop_S _ _ _ Hnxt).
      replace (k - i)%nat with (Datatypes.S (k - Datatypes.S i)) by lia.
      done.
    + intros m Hm. destruct (decide (m = i)) as [->|Hne].
      * exists cur, nxt. auto.
      * apply Hcont. lia.
Qed.

(** The turn of the outer loop on a line with a question number. *)
Lemma segment_body_numbered i ln q rest cands :
  lines !! i = Some ln →
  QUESTION_NUM_REGEX (l_text ln) = Some (q, rest) →
  ∃ k,
    let bs := first_block ln rest
              :: map line_block
                     (take (k - Datatypes.S i) (drop (Datatypes.S i) lines)) in
    segment_body lines (i, cands)
    = Next (k, cands ++ [{| qnum := Some q; blocks := bs;
                            conf_avg := _avg_conf bs |}])
    ∧ (i < k ≤ length lines)%nat
    ∧ (∀ m, (i < m < k)%nat → continues lines m)
    ∧ (k = length lines ∨ stops lines k).
Proof.
  intros Hln Hm. unfold segment_body. rewrite Hln.
  destruct (detect_question_number_Some _ _ _ Hm) as [-> ->].
  unfold collect_question.
  assert (Hlt : (i < length lines)%nat) by (by eapply lookup_lt_Some).
  destruct (question_loop_spec (length lines) ln (Datatypes.S i)
              [first_block ln rest])
    as (cur' & k & Hw & Hk & Hcont & Hstop); [lia|lia| |].
  { by replace (Datatypes.S i - 1)%nat with i by lia. }
  exists k. cbn zeta. unfold first_block, first_text in *. rewrite Hw.
  repeat split; try done; lia.
Qed.

Lemma options_loop_inv i fuel s :
  chunk_inv lines i s →
  chunk_inv lines i (while fuel (options_cond lines i) (options_body lines) s).
Proof.
  intros Hs. apply while_inv; [done|].
  clear s Hs. intros [j bs] s' [Hj Hbs] Hc. simpl in Hj, Hbs.
  unfold options_cond in Hc. rewrite !andb_true_iff in Hc.
  destruct Hc as [[Hlt _] _]. apply Nat.ltb_lt in Hlt.
  unfold options_body.
  destruct (lines !! j) as [ln|]; intros [[= <-]|[= <-]]; split; simpl;
    try done; try lia; by destruct bs.
Qed.

Lemma chunk_loop_inv i fuel s :
  chunk_inv lines i s →
  chunk_inv lines i (while fuel (chunk_cond lines i) (chunk_body lines i) s).
Proof.
  intros Hs. apply while_inv; [done|].
  clear s Hs. intros [j bs] s' [Hj Hbs] Hc. simpl in Hj, Hbs.
  unfold chunk_cond in Hc. apply Nat.ltb_lt in Hc.
  unfold chunk_body.
  destruct (lines !! j) as [ln|]; [|by intros [[= <-]|[= <-]]].
  destruct (option_marker (l_text ln)); intros [[= <-]|[= <-]].
  - apply options_loop_inv. split; simpl; [lia|by destruct bs].
  - split; simpl; [lia|by destruct bs].
Qed.

Lemma chunk_loop_first i fuel :
  (0 < fuel)%nat → (i < length lines)%nat →
  chunk_inv lines i
    (while fuel (chunk_cond lines i) (chunk_body lines i) (i, [])).
Proof.
  intros Hfuel Hlt. destruct fuel as [|fuel]; [lia|].
  cbn [while]. unfold chunk_cond at 1.
  destruct (Nat.ltb_spec i (length lines `min` (i + 6))) as [_|Hge]; [|lia].
  destruct (lookup_lt_is_Some_2 lines i) as [ln Hln]; [lia|].
  unfold chunk_body at 1. rewrite Hln.
  destruct (option_marker (l_text ln)).
  - apply options_loop_inv. split; simpl; [lia|done].
  - apply chunk_loop_inv. split; simpl; [lia|done].
Qed.

Lemma collect_chunk_inv i :
  (i < length lines)%nat → chunk_inv lines i (collect_chunk lines i).
Proof. intros Hlt. apply chunk_loop_first; lia. Qed.

(** The turn of the outer loop on a line without a question number. *)
Lemma segment_body_unnumbered i ln cands :
  lines !! i = Some ln → numbered ln = false →
  segment_body lines (i, cands)
  = let '(j, bs) := collect_chunk lines i in
    if chunk_length bs >? 10 then
      Next (j, cands ++ [{| qnum := None; blocks := bs;
                            conf_avg := _avg_conf bs |}])
    else Next (Datatypes.S i, cands).
Proof.
  intros Hln Hnum. unfold segment_body. rewrite Hln.
  pose proof (is_qnum_numbered ln) as Hq. rewrite Hnum in Hq.
  destruct (detect_question_number (l_text ln)) as [q rest].
  cbn [fst] in Hq. by rewrite Hq.
Qed.

(** Every turn of the outer loop moves the scan position forward, within
    the page, and appends candidates that are well formed. *)
Lemma segment_body_advances i cands :
  (i < length lines)%nat →
  ∃ k new,
    segment_body lines (i, cands) = Next (k, cands ++ new)
    ∧ (i < k ≤ length lines)%nat ∧ Forall well_formed_candidate new.
Proof.
  intros Hlt. destruct (lookup_lt_is_Some_2 lines i Hlt) as [ln Hln].
  destruct (QUESTION_NUM_REGEX (l_text ln)) as [[q rest]|] eqn:Hm.
  - destruct (segment_body_numbered i ln q rest cands Hln Hm)
      as (k & Hb & Hk & _).
    eexists k, [_]. split; [exact Hb|]. split; [done|].
    apply Forall_singleton. split; simpl; done.
  - rewrite (segment_body_unnumbered i ln cands Hln).
    2:{ unfold numbered. rewrite Hm. by apply bool_decide_eq_false; intros [? ?]. }
    pose proof (collect_chunk_inv i Hlt) as [Hj Hbs].
    destruct (collect_chunk lines i) as [j bs]. simpl in Hj, Hbs.
    destruct (Z.gtb_spec (chunk_length bs) 10) as [Hlen|Hlen].
    + eexists j, [_]. split; [done|]. split; [lia|].
      apply Forall_singleton. split; simpl; [done|lia].
    + exists (Datatypes.S i), []. rewrite app_nil_r.
      split; [done|]. split; [lia|constructor].
Qed.

(** A turn of the outer loop only appends to the candidates. *)
Lemma segment_body_frame i cands :
  segment_body lines (i, cands)
  = match segment_body lines (i, []) with
    | Next (k, new) => Next (k, cands ++ new)
    | Break (k, new) => Break (k, cands ++ new)
    end.
Proof.
  unfold segment_body.
  destruct (lines !! i) as [ln|]; [|by rewrite app_nil_r].
  destruct (detect_question_number (l_text ln)) as [q rest].
  destruct (is_qnum q).
  - by destruct (collect_question lines ln i _) as [[? k] bs].
  - destruct (collect_chunk lines i) as [j bs].
    destruct (chunk_length bs >? 10); by rewrite ?app_nil_r.
Qed.

Lemma segment_body_next i cands :
  (i < length lines)%nat →
  segment_body lines (i, cands)
  = Next (next_position lines i, cands ++ emitted lines i)
  ∧ (i < next_position lines i ≤ length lines)%nat
  ∧ Forall well_formed_candidate (emitted lines i).
Proof.
  intros Hlt. rewrite segment_body_frame. unfold next_position, emitted.
  destruct (segment_body_advances i [] Hlt) as (k & new & -> & Hk & Hnew).
  done.
Qed.

Lemma while_segment_frame fuel i cands :
  while fuel (segment_cond lines) (segment_body lines) (i, cands)
  = let r := while fuel (segment_cond lines) (segment_body lines) (i, []) in
    (r.1, cands ++ r.2).
Proof.
  revert i cands. induction fuel as [|fuel IH]; intros i cands; cbn [while].
  { simpl. by rewrite app_nil_r. }
  change (segment_cond lines (i, cands)) with (i <? length lines)%nat.
  change (segment_cond lines (i, [])) with (i <? length lines)%nat.
  destruct (Nat.ltb_spec i (length lines)) as [Hlt|Hge];
    [|simpl; by rewrite app_nil_r].
  destruct (segment_body_next i cands Hlt) as (-> & _ & _).
  destruct (segment_body_next i [] Hlt) as (-> & _ & _).
  rewrite IH, (IH _ ([] ++ _)). cbn zeta. simpl. by rewrite app_assoc.
Qed.

(** More fuel than the lines that are left changes nothing. *)
Lemma while_segment_fuel f1 f2 i :
  (length lines - i ≤ f1)%nat → (length lines - i ≤ f2)%nat →
  while f1 (segment_cond lines) (segment_body lines) (i, [])
  = while f2 (segment_cond lines) (segment_body lines) (i, []).
Proof.
  revert f2 i. induction f1 as [|f1 IH]; intros f2 i Hf1 Hf2.
  - destruct f2 as [|f2]; [done|]. cbn [while]. unfold segment_cond.
    by destruct (Nat.ltb_spec i (length lines)); [lia|].
  - cbn [while]. unfold segment_cond at 1.
    destruct (Nat.ltb_spec i (length lines)) as [Hlt|Hge].
    2:{ destruct f2 as [|f2]; [done|]. cbn [while]. unfold segment_cond.
        by destruct (Nat.ltb_spec i (length lines)); [lia|]. }
    destruct f2 as [|f2]; [lia|]. cbn [while]. unfold segment_cond at 2.
    destruct (Nat.ltb_spec i (length lines)); [|lia].
    destruct (segment_body_next i [] Hlt) as (-> & Hk & _).
    rewrite while_segment_frame, (while_segment_frame f2).
    by rewrite (IH f2) by lia.
Qed.

(** What the loop has appended when it reaches a scan position is a
    prefix of the result, and the rest is what it appends from there. *)
Lemma scanned_prefix i :
  scanned lines i →
  ∃ pre,
    group_lines_to_candidates lines
    = pre ++ (while (length lines - i) (segment_cond lines)
                    (segment_body lines) (i, [])).2.
Proof.
  induction 1 as [|i Hs [pre IH] Hlt].
  - exists []. by rewrite Nat.sub_0_r.
  - destruct (length lines - i)%nat as [|f] eqn:Hf; [lia|].
    cbn [while] in IH. unfold segment_cond at 1 in IH.
    destruct (Nat.ltb_spec i (length lines)); [|lia].
    destruct (segment_body_next i [] Hlt) as (Hb & Hk & _).
    rewrite Hb, while_segment_frame in IH. cbn zeta in IH. simpl in IH.
    exists (pre ++ emitted lines i). rewrite IH, <- app_assoc.
    by rewrite (while_segment_fuel f (length lines - next_position lines i))
      by lia.
Qed.

Lemma emitted_in_result i c :
  scanned lines i → (i < length lines)%nat → c ∈ emitted lines i →
  c ∈ group_lines_to_candidates lines.
Proof.
  intros Hs Hlt Hc. destruct (scanned_prefix i Hs) as [pre ->].
  destruct (length lines - i)%nat as [|f] eqn:Hf; [lia|].
  cbn [while]. unfold segment_cond at 1.
  destruct (Nat.ltb_spec i (length lines)); [|lia].
  destruct (segment_body_next i [] Hlt) as (-> & _ & _).
  rewrite while_segment_frame. cbn zeta. simpl.
  rewrite !elem_of_app. auto.
Qed.

Lemma group_lines_to_candidates_well_formed :
  Forall well_formed_candidate (group_lines_to_candidates lines).
Proof.
  unfold group_lines_to_candidates.
  apply (while_inv _ _ (λ s, Forall well_formed_candidate s.2)); [constructor|].
  intros [i cands] s' Hcands Hc. simpl in Hcands.
  unfold segment_cond in Hc. apply Nat.ltb_lt in Hc.
  destruct (segment_body_next i cands Hc) as (-> & _ & Hnew).
  intros [[= <-]|[= <-]]. simpl. by apply Forall_app.
Qed.

(** The bounded loops are the loops: each runs on fuel for the lines of
    the page, and each turn moves forward. *)
Lemma question_loop_runs s :
  runs (question_cond lines) (question_body lines) s
       (while (length lines) (question_cond lines) (question_body lines) s).
Proof.
  apply (while_runs _ _ (λ s, length lines - s.1.2)%nat); [| |lia].
  - intros [[ln i] bs] Hc. apply Nat.ltb_lt in Hc. simpl. lia.
  - intros [[ln i] bs] s' Hc. apply Nat.ltb_lt in Hc. unfold question_body.
    destruct (lines !! i) as [nxt|]; [|done].
    destruct (detect_question_number (l_text nxt)) as [q r].
    destruct (is_qnum q); [done|].
    destruct (_ >? _); [done|]. intros [= <-]. simpl. lia.
Qed.

Lemma options_loop_runs i s :
  runs (options_cond lines i) (options_body lines) s
       (while (length lines) (options_cond lines i) (options_body lines) s).
Proof.
  apply (while_runs _ _ (λ s, length lines - s.1)%nat); [| |lia].
  - intros [j bs] Hc. unfold options_cond in Hc.
    rewrite !andb_true_iff, Nat.ltb_lt in Hc. simpl. lia.
  - intros [j bs] s' Hc. unfold options_cond in Hc.
    rewrite !andb_true_iff, Nat.ltb_lt in Hc. unfold options_body.
    destruct (lines !! j); [|done]. intros [= <-]. simpl. lia.
Qed.

Lemma chunk_loop_runs i s :
  runs (chunk_cond lines i) (chunk_body lines i) s
       (while (length lines) (chunk_cond lines i) (chunk_body lines i) s).
Proof.
  apply (while_runs _ _ (λ s, length lines - s.1)%nat); [| |lia].
  - intros [j bs] Hc. apply Nat.ltb_lt in Hc. simpl. lia.
  - intros [j bs] s' Hc. apply Nat.ltb_lt in Hc. unfold chunk_body.
    destruct (lines !! j) as [ln|]; [|done].
    destruct (option_marker (l_text ln)); [done|].
    intros [= <-]. simpl. lia.
Qed.

Lemma segment_loop_runs :
  runs (segment_cond lines) (segment_body lines) (0%nat, [])
       (while (length lines) (segment_cond lines) (segment_body lines)
              (0%nat, [])).
Proof.
  apply (while_runs _ _ (λ s, length lines - s.1)%nat); [| |simpl; lia].
  - intros [i cands] Hc. apply Nat.ltb_lt in Hc. simpl. lia.
  - intros [i cands] s' Hc. apply Nat.ltb_lt in Hc.
    destruct (segment_body_next i cands Hc) as (-> & Hk & _).
    intros [= <-]. simpl. lia.
Qed.

(** C6: every candidate of the result holds at least one block, and an
    unnumbered one has a joined, trimmed text of more than 10 characters;
    at a line without a question number the turn emits the collected
    chunk when its text is that long, and otherwise emits nothing and
    moves the scan position to the following line. *)
Theorem unnumbered_candidates_exceed_ten_characters :
  (∀ c, c ∈ group_lines_to_candidates lines →
        blocks c ≠ [] ∧ (qnum c = None → 10 < chunk_length (blocks c)))
  ∧ (∀ i ln cands,
       lines !! i = Some ln → numbered ln = false →
       let '(j, bs) := collect_chunk lines i in
       if chunk_length bs >? 10 then
         segment_body lines (i, cands)
         = Next (j, cands ++ [{| qnum := None; blocks := bs;
                                 conf_avg := _avg_conf bs |}])
       else segment_body lines (i, cands) = Next (Datatypes.S i, cands)).
Proof.
  split.
  - intros c Hc.
    pose proof group_lines_to_candidates_well_formed as Hall.
    rewrite Forall_forall in Hall. exact (Hall c Hc).
  - intros i ln cands Hln Hnum.
    rewrite (segment_body_unnumbered i ln cands Hln Hnum).
    destruct (collect_chunk lines i) as [j bs].
    by destruct (chunk_length bs >? 10).
Qed.

(** C7 (amended): at a line with a question number the turn opens a
    candidate with that number and appends the following lines up to a
    line [k], which it leaves for the next turn: every line before [k] has
    no question number and follows the line before it by a gap of at most
    six heights of that line, a height of zero counting as 1; and [k] is
    the end of the page, or line [k] has a question number or follows
    line [k - 1] by a larger gap. *)
Theorem numbered_candidate_extent (i : nat) (ln : line) (q rest : str)
    (cands : list candidate) :
  lines !! i = Some ln →
  QUESTION_NUM_REGEX (l_text ln) = Some (q, rest) →
  ∃ k,
    let bs := first_block ln rest
              :: map line_block
                     (take (k - Datatypes.S i) (drop (Datatypes.S i) lines)) in
    segment_body lines (i, cands)
    = Next (k, cands ++ [{| qnum := Some q; blocks := bs;
                            conf_avg := _avg_conf bs |}])
    ∧ (i < k ≤ length lines)%nat
    ∧ (∀ m, (i < m < k)%nat → continues lines m)
    ∧ (k = length lines ∨ stops lines k).
Proof. apply segment_body_numbered. Qed.

(** C9: a line with a question number at a scan position always yields a
    candidate of the result with that number, whose first block is the
    block of that line, however short its text. *)
Theorem question_number_always_emitted (i : nat) (ln : line) (q rest : str) :
  scanned lines i →
  lines !! i = Some ln →
  QUESTION_NUM_REGEX (l_text ln) = Some (q, rest) →
  ∃ c, c ∈ group_lines_to_candidates lines
       ∧ qnum c = Some q
       ∧ head (blocks c) = Some (first_block ln rest).
Proof.
  intros Hs Hln Hm.
  destruct (segment_body_numbered i ln q rest [] Hln Hm) as (k & Hb & _).
  cbn zeta in Hb. eexists. split; [|split].
  - apply (emitted_in_result i); [done|by eapply lookup_lt_Some|].
    unfold emitted. rewrite Hb. simpl. apply list_elem_of_here.
  - done.
  - done.
Qed.

End SegmenterFacts.

(** * The functions on concrete records, texts and pages

    The character database is [latin_devanagari]. *)

Section Evaluation.
#[local] Existing Instance latin_devanagari.

(** C1, counterexample: a record whose page is null, and a record whose
    text is a number, are mappings, and the normalizer raises on them. *)
Lemma normalize_row_raises_on_malformed_fields :
  normalize_row null_page_record = Raise TypeError
  ∧ normalize_row numeric_text_record = Raise AttributeError.
Proof. split; reflexivity. Qed.

(** C1, witness. *)
Lemma flat_record_normalizes : ∃ w, normalize_row flat_record = Ok w.
Proof.
  apply (normalize_row_total_on_well_typed flat_record). reflexivity.
Defined.

(** C8, witness. *)
Lemma flat_word_renormalizes : normalize_row (word_obj flat_word) = Ok flat_word.
Proof.
  apply (normalize_row_idempotent flat_record flat_word). reflexivity.
Defined.

(** C2, counterexample: the nested box holds the value 0 for [left], and
    the token gets the 7 of the top-level field. *)
Lemma nested_zero_yields_top_level_left :
  sub_object nested_zero_record !! "left" = Some (VInt 0)
  ∧ nested_zero_record !! "left" = Some (VInt 7)
  ∧ normalize_row nested_zero_record = Ok nested_zero_word
  ∧ w_left nested_zero_word = 7.
Proof. repeat split; reflexivity. Qed.

(** C2, witness. *)
Lemma nested_zero_resolution :
  let obj := nested_zero_record in
  let bbox := sub_object obj in
  py_int (first_truthy [bbox !! "left"; bbox !! "x"; obj !! "left"]) = Ok 7
  ∧ py_int (first_truthy [bbox !! "top"; bbox !! "y"; obj !! "top"]) = Ok 5
  ∧ py_int (first_truthy [bbox !! "width"; bbox !! "w"; obj !! "width"])
    = Ok 1
  ∧ py_int (first_truthy [bbox !! "height"; bbox !! "h"; obj !! "height"])
    = Ok 1.
Proof.
  exact (bounding_box_resolution nested_zero_record nested_zero_word eq_refl).
Defined.

(** C3, counterexample: the ratio of a word of four Devanagari letters
    and two Devanagari marks is 6/4, where the fraction of its alphabetic
    characters that are Devanagari is 1. *)
Lemma script_ratio_exceeds_one :
  (script_ratio prashna == 3 # 2)%Q
  ∧ (alphabetic_fraction prashna == 1)%Q
  ∧ (1 < script_ratio prashna)%Q.
Proof. repeat split; reflexivity. Qed.

(** C4, counterexample: three of the ten alphabetic characters of the
    text lie in the Devanagari block, a fraction of exactly 0.3, and the
    classifier answers [hindi]: it divides the four code points of the
    block, the sign among them, by the ten alphabetic characters. *)
Lemma alphabetic_fraction_at_threshold_is_hindi :
  (alphabetic_fraction three_in_ten_with_virama == 3 # 10)%Q
  ∧ (script_ratio three_in_ten_with_virama == 4 # 10)%Q
  ∧ guess_lang three_in_ten_with_virama = hindi.
Proof. repeat split; reflexivity. Qed.

Example guess_lang_at_thresholds :
  (script_ratio three_in_ten == 3 # 10)%Q
  ∧ guess_lang three_in_ten = mixed
  ∧ (script_ratio one_in_twenty == 5 # 100)%Q
  ∧ guess_lang one_in_twenty = mixed
  ∧ guess_lang prashna = hindi.
Proof. repeat split; reflexivity. Qed.

(** C5, counterexample: on both strategies two words of confidence -1 and
    -2 give a line of confidence -1, and their mean rounded down is -2. *)
Lemma line_confidence_of_negative_mean :
  map l_conf (group_words_to_lines (negative_conf_page 1) (1 # 2))
  = [Some (-1)]
  ∧ map l_conf (group_words_to_lines (negative_conf_page 0) (1 # 2))
    = [Some (-1)]
  ∧ map (λ ln, floor_mean (omap w_conf (l_words ln)))
        (group_words_to_lines (negative_conf_page 1) (1 # 2))
    = [Some (-2)]
  ∧ map (λ ln, floor_mean (omap w_conf (l_words ln)))
        (group_words_to_lines (negative_conf_page 0) (1 # 2))
    = [Some (-2)].
Proof. repeat split; reflexivity. Qed.

(** From 2^53 on the division rounds: two confidences of 2^53 + 1 give
    a line of confidence 2^53, and three words of height 1 at the top
    2^53 + 1 give two lines, the average top of the first two being
    2^53. *)
Example rounding_from_2_53 :
  int_mean [beyond_2_53; beyond_2_53] = Some (2 ^ 53)
  ∧ int_mean [beyond_2_53] = Some (2 ^ 53)
  ∧ (number_value <$> _median [Some beyond_2_53; Some beyond_2_53])
    = Some (inject_Z (2 ^ 53))
  ∧ map (λ ln, (l_text ln, l_conf ln))
        (group_words_to_lines beyond_2_53_page (1 # 2))
    = [(U "a b", Some (2 ^ 53)); (U "c", None)].
Proof.
  do 3 (split; [vm_compute; reflexivity|]). vm_compute. reflexivity.
Qed.

(** [int] of a string: the separators U+001C to U+001F are whitespace for
    [strip] and not for [int], and a literal of more than 4300 digits is
    refused. *)
Example int_of_str_limits :
  int_of_str (U " 8_7 ") = Ok 87
  ∧ int_of_str [0xA0; 0x967; 0x968]%N = Ok 12
  ∧ int_of_str [0x1C; 53]%N = Raise ValueError
  ∧ strip [0x1C; 53]%N = [53]%N
  ∧ int_of_str (repeat 48%N 4299 ++ [49]%N) = Ok 1
  ∧ int_of_str (repeat 48%N 4300 ++ [49]%N) = Raise ValueError.
Proof.
  do 5 (split; [vm_compute; reflexivity|]). vm_compute. reflexivity.
Qed.

Example short_lines_give_no_candidate :
  map l_text short_lines_page = [U "ab"; U "cd"; U "ef"]
  ∧ group_lines_to_candidates short_lines_page = [].
Proof. split; reflexivity. Qed.

Example chunk_swallows_the_option_line :
  map (λ c, (qnum c, map b_text (blocks c), conf_avg c))
      (group_lines_to_candidates chunk_page)
  = [(None, [U "Instructions:"; U "A."], Some 77)].
Proof. reflexivity. Qed.

(** C7, counterexample: the numbered line has the height -5 and the next
    line, which has no question number, starts 5 below its bottom: with
    the height counted as 1 the gap would not exceed 6 and the line would
    be appended; the candidate has one block and the scan goes on at the
    next line. *)
Lemma negative_height_stops_early :
  ∃ l0 l1 c,
    negative_height_page = [l0; l1]
    ∧ numbered l0 = true ∧ numbered l1 = false
    ∧ l_bottom l0 - l_top l0 = -5
    ∧ l_top l1 - l_bottom l0 = 5
    ∧ described_gap_exceeds l0 l1 = false
    ∧ segment_body negative_height_page (0%nat, []) = Next (1%nat, [c])
    ∧ length (blocks c) = 1%nat.
Proof. do 3 eexists. repeat split; reflexivity. Qed.

(** C7, witness. *)
Lemma two_questions_first_extent :
  ∃ k,
    let bs := first_block question_line (U "What")
              :: map line_block (take (k - 1) (drop 1 two_questions_page)) in
    segment_body two_questions_page (0%nat, [])
    = Next (k, [] ++ [{| qnum := Some (U "1"); blocks := bs;
                         conf_avg := _avg_conf bs |}])
    ∧ (0 < k ≤ length two_questions_page)%nat
    ∧ (∀ m, (0 < m < k)%nat → continues two_questions_page m)
    ∧ (k = length two_questions_page ∨ stops two_questions_page k).
Proof.
  apply (numbered_candidate_extent two_questions_page 0 question_line
           (U "1") (U "What") []); reflexivity.
Defined.

Example two_questions_candidates :
  map (λ c, (qnum c, map b_text (blocks c), conf_avg c))
      (group_lines_to_candidates two_questions_page)
  = [(Some (U "1"), [U "What"; U "is it?"], Some 77);
     (Some (U "2"), [U "Why?"], Some 90)].
Proof. reflexivity. Qed.

(** C9, witness. *)
Lemma digits_line_is_emitted :
  ∃ c, c ∈ group_lines_to_candidates digits_page
       ∧ qnum c = Some (U "12")
       ∧ head (blocks c) = Some (first_block digits_line []).
Proof.
  apply (question_number_always_emitted digits_page 0 digits_line
           (U "12") []); [constructor|reflexivity|reflexivity].
Defined.

Example digits_page_candidate :
  map (λ c, (qnum c, map b_text (blocks c), chunk_length (blocks c)))
      (group_lines_to_candidates digits_page)
  = [(Some (U "12"), [U "12"], 2)].
Proof. reflexivity. Qed.

(** C10, witness. *)
Lemma mixed_metadata_page_merges :
  let lines := group_words_to_lines mixed_metadata_page (1 # 2) in
  (∀ w, w ∈ mixed_metadata_page →
        ∃ ln, ln ∈ lines
              ∧ ∀ w', w' ∈ mixed_metadata_page → line_key w' = line_key w →
                      w' ∈ l_words ln)
  ∧ (∀ ln ln' w w', ln ∈ lines → ln' ∈ lines →
                    w ∈ l_words ln → w' ∈ l_words ln' →
                    line_key w = line_key w' → ln = ln')
  ∧ (∀ ln, ln ∈ lines →
           ∃ w, w ∈ mixed_metadata_page
                ∧ l_words ln
                  ≡ₚ filter (λ w', line_key w' = line_key w)
                            mixed_metadata_page).
Proof.
  apply (metadata_grouping_merges_triples mixed_metadata_page (1 # 2)).
  exists (word_at "title" 0 400 50 10 None 1).
  split; [by repeat constructor|done].
Defined.

Example mixed_metadata_page_lines :
  map (λ ln, (l_text ln, l_top ln, l_bottom ln))
      (group_words_to_lines mixed_metadata_page (1 # 2))
  = [(U "top bottom", 10, 910); (U "title", 400, 410)].
Proof. reflexivity. Qed.

End Evaluation.

(** * Further properties *)

From Stdlib Require Sorted.

Section SortedFacts.
Context {A K : Type} (key : A → K) (le : K → K → bool).

Lemma sorted_length l : length (sorted key le l) = length l.
Proof. apply Permutation_length, sorted_Permutation. Qed.

Lemma sorted_nil_inv l : sorted key le l = [] → l = [].
Proof.
  intros Hs. apply length_zero_iff_nil. rewrite <- sorted_length, Hs. done.
Qed.

Context (le_total : ∀ a b, le a b = true ∨ le b a = true)
        (le_trans : ∀ a b c, le a b = true → le b c = true → le a c = true).

Lemma insert_sorted_StronglySorted x l :
  Sorted.StronglySorted (λ a b, le (key a) (key b) = true) l →
  Sorted.StronglySorted (λ a b, le (key a) (key b) = true) (insert_sorted key le x l).
Proof.
  induction 1 as [|y r Hr IH Hy]; simpl; [repeat constructor|].
  destruct (le (key x) (key y)) eqn:Hxy.
  - constructor; [by constructor|]. constructor; [done|].
    eapply Forall_impl; [exact Hy|]. intros z Hz. by eapply le_trans.
  - constructor; [done|].
    apply Forall_forall. intros z Hz.
    apply insert_sorted_elem_of in Hz as [->|Hz].
    + destruct (le_total (key x) (key y)) as [Hc|Hc]; [congruence|done].
    + rewrite Forall_forall in Hy. by apply Hy.
Qed.

Lemma sorted_StronglySorted l :
  Sorted.StronglySorted (λ a b, le (key a) (key b) = true) (sorted key le l).
Proof.
  unfold sorted. induction l as [|x r IH]; simpl; [constructor|].
  by apply insert_sorted_StronglySorted.
Qed.

End SortedFacts.

Lemma Z_leb_total (a b : Z) : (a <=? b)%Z = true ∨ (b <=? a)%Z = true.
Proof. rewrite !Z.leb_le. lia. Qed.

Lemma Z_leb_trans (a b c : Z) :
  (a <=? b)%Z = true → (b <=? c)%Z = true → (a <=? c)%Z = true.
Proof. rewrite !Z.leb_le. lia. Qed.

Section NormalizerFurther.
Context `{Unicode}.

Lemma last_rev {A} (l : list A) : last (rev l) = head l.
Proof. destruct l as [|x r]; [done|]. simpl. apply last_snoc. Qed.

Lemma strip_trimmed s : trimmed (strip s).
Proof.
  unfold strip. split; intros c Hc.
  - destruct (lstrip_by_head isspace s) as [Hs|(d & r & Hs & Hd)];
      rewrite Hs in Hc; [done|].
    rewrite (rstrip_by_cons _ _ _ Hd) in Hc. by injection Hc as <-.
  - unfold rstrip_by in Hc. rewrite last_rev in Hc.
    destruct (lstrip_by_head isspace (rev (lstrip_by isspace s)))
      as [Hs|(d & r & Hs & Hd)]; rewrite Hs in Hc; [done|].
    by injection Hc as <-.
Qed.

(** X1: the text of a token has no whitespace at either end. *)
Theorem normalize_row_text_trimmed (obj : gmap string value) (w : word) :
  normalize_row obj = Ok w → trimmed (w_text w).
Proof.
  intros Hn. rewrite <- (normalize_row_text _ _ Hn). apply strip_trimmed.
Qed.

Lemma get_insert_ne (obj : gmap string value) k k' v :
  k ≠ k' → get (<[k := v]> obj) k' = get obj k'.
Proof. intros Hk. unfold get. by rewrite lookup_insert_ne. Qed.

Lemma get_or_insert_ne (obj : gmap string value) k k' v dflt :
  k ≠ k' → get_or (<[k := v]> obj) k' dflt = get_or obj k' dflt.
Proof. intros Hk. unfold get_or. by rewrite lookup_insert_ne. Qed.

Lemma contains_insert_ne (obj : gmap string value) k k' v :
  k ≠ k' → contains (<[k := v]> obj) k' = contains obj k'.
Proof. intros Hk. unfold contains. by rewrite lookup_insert_ne. Qed.

Lemma get_insert_eq (obj : gmap string value) k v :
  get (<[k := v]> obj) k = v.
Proof. unfold get. by rewrite lookup_insert_eq. Qed.

(** X2: the confidence never makes normalization fail and touches no
    other field: with any value under [conf] the record normalizes as
    without it, up to the confidence. *)
Theorem confidence_is_never_fatal (obj : gmap string value) (v : value) :
  normalize_row (<["conf" := v]> obj)
  = w ← normalize_row obj; Ok (with_conf (conf_of v) w).
Proof.
  unfold normalize_row, direct_coord, nested_coord, bbox_of.
  rewrite get_insert_eq.
  rewrite !get_insert_ne, !get_or_insert_ne, !contains_insert_ne by done.
  destruct (py_int (get_or obj "page" (VInt 1))) as [pg|]; [|done].
  cbn [mbind result_bind].
  destruct (py_strip _) as [tx|]; [|done]. cbn [mbind result_bind].
  match goal with
  | |- (?geo ≫= _) = _ => destruct geo as [[[[x y] wd] ht]|]; [|done]
  end.
  cbn [mbind result_bind].
  destruct (py_int (py_or (py_or (get obj "block_num") _) _)) as [bn|];
    [|done].
  cbn [mbind result_bind].
  destruct (py_int (py_or (get obj "par_num") _)) as [pn|]; [|done].
  cbn [mbind result_bind].
  destruct (py_int (py_or (get obj "line_num") _)) as [lnum|]; done.
Qed.

(** X3: when the record exposes the four geometry fields, the nested box
    is never read: whatever stands under [bbox], a string or a list as
    well, the record normalizes as without it. *)
Theorem direct_fields_shadow_bbox (obj : gmap string value) (v : value) :
  exposes_box obj = true →
  normalize_row (<["bbox" := v]> obj) = normalize_row obj.
Proof.
  unfold exposes_box. intros Hbox.
  unfold normalize_row, direct_coord.
  rewrite !get_insert_ne, !get_or_insert_ne, !contains_insert_ne by done.
  by rewrite Hbox.
Qed.

End NormalizerFurther.

Section ClassifierFurther.
Context `{Unicode}.

Lemma count_if_none p text :
  Forall (λ c, p c = false) text → count_if p text = 0.
Proof. induction 1 as [|c r Hc _ IH]; simpl; [done|]. by rewrite Hc, IH. Qed.

Lemma count_if_some p text :
  Exists (λ c, p c = true) text → 0 < count_if p text.
Proof.
  induction 1 as [c r Hc|c r _ IH]; simpl.
  - rewrite Hc. pose proof (count_if_nonneg p r). lia.
  - destruct (p c); lia.
Qed.

Lemma count_if_le_Forall p q text :
  Forall (λ c, p c = true → q c = true) text →
  count_if p text ≤ count_if q text.
Proof.
  induction 1 as [|c r Hc _ IH]; simpl; [done|].
  destruct (p c); [rewrite Hc by done; lia|]. destruct (q c); lia.
Qed.

Lemma count_if_filter p q text :
  (∀ c, p c = true → q c = true) →
  count_if p (List.filter q text) = count_if p text.
Proof.
  intros Hpq. induction text as [|c r IH]; simpl; [done|].
  destruct (q c) eqn:Hq; simpl; [by rewrite IH|].
  destruct (p c) eqn:Hp; [|done]. apply Hpq in Hp. congruence.
Qed.

(** X4: a text without a code point of the Devanagari block, and a text
    without an alphabetic character, are both [english]; the second holds
    for a text made of Devanagari digits or signs only. *)
Theorem text_without_script_is_english (text : str) :
  Forall (λ c, is_devanagari_char c = false) text
  ∨ Forall (λ c, isalpha c = false) text →
  guess_lang text = english.
Proof.
  intros Hno.
  assert (Hr : (script_ratio text == 0)%Q).
  { rewrite script_ratio_unfold. destruct Hno as [Hd|Ha].
    - rewrite (count_if_none _ _ Hd).
      destruct (Z.ltb_spec 0 (count_if isalpha text)); [|done].
      by rewrite Qdiv_inject.
    - by rewrite (count_if_none _ _ Ha). }
  unfold guess_lang.
  assert (Qltb (3 # 10) (script_ratio text) = false) as ->.
  { apply Qltb_ge. by rewrite Hr. }
  assert (Qltb (script_ratio text) (5 # 100) = true) as ->; [|done].
  apply Qltb_lt. by rewrite Hr.
Qed.

(** X5: a text with an alphabetic character, all of whose alphabetic
    characters are Devanagari, is [hindi]. *)
Theorem devanagari_text_is_hindi (text : str) :
  Exists (λ c, isalpha c = true) text →
  Forall (λ c, isalpha c = true → is_devanagari_char c = true) text →
  guess_lang text = hindi.
Proof.
  intros Hsome Hall.
  pose proof (count_if_some _ _ Hsome) as Hpos.
  pose proof (count_if_le_Forall _ _ _ Hall) as Hle.
  unfold guess_lang. rewrite script_ratio_unfold.
  destruct (Z.ltb_spec 0 (count_if isalpha text)); [|lia].
  assert (Hlt : Qltb (3 # 10)
            (inject_Z (count_if is_devanagari_char text)
             / inject_Z (count_if isalpha text)) = true); [|by rewrite Hlt].
  apply Qltb_lt. rewrite Qdiv_inject by done.
  unfold Qlt. simpl. rewrite Z2Pos.id by done. lia.
Qed.

(** X6: the characters that are neither alphabetic nor Devanagari
    (spaces, punctuation, digits of other scripts) have no part in the
    ratio nor in the language. *)
Theorem script_ratio_ignores_other_characters (text : str) :
  let kept := List.filter (λ c, isalpha c || is_devanagari_char c) text in
  script_ratio kept = script_ratio text ∧ guess_lang kept = guess_lang text.
Proof.
  intros kept.
  assert (Hr : script_ratio kept = script_ratio text).
  { rewrite !script_ratio_unfold. unfold kept.
    rewrite !count_if_filter; [done| |]; intros c ->; [|done].
    apply orb_true_r. }
  split; [done|]. unfold guess_lang. by rewrite Hr.
Qed.

End ClassifierFurther.

Section MeanFacts.

Lemma sum_Z_bounds (l : list Z) lo hi :
  Forall (λ c, lo ≤ c ≤ hi) l → lo * len l ≤ sum_Z l ≤ hi * len l.
Proof.
  unfold len. induction 1 as [|c r Hc _ IH]; simpl; [lia|].
  rewrite Nat2Z.inj_succ. lia.
Qed.

(** The quotient of the sum by the length lies between two bounds of the
    elements, and so does its rounding when the format holds the bounds. *)
Lemma int_quotient_bounds (l : list Z) lo hi :
  l ≠ [] → - 2 ^ 53 < lo → hi < 2 ^ 53 →
  Forall (λ c, lo ≤ c ≤ hi) l → lo ≤ int_quotient l ≤ hi.
Proof.
  intros Hne Hlo Hhi Hall. pose proof (len_pos l Hne) as Hlen.
  pose proof (sum_Z_bounds l lo hi Hall) as [Hl Hu].
  assert (HL : (0 < inject_Z (len l))%Q)
    by (change 0%Q with (inject_Z 0); by rewrite <- Zlt_Qlt).
  apply Qtrunc_binary64_bounds; [done|done| |].
  - apply Qle_shift_div_l; [done|]. by rewrite <- inject_Z_mult, <- Zle_Qle.
  - apply Qle_shift_div_r; [done|]. by rewrite <- inject_Z_mult, <- Zle_Qle.
Qed.

Lemma int_mean_bounds (confs : list Z) lo hi m :
  - 2 ^ 53 < lo → hi < 2 ^ 53 →
  Forall (λ c, lo ≤ c ≤ hi) confs → int_mean confs = Some m → lo ≤ m ≤ hi.
Proof.
  intros Hlo Hhi Hall. destruct confs as [|c r] eqn:Hc; [done|].
  intros [= <-]. by apply int_quotient_bounds.
Qed.

Lemma average_in_range (blocks : list block) (lo hi m : Z) :
  - 2 ^ 53 < lo → hi < 2 ^ 53 →
  (∀ b c, b ∈ blocks → b_conf b = Some c → lo ≤ c ≤ hi) →
  _avg_conf blocks = Some m → lo ≤ m ≤ hi.
Proof.
  intros Hlo Hhi Hall. apply int_mean_bounds; [done|done|].
  apply Forall_forall. intros c Hc.
  apply list_elem_of_omap in Hc as (b & Hb & Hbc). eauto.
Qed.

(** X7: the average confidence of a candidate lies between the smallest
    and the largest confidence of its blocks: with block confidences
    between [lo] and [hi], two integers below 2^53 in magnitude, so is the
    average. *)
Theorem average_confidence_in_range (blocks : list block) (lo hi m : Z) :
  - 2 ^ 53 < lo → hi < 2 ^ 53 →
  Forall (λ b, ∀ c, b_conf b = Some c → lo ≤ c ≤ hi) blocks →
  _avg_conf blocks = Some m → lo ≤ m ≤ hi.
Proof.
  intros Hlo Hhi Hall. apply average_in_range; [done|done|]. intros b c Hb.
  rewrite Forall_forall in Hall. by apply Hall.
Qed.

Lemma StronglySorted_lookup {A} (R : A → A → Prop) (l : list A) i j x y :
  Sorted.StronglySorted R l → (i < j)%nat → l !! i = Some x → l !! j = Some y →
  R x y.
Proof.
  intros Hs. revert i j. induction Hs as [|z r Hr IH Hz]; intros i j Hij Hi Hj.
  { done. }
  destruct j as [|j]; [lia|]. simpl in Hj.
  destruct i as [|i]; simpl in Hi.
  - injection Hi as <-. rewrite Forall_forall in Hz.
    apply Hz. by eapply list_elem_of_lookup_2.
  - eapply (IH i j); [lia|done|done].
Qed.

(** The float [(a + b) / 2.0] lies between [a] and [b], two integers
    below 2^53 in magnitude: the format holds them and their doubles. *)
Lemma half_sum_between (a b : Z) :
  Z.abs a < 2 ^ 53 → Z.abs b < 2 ^ 53 → a ≤ b →
  (inject_Z a <= binary64 (binary64 (inject_Z (a + b)) / 2))%Q
  ∧ (binary64 (binary64 (inject_Z (a + b)) / 2) <= inject_Z b)%Q.
Proof.
  intros Ha Hb Hab.
  assert (Hdouble : ∀ c, Z.abs c < 2 ^ 53 →
            (binary64 (inject_Z (2 * c)) == inject_Z c * 2)%Q).
  { intros c Hc. rewrite <- (binary64_fix c 1) by done.
    apply binary64_wd. rewrite inject_Z_mult. change (2 ^ 1)%Q with 2%Q.
    change (inject_Z 2) with 2%Q. ring. }
  assert (Hl : (inject_Z a * 2 <= binary64 (inject_Z (a + b)))%Q).
  { rewrite <- (Hdouble a Ha). apply binary64_mono. rewrite <- Zle_Qle. lia. }
  assert (Hu : (binary64 (inject_Z (a + b)) <= inject_Z b * 2)%Q).
  { rewrite <- (Hdouble b Hb). apply binary64_mono. rewrite <- Zle_Qle. lia. }
  split.
  - rewrite <- (binary64_Z a Ha). apply binary64_mono.
    apply Qle_shift_div_l; [reflexivity|done].
  - rewrite <- (binary64_Z b Hb). apply binary64_mono.
    apply Qle_shift_div_r; [reflexivity|done].
Qed.

Lemma _median_bounds (arr : list (option Z)) :
  Forall (λ x, ∀ z, x = Some z → Z.abs z < 2 ^ 53) arr →
  match _median arr with
  | None => omap id arr = []
  | Some m =>
      ∃ a b, Some a ∈ arr ∧ Some b ∈ arr
             ∧ (inject_Z a <= number_value m <= inject_Z b)%Q
  end.
Proof.
  intros Hbound. unfold _median.
  pose proof (sorted_StronglySorted id Z.leb Z_leb_total Z_leb_trans
                (omap id arr)) as Hsorted.
  pose proof (sorted_length id Z.leb (omap id arr)) as Hlen.
  assert (Hin : ∀ x, x ∈ sorted id Z.leb (omap id arr) → Some x ∈ arr).
  { intros x Hx. apply sorted_elem_of in Hx.
    apply list_elem_of_omap in Hx as (y & Hy & Hyx). simpl in Hyx. by subst. }
  destruct (sorted id Z.leb (omap id arr)) as [|z r] eqn:Hs.
  { by apply (sorted_nil_inv id Z.leb). }
  rewrite <- Hs in *. set (l := sorted id Z.leb (omap id arr)) in *.
  assert (Hpos : (0 < length l)%nat) by (rewrite Hs; simpl; lia).
  destruct (Nat.eqb_spec (length l mod 2) 1) as [Hodd|Heven].
  - destruct (lookup_lt_is_Some_2 l (length l / 2)) as [x Hx].
    { apply Nat.div_lt; lia. }
    rewrite Hx. simpl. exists x, x.
    assert (Some x ∈ arr) by (apply Hin; by eapply list_elem_of_lookup_2).
    repeat split; try done; apply Qle_refl.
  - assert (Hmod : (length l mod 2 = 0)%nat).
    { pose proof (Nat.mod_upper_bound (length l) 2). lia. }
    assert (Hdiv : (length l = 2 * (length l / 2))%nat).
    { pose proof (Nat.div_mod_eq (length l) 2). lia. }
    destruct (lookup_lt_is_Some_2 l (length l / 2 - 1)) as [x Hx]; [lia|].
    destruct (lookup_lt_is_Some_2 l (length l / 2)) as [y Hy]; [lia|].
    rewrite Hx, Hy. simpl. exists x, y.
    assert (Hxy : x ≤ y).
    { apply Z.leb_le.
      apply (StronglySorted_lookup (λ a b : Z, (id a <=? id b) = true) l
               (length l / 2 - 1) (length l / 2)); [done|lia|done|done]. }
    assert (Hxa : Some x ∈ arr) by (apply Hin; by eapply list_elem_of_lookup_2).
    assert (Hya : Some y ∈ arr) by (apply Hin; by eapply list_elem_of_lookup_2).
    split; [done|]. split; [done|].
    rewrite Forall_forall in Hbound.
    exact (half_sum_between x y (Hbound _ Hxa x eq_refl)
             (Hbound _ Hya y eq_refl) Hxy).
Qed.

(** X8: [_median] answers [None] only when every element of the list is
    [None]; otherwise, on integers below 2^53 in magnitude, it answers a
    value between two elements of the list. *)
Theorem median_within_range (arr : list (option Z)) :
  Forall (λ x, ∀ z, x = Some z → Z.abs z < 2 ^ 53) arr →
  match _median arr with
  | None => omap id arr = []
  | Some m =>
      ∃ a b, Some a ∈ arr ∧ Some b ∈ arr
             ∧ (inject_Z a <= number_value m <= inject_Z b)%Q
  end.
Proof. apply _median_bounds. Qed.

End MeanFacts.

Section LineFurther.

Lemma concat_Permutation {A} (l k : list (list A)) :
  l ≡ₚ k → concat l ≡ₚ concat k.
Proof.
  induction 1 as [|x l k _ IH|x y l|l k m _ IH1 _ IH2]; simpl.
  - done.
  - by rewrite IH.
  - rewrite !app_assoc. f_equiv. apply Permutation_app_comm.
  - by rewrite IH1.
Qed.

Lemma concat_map_Permutation {A B} (f g : A → list B) (l : list A) :
  (∀ x, f x ≡ₚ g x) → concat (map f l) ≡ₚ concat (map g l).
Proof.
  intros Hfg. induction l as [|x r IH]; simpl; [done|]. by rewrite Hfg, IH.
Qed.

(** The dictionary of the metadata strategy. *)

Lemma setdefault_append_concat k w d :
  concat (map snd (setdefault_append k w d)) ≡ₚ w :: concat (map snd d).
Proof.
  induction d as [|[k0 ws] r IH]; simpl; [done|].
  destruct (decide (k = k0)) as [->|Hk]; simpl.
  - rewrite <- app_assoc. simpl.
    rewrite <- Permutation_middle. done.
  - rewrite IH. by rewrite Permutation_middle.
Qed.

Lemma by_line_concat ws : concat (map snd (by_line ws)) ≡ₚ ws.
Proof.
  induction ws as [|w ws IH] using rev_ind; [done|].
  rewrite by_line_snoc, setdefault_append_concat, IH.
  by rewrite <- Permutation_cons_append.
Qed.

Lemma setdefault_append_keys k w d :
  map fst (setdefault_append k w d)
  = if bool_decide (k ∈ map fst d) then map fst d else map fst d ++ [k].
Proof.
  induction d as [|[k0 ws] r IH]; simpl; [done|].
  destruct (decide (k = k0)) as [->|Hk]; simpl.
  - rewrite bool_decide_true; [done|]. apply list_elem_of_here.
  - rewrite IH. destruct (bool_decide (k ∈ map fst r)) eqn:Hin.
    + apply bool_decide_eq_true in Hin.
      rewrite bool_decide_true; [done|]. by apply list_elem_of_further.
    + apply bool_decide_eq_false in Hin.
      rewrite bool_decide_false; [done|].
      rewrite elem_of_cons. intros [?|?]; done.
Qed.

Lemma by_line_NoDup ws : NoDup (map fst (by_line ws)).
Proof.
  induction ws as [|w ws IH] using rev_ind; [constructor|].
  rewrite by_line_snoc, setdefault_append_keys.
  case_bool_decide as Hin; [done|].
  apply NoDup_app. split; [done|]. split; [|apply NoDup_singleton].
  intros k Hk ->%list_elem_of_singleton. done.
Qed.

Lemma omap_ext_elem_of {A B} (f g : A → option B) (l : list A) :
  (∀ x, x ∈ l → f x = g x) → omap f l = omap g l.
Proof.
  induction l as [|x r IH]; intros Hfg; csimpl; [done|].
  rewrite (Hfg x) by apply list_elem_of_here.
  rewrite IH; [done|]. intros y Hy. by apply Hfg, list_elem_of_further.
Qed.

Lemma omap_item_keys {B} (f : list word → B) d :
  NoDup (map fst d) →
  omap (λ k, f <$> item k d) (map fst d) = map (λ e, f e.2) d.
Proof.
  induction d as [|[k ws] r IH]; simpl; [done|].
  intros [Hk Hr]%NoDup_cons. rewrite decide_True by done. simpl.
  f_equal. rewrite <- IH by done.
  apply omap_ext_elem_of. intros k' Hk'.
  rewrite decide_False; [done|]. by intros ->.
Qed.

(** The lines of the metadata strategy are those of the entries of the
    dictionary, in another order. *)
Lemma lines_by_metadata_Permutation ws :
  lines_by_metadata ws
  ≡ₚ map (λ e, make_line (sorted w_left Z.leb e.2)) (by_line ws).
Proof.
  unfold lines_by_metadata.
  rewrite (sorted_Permutation id key_le (map fst (by_line ws))).
  rewrite omap_item_keys by apply by_line_NoDup. done.
Qed.

(** The groups of the clustering strategy. *)

Lemma place_concat tol w gs :
  concat (map g_words (place tol w gs)) ≡ₚ w :: concat (map g_words gs).
Proof.
  induction gs as [|g r IH]; simpl; [done|].
  destruct (Qle_bool _ tol); simpl.
  - rewrite <- app_assoc. simpl. by rewrite <- Permutation_middle.
  - rewrite IH. by rewrite Permutation_middle.
Qed.

Lemma place_nonempty tol w gs :
  Forall (λ g, g_words g ≠ []) gs →
  Forall (λ g, g_words g ≠ []) (place tol w gs).
Proof.
  induction 1 as [|g r Hg Hr IH]; simpl; [by repeat constructor|].
  destruct (Qle_bool _ tol); constructor; simpl; try done.
  by destruct (g_words g).
Qed.

Lemma foldl_place_concat tol ws gs :
  concat (map g_words (foldl (λ gs w, place tol w gs) gs ws))
  ≡ₚ concat (map g_words gs) ++ ws.
Proof.
  revert gs. induction ws as [|w ws IH]; intros gs; simpl.
  - by rewrite app_nil_r.
  - rewrite IH, place_concat. simpl. apply Permutation_middle.
Qed.

Lemma foldl_place_nonempty tol ws gs :
  Forall (λ g, g_words g ≠ []) gs →
  Forall (λ g, g_words g ≠ []) (foldl (λ gs w, place tol w gs) gs ws).
Proof.
  revert gs. induction ws as [|w ws IH]; intros gs Hgs; simpl; [done|].
  by apply IH, place_nonempty.
Qed.

(** A line of either strategy holds the words of a group that is not
    empty, sorted by [left]. *)
Lemma group_words_to_lines_shape page_words y_tol ln :
  ln ∈ group_words_to_lines page_words y_tol →
  ∃ ws, ws ≠ [] ∧ ln = make_line (sorted w_left Z.leb ws).
Proof.
  unfold group_words_to_lines, lines_by_clustering.
  destruct (has_line_num page_words).
  - intros (w & Hw & ->)%lines_by_metadata_elem_of.
    eexists. split; [|done]. intros Hnil.
    assert (Hin : w ∈ filter (λ w', line_key w' = line_key w) page_words)
      by (by apply list_elem_of_filter).
    rewrite Hnil in Hin. by apply elem_of_nil in Hin.
  - intros (g & -> & Hg)%elem_of_map. eexists. split; [|done].
    revert g Hg. apply Forall_forall, foldl_place_nonempty. constructor.
Qed.

Lemma group_words_to_lines_Permutation page_words y_tol :
  concat (map l_words (group_words_to_lines page_words y_tol)) ≡ₚ page_words.
Proof.
  unfold group_words_to_lines, lines_by_clustering.
  destruct (has_line_num page_words).
  - rewrite (Permutation_map l_words (lines_by_metadata_Permutation _)).
    rewrite map_map. simpl.
    rewrite (concat_map_Permutation _ (λ e, e.2)).
    2:{ intros e. apply sorted_Permutation. }
    apply by_line_concat.
  - rewrite map_map. simpl.
    rewrite (concat_map_Permutation _ g_words).
    2:{ intros g. apply sorted_Permutation. }
    rewrite foldl_place_concat. simpl. apply sorted_Permutation.
Qed.

(** X9: line reconstruction loses no word and repeats none: on both
    strategies the words of the lines are the words of the page, in
    another order. *)
Theorem lines_hold_the_words_of_the_page (page_words : list word) (y_tol : Q) :
  concat (map l_words (group_words_to_lines page_words y_tol)) ≡ₚ page_words.
Proof. apply group_words_to_lines_Permutation. Qed.

(** X10: every line holds at least one word, and its words are in the
    order of their [left]. *)
Theorem line_words_sorted_by_left (page_words : list word) (y_tol : Q) :
  Forall (λ ln,
            l_words ln ≠ []
            ∧ Sorted.StronglySorted (λ a b, w_left a ≤ w_left b) (l_words ln))
         (group_words_to_lines page_words y_tol).
Proof.
  apply Forall_forall. intros ln Hln.
  apply group_words_to_lines_shape in Hln as (ws & Hws & ->). simpl.
  split.
  - intros Hnil. by apply Hws, (sorted_nil_inv w_left Z.leb).
  - eapply Sorted.StronglySorted_ind with
      (P := Sorted.StronglySorted (λ a b, w_left a ≤ w_left b));
      [constructor| |exact (sorted_StronglySorted w_left Z.leb
                               Z_leb_total Z_leb_trans ws)].
    intros a l _ IH Ha. constructor; [done|].
    eapply Forall_impl; [exact Ha|]. intros b Hb. by apply Z.leb_le.
Qed.

Lemma foldl_min_spec x r :
  (∀ y, y ∈ x :: r → foldl Z.min x r ≤ y) ∧ foldl Z.min x r ∈ x :: r.
Proof.
  revert x. induction r as [|z r IH]; intros x; simpl.
  - split; [|apply list_elem_of_here].
    by intros y ->%list_elem_of_singleton.
  - destruct (IH (x `min` z)) as [Hle Hin]. split.
    + intros y Hy. rewrite !elem_of_cons in Hy.
      destruct Hy as [->|[->|Hy]].
      * specialize (Hle (x `min` z) ltac:(apply list_elem_of_here)). lia.
      * specialize (Hle (x `min` z) ltac:(apply list_elem_of_here)). lia.
      * apply Hle. by apply list_elem_of_further.
    + rewrite !elem_of_cons in *. destruct Hin as [Hm|Hin]; [|auto].
      destruct (Z.min_spec x z) as [[_ Hx]|[_ Hz]]; rewrite Hm; auto.
Qed.

Lemma foldl_max_spec x r :
  (∀ y, y ∈ x :: r → y ≤ foldl Z.max x r) ∧ foldl Z.max x r ∈ x :: r.
Proof.
  revert x. induction r as [|z r IH]; intros x; simpl.
  - split; [|apply list_elem_of_here].
    by intros y ->%list_elem_of_singleton.
  - destruct (IH (x `max` z)) as [Hle Hin]. split.
    + intros y Hy. rewrite !elem_of_cons in Hy.
      destruct Hy as [->|[->|Hy]].
      * specialize (Hle (x `max` z) ltac:(apply list_elem_of_here)). lia.
      * specialize (Hle (x `max` z) ltac:(apply list_elem_of_here)). lia.
      * apply Hle. by apply list_elem_of_further.
    + rewrite !elem_of_cons in *. destruct Hin as [Hm|Hin]; [|auto].
      destruct (Z.max_spec x z) as [[_ Hx]|[_ Hz]]; rewrite Hm; auto.
Qed.

Lemma py_min_spec l :
  l ≠ [] → (∀ y, y ∈ l → py_min l ≤ y) ∧ py_min l ∈ l.
Proof. destruct l as [|x r]; [done|]. intros _. apply foldl_min_spec. Qed.

Lemma py_max_spec l :
  l ≠ [] → (∀ y, y ∈ l → y ≤ py_max l) ∧ py_max l ∈ l.
Proof. destruct l as [|x r]; [done|]. intros _. apply foldl_max_spec. Qed.

Lemma make_line_encloses ws w : w ∈ ws → encloses (make_line ws) w.
Proof.
  intros Hw. assert (Hne : ws ≠ []) by (intros ->; by apply elem_of_nil in Hw).
  unfold encloses, make_line. simpl. repeat split.
  - apply py_min_spec; [by destruct ws|]. apply elem_of_map. eauto.
  - apply py_min_spec; [by destruct ws|]. apply elem_of_map. eauto.
  - apply py_max_spec; [by destruct ws|].
    apply (elem_of_map (λ w, w_left w + w_width w)). eauto.
  - apply py_max_spec; [by destruct ws|].
    apply (elem_of_map (λ w, w_top w + w_height w)). eauto.
Qed.

(** X11: the box of a line is the union of the boxes of its words: it
    encloses each of them, and each of its four sides is the side of one
    of them. *)
Theorem line_box_is_the_union (page_words : list word) (y_tol : Q) :
  Forall (λ ln,
            (∀ w, w ∈ l_words ln → encloses ln w)
            ∧ (∃ w, w ∈ l_words ln ∧ w_left w = l_left ln)
            ∧ (∃ w, w ∈ l_words ln ∧ w_top w = l_top ln)
            ∧ (∃ w, w ∈ l_words ln ∧ w_left w + w_width w = l_right ln)
            ∧ (∃ w, w ∈ l_words ln ∧ w_top w + w_height w = l_bottom ln))
         (group_words_to_lines page_words y_tol).
Proof.
  apply Forall_forall. intros ln Hln.
  apply group_words_to_lines_shape in Hln as (ws0 & Hws0 & ->).
  set (ws := sorted w_left Z.leb ws0).
  assert (Hws : ws ≠ []).
  { intros Hnil. by apply Hws0, (sorted_nil_inv w_left Z.leb). }
  simpl. split; [intros w Hw; by apply make_line_encloses|].
  repeat split.
  - destruct (py_min_spec (map w_left ws)) as [_ Hin]; [by destruct ws|].
    apply elem_of_map in Hin as (w & Hw & Hin). eauto.
  - destruct (py_min_spec (map w_top ws)) as [_ Hin]; [by destruct ws|].
    apply elem_of_map in Hin as (w & Hw & Hin). eauto.
  - destruct (py_max_spec (map (λ w, w_left w + w_width w) ws)) as [_ Hin];
      [by destruct ws|].
    apply elem_of_map in Hin as (w & Hw & Hin). eauto.
  - destruct (py_max_spec (map (λ w, w_top w + w_height w) ws)) as [_ Hin];
      [by destruct ws|].
    apply elem_of_map in Hin as (w & Hw & Hin). eauto.
Qed.

End LineFurther.

Section MetadataOrder.

Lemma key_le_total a b : key_le a b = true ∨ key_le b a = true.
Proof.
  destruct a as [[a1 a2] a3], b as [[b1 b2] b3]. unfold key_le.
  rewrite !orb_true_iff, !andb_true_iff, !orb_true_iff, !andb_true_iff,
    !Z.ltb_lt, !Z.eqb_eq, !Z.leb_le. lia.
Qed.

Lemma key_le_trans a b c :
  key_le a b = true → key_le b c = true → key_le a c = true.
Proof.
  destruct a as [[a1 a2] a3], b as [[b1 b2] b3], c as [[c1 c2] c3].
  unfold key_le.
  rewrite !orb_true_iff, !andb_true_iff, !orb_true_iff, !andb_true_iff,
    !Z.ltb_lt, !Z.eqb_eq, !Z.leb_le. lia.
Qed.

Lemma StronglySorted_NoDup_strict {A} (R : A → A → Prop) (l : list A) :
  Sorted.StronglySorted R l → NoDup l →
  Sorted.StronglySorted (λ a b, R a b ∧ a ≠ b) l.
Proof.
  induction 1 as [|x r Hr IH Hx]; intros Hnd; [constructor|].
  apply NoDup_cons in Hnd as [Hx' Hnd]. constructor; [by apply IH|].
  apply Forall_forall. intros y Hy. rewrite Forall_forall in Hx.
  split; [by apply Hx|]. by intros ->.
Qed.

Lemma omap_total {A B} (f : A → option B) (g : A → B) (l : list A) :
  (∀ x, x ∈ l → f x = Some (g x)) → omap f l = map g l.
Proof.
  induction l as [|x r IH]; intros Hfg; csimpl; [done|].
  rewrite (Hfg x) by apply list_elem_of_here.
  rewrite IH; [done|]. intros y Hy. by apply Hfg, list_elem_of_further.
Qed.

Lemma Forall2_map_r_diag {A B} (P : A → B → Prop) (g : A → B) (l : list A) :
  (∀ x, P x (g x)) → Forall2 P l (map g l).
Proof. intros HP. induction l; simpl; constructor; auto. Qed.

(** X12: on the metadata strategy the lines come in the strictly
    ascending order of their layout triples (block, paragraph, line), each
    line holding words of one triple only. *)
Theorem metadata_lines_in_key_order (page_words : list word) (y_tol : Q) :
  (∃ w, w ∈ page_words ∧ w_line_num w ≠ 0) →
  ∃ keys,
    Sorted.StronglySorted key_lt keys
    ∧ Forall2 (λ k ln, ∀ w, w ∈ l_words ln → line_key w = k)
              keys (group_words_to_lines page_words y_tol).
Proof.
  intros (w0 & Hw0 & Hnum).
  assert (Hany : has_line_num page_words = true).
  { apply existsb_exists. exists w0. split; [by apply list_elem_of_In|].
    by apply negb_true_iff, Z.eqb_neq. }
  unfold group_words_to_lines. rewrite Hany. unfold lines_by_metadata.
  set (d := by_line page_words).
  exists (sorted id key_le (map fst d)). split.
  - apply (StronglySorted_NoDup_strict (λ a b, key_le a b = true)).
    + apply (sorted_StronglySorted id key_le key_le_total key_le_trans).
    + rewrite (sorted_Permutation id key_le). apply by_line_NoDup.
  - rewrite (omap_total _
      (λ k, make_line (sorted w_left Z.leb
                         (filter (λ w, line_key w = k) page_words)))).
    + apply Forall2_map_r_diag. intros k w. simpl.
      rewrite sorted_elem_of, list_elem_of_filter. tauto.
    + intros k Hk. apply sorted_elem_of in Hk.
      destruct (fst_item_Some _ _ Hk) as [ws Hws].
      unfold d in *. rewrite Hws. rewrite item_by_line in Hws.
      destruct (filter _ page_words); [done|]. by injection Hws as <-.
Qed.

End MetadataOrder.

Section DetectionFacts.
Context `{Unicode}.

Lemma take_digits_spec n s :
  let '(ds, rest) := take_digits n s in
  s = ds ++ rest ∧ (length ds ≤ n)%nat
  ∧ Forall (λ c, is_Some (decimal c)) ds.
Proof.
  revert s. induction n as [|n IH]; intros s; simpl.
  { destruct s; repeat split; simpl; first [lia|constructor]. }
  destruct s as [|c r]; [repeat split; simpl; first [lia|constructor]|].
  destruct (is_Some_dec (decimal c)) as [Hc|Hc];
    [|repeat split; simpl; first [lia|constructor]].
  specialize (IH r). destruct (take_digits n r) as [ds rest].
  destruct IH as (-> & Hlen & Hds). repeat split; simpl; [lia|].
  by constructor.
Qed.

Lemma lstrip_by_suffix p s : ∃ pre, s = pre ++ lstrip_by p s.
Proof.
  induction s as [|c r [pre IH]]; simpl; [by exists []|].
  destruct (p c); [|by exists []]. exists (c :: pre). simpl. by f_equal.
Qed.

Lemma lstrip_by_elem_of p s c : c ∈ lstrip_by p s → c ∈ s.
Proof.
  destruct (lstrip_by_suffix p s) as [pre Hs]. intros Hc.
  rewrite Hs, elem_of_app. auto.
Qed.

Lemma strip_elem_of s c : c ∈ strip s → c ∈ s.
Proof.
  unfold strip, rstrip_by. rewrite list_elem_of_In, <- in_rev.
  rewrite <- list_elem_of_In. intros Hc%lstrip_by_elem_of.
  rewrite list_elem_of_In, <- in_rev, <- list_elem_of_In in Hc.
  by eapply lstrip_by_elem_of.
Qed.

Lemma dot_star_no_line_feed s : 10%N ∉ dot_star s.
Proof.
  induction s as [|c r IH]; simpl; [apply not_elem_of_nil|].
  destruct (N.eqb_spec c 10); [apply not_elem_of_nil|].
  rewrite elem_of_cons. intros [?|?]; [by subst|done].
Qed.

(** X13: when a text matches, the question number is one to four
    decimal digits, and the remainder has no whitespace at either end and
    no line feed; when it does not match, the text is returned as it
    is. *)
Theorem detect_question_number_result (text : str) :
  match detect_question_number text with
  | (Some q, rest) =>
      (1 ≤ length q ≤ 4)%nat ∧ Forall (λ c, is_Some (decimal c)) q
      ∧ trimmed rest ∧ 10%N ∉ rest
  | (None, rest) => rest = text
  end.
Proof.
  unfold detect_question_number.
  destruct (QUESTION_NUM_REGEX text) as [[q rest]|] eqn:Hm; [|done].
  pose proof (QUESTION_NUM_REGEX_digits _ _ _ Hm) as Hq.
  unfold QUESTION_NUM_REGEX in Hm.
  match type of Hm with
  | context [take_digits 4 ?s] =>
      pose proof (take_digits_spec 4 s) as Hd;
      destruct (take_digits 4 s) as [ds s']
  end.
  destruct Hd as (_ & Hlen & Hds).
  destruct ds as [|d ds]; [done|]. injection Hm as <- <-.
  split; [simpl in *; lia|]. split; [done|].
  split; [apply strip_trimmed|].
  intros Hin%strip_elem_of. by apply dot_star_no_line_feed in Hin.
Qed.

Lemma lstrip_by_Forall p pre s :
  Forall (λ c, p c = true) pre → lstrip_by p (pre ++ s) = lstrip_by p s.
Proof. induction 1 as [|c r Hc _ IH]; simpl; [done|]. by rewrite Hc. Qed.

(** X14: leading whitespace has no part in the detection of a question
    number nor of an answer option. *)
Theorem leading_whitespace_is_ignored (spaces text : str) :
  Forall (λ c, isspace c = true) spaces →
  QUESTION_NUM_REGEX (spaces ++ text) = QUESTION_NUM_REGEX text
  ∧ option_marker (spaces ++ text) = option_marker text.
Proof.
  intros Hsp. unfold QUESTION_NUM_REGEX, option_marker.
  by rewrite !(lstrip_by_Forall isspace spaces text Hsp).
Qed.

Lemma take_digits_none n s :
  Forall (λ c, decimal c = None) s → (take_digits n s).1 = [].
Proof.
  intros Hs. destruct n as [|n]; [by destruct s|].
  destruct Hs as [|c r Hc _]; [done|]. simpl.
  destruct (is_Some_dec (decimal c)) as [[? Hd]|_]; [congruence|done].
Qed.

Lemma strip_prefix_elem_of pre r r' c :
  strip_prefix pre r = Some r' → c ∈ r' → c ∈ r.
Proof.
  revert r. induction pre as [|a pre IH]; intros r Hp Hc; simpl in Hp.
  - by injection Hp as <-.
  - destruct r as [|b r]; [done|]. destruct (a =? b)%N; [|done].
    apply list_elem_of_further. by apply IH.
Qed.

(** X15: a text without a decimal digit has no question number. *)
Theorem text_without_digit_has_no_number (text : str) :
  Forall (λ c, decimal c = None) text →
  detect_question_number text = (None, text).
Proof.
  intros Hno. apply detect_question_number_None.
  unfold QUESTION_NUM_REGEX.
  match goal with
  | |- context [take_digits 4 ?s] =>
      assert (Hs : Forall (λ c, decimal c = None) s)
  end.
  { assert (Hsub : ∀ x, x ∈ lstrip_by isspace text → decimal x = None).
    { intros x Hx%lstrip_by_elem_of. rewrite Forall_forall in Hno. auto. }
    destruct (lstrip_by isspace text) as [|c0 r]; [constructor|].
    apply Forall_forall. intros c Hc.
    destruct (c0 =? 81)%N; [|by apply Hsub].
    apply lstrip_by_elem_of in Hc. apply Hsub, list_elem_of_further.
    destruct (strip_prefix (U "uestion") r) as [r'|] eqn:Hp; [|done].
    by eapply strip_prefix_elem_of. }
  pose proof (take_digits_none 4 _ Hs) as Hd.
  destruct (take_digits 4 _) as [ds s']. simpl in Hd. by subst.
Qed.

End DetectionFacts.

Section SegmenterFurther.
Context `{Unicode} (lines : list line).

Lemma options_loop_spec fuel i j bs :
  (j ≤ length lines)%nat →
  ∃ j',
    while fuel (options_cond lines i) (options_body lines) (j, bs)
    = (j', bs ++ map line_block (take (j' - j) (drop j lines)))
    ∧ (j ≤ j' ≤ length lines)%nat ∧ (j' ≤ j `max` (i + 8))%nat.
Proof.
  revert j bs. induction fuel as [|fuel IH]; intros j bs Hj.
  { exists j. simpl. rewrite Nat.sub_diag, take_0, app_nil_r.
    repeat split; lia. }
  cbn [while]. destruct (options_cond lines i (j, bs)) eqn:Hc.
  2:{ exists j. rewrite Nat.sub_diag, take_0, app_nil_r. repeat split; lia. }
  unfold options_cond in Hc. rewrite !andb_true_iff, !Nat.ltb_lt in Hc.
  destruct Hc as [[Hlt _] Hcap].
  destruct (lookup_lt_is_Some_2 lines j Hlt) as [ln Hln].
  unfold options_body at 1. rewrite Hln.
  destruct (IH (Datatypes.S j) (bs ++ [line_block ln])) as (j' & Hw & Hj' & Hb);
    [lia|].
  exists j'. rewrite Hw. split; [|split; lia].
  f_equal. rewrite <- app_assoc. f_equal.
  rewrite (drop_S _ _ _ Hln).
  by replace (j' - j)%nat with (Datatypes.S (j' - Datatypes.S j)) by lia.
Qed.

Lemma chunk_loop_spec fuel i j bs :
  (i ≤ j ≤ length lines)%nat →
  ∃ j',
    while fuel (chunk_cond lines i) (chunk_body lines i) (j, bs)
    = (j', bs ++ map line_block (take (j' - j) (drop j lines)))
    ∧ (j ≤ j' ≤ length lines)%nat ∧ (j' ≤ j `max` (i + 8))%nat.
Proof.
  revert j bs. induction fuel as [|fuel IH]; intros j bs Hj.
  { exists j. simpl. rewrite Nat.sub_diag, take_0, app_nil_r.
    repeat split; lia. }
  cbn [while]. unfold chunk_cond at 1.
  destruct (Nat.ltb_spec j (length lines `min` (i + 6))) as [Hlt|Hge].
  2:{ exists j. rewrite Nat.sub_diag, take_0, app_nil_r. repeat split; lia. }
  destruct (lookup_lt_is_Some_2 lines j) as [ln Hln]; [lia|].
  unfold chunk_body at 1. rewrite Hln.
  assert (Hblocks : ∀ j', (Datatypes.S j ≤ j')%nat →
            (bs ++ [line_block ln])
              ++ map line_block
                   (take (j' - Datatypes.S j) (drop (Datatypes.S j) lines))
            = bs ++ map line_block (take (j' - j) (drop j lines))).
  { intros j' Hj'. rewrite <- app_assoc. f_equal.
    rewrite (drop_S _ _ _ Hln).
    by replace (j' - j)%nat with (Datatypes.S (j' - Datatypes.S j)) by lia. }
  destruct (option_marker (l_text ln)).
  - destruct (options_loop_spec (length lines) i (Datatypes.S j)
                (bs ++ [line_block ln])) as (j' & Hw & Hj' & Hb); [lia|].
    exists j'. rewrite Hw, Hblocks by lia. repeat split; lia.
  - destruct (IH (Datatypes.S j) (bs ++ [line_block ln]))
      as (j' & Hw & Hj' & Hb); [lia|].
    exists j'. rewrite Hw, Hblocks by lia. repeat split; lia.
Qed.

(** The unnumbered branch collects the lines from [i] up to a line [j],
    at most eight of them. *)
Lemma collect_chunk_spec i :
  (i < length lines)%nat →
  ∃ j,
    collect_chunk lines i
    = (j, map line_block (take (j - i) (drop i lines)))
    ∧ (i < j ≤ length lines)%nat ∧ (j ≤ i + 8)%nat.
Proof.
  intros Hlt. pose proof (collect_chunk_inv lines i Hlt) as [Hj _].
  unfold collect_chunk in *.
  destruct (chunk_loop_spec (length lines) i i []) as (j & Hw & Hj' & Hb);
    [lia|].
  rewrite Hw in Hj. simpl in Hj. exists j. rewrite Hw. repeat split; lia.
Qed.

Lemma line_block_source ln : block_source (line_block ln) = line_source ln.
Proof. done. Qed.

(** What a turn of the outer loop appends: nothing, or one candidate
    made of the lines from the scan position up to the next one. *)
Lemma emitted_sources i :
  (i < length lines)%nat →
  emitted lines i = []
  ∨ ∃ c, emitted lines i = [c]
         ∧ conf_avg c = _avg_conf (blocks c)
         ∧ map block_source (blocks c)
           = map line_source
                 (take (next_position lines i - i) (drop i lines))
         ∧ (qnum c = None → (next_position lines i - i ≤ 8)%nat).
Proof.
  intros Hlt. destruct (lookup_lt_is_Some_2 lines i Hlt) as [ln Hln].
  unfold emitted, next_position.
  destruct (QUESTION_NUM_REGEX (l_text ln)) as [[q rest]|] eqn:Hm.
  - destruct (segment_body_numbered lines i ln q rest [] Hln Hm)
      as (k & Hb & Hk & _).
    cbn zeta in Hb. rewrite Hb. simpl. right. eexists. split; [done|].
    split; [done|]. split; [|done]. simpl.
    rewrite (drop_S _ _ _ Hln).
    replace (k - i)%nat with (Datatypes.S (k - Datatypes.S i)) by lia.
    simpl. f_equal. rewrite !map_map. done.
  - rewrite (segment_body_unnumbered lines i ln [] Hln).
    2:{ unfold numbered. rewrite Hm. by apply bool_decide_eq_false; intros [? ?]. }
    destruct (collect_chunk_spec i Hlt) as (j & -> & Hj & Hcap).
    destruct (chunk_length _ >? 10); simpl; [|by left].
    right. eexists. split; [done|]. split; [done|].
    simpl. split; [by rewrite !map_map|]. intros _. lia.
Qed.

(** Induction on the turns of the outer loop, from the last one. *)
Lemma segment_run_ind (P : nat → list candidate → Prop) :
  (∀ i, (length lines ≤ i)%nat → P i []) →
  (∀ i rest, (i < length lines)%nat →
             P (next_position lines i) rest →
             P i (emitted lines i ++ rest)) →
  P 0%nat (group_lines_to_candidates lines).
Proof.
  intros Hend Hturn. unfold group_lines_to_candidates.
  assert (Hrun : ∀ fuel i, (length lines - i ≤ fuel)%nat →
            P i (while fuel (segment_cond lines) (segment_body lines)
                       (i, [])).2).
  { induction fuel as [|fuel IH]; intros i Hfuel; cbn [while].
    - apply Hend. lia.
    - change (segment_cond lines (i, [])) with (i <? length lines)%nat.
      destruct (Nat.ltb_spec i (length lines)) as [Hlt|Hge];
        [|by apply Hend].
      destruct (segment_body_next lines i [] Hlt) as (-> & Hk & _).
      rewrite while_segment_frame. cbn zeta. simpl.
      apply Hturn; [done|]. apply IH. lia. }
  apply Hrun. lia.
Qed.

(** X16: an unnumbered candidate holds at most eight blocks. *)
Theorem unnumbered_candidates_hold_at_most_eight_blocks :
  Forall (λ c, qnum c = None → (length (blocks c) ≤ 8)%nat)
         (group_lines_to_candidates lines).
Proof.
  apply (segment_run_ind
           (λ _ cs, Forall (λ c, qnum c = None → (length (blocks c) ≤ 8)%nat)
                           cs)); [constructor|].
  intros i rest Hlt Hrest. apply Forall_app. split; [|done].
  destruct (emitted_sources i Hlt) as [->|(c & -> & _ & Hsrc & Hcap)];
    [constructor|].
  apply Forall_singleton. intros Hq. specialize (Hcap Hq).
  apply (f_equal length) in Hsrc. rewrite !length_map, length_take in Hsrc.
  lia.
Qed.

Lemma candidate_sources_sublist :
  map block_source (concat (map blocks (group_lines_to_candidates lines)))
  `sublist_of` map line_source lines.
Proof.
  apply (segment_run_ind
           (λ i cs, map block_source (concat (map blocks cs))
                    `sublist_of` map line_source (drop i lines))).
  { intros i _. apply sublist_nil_l. }
  intros i rest Hlt Hrest.
  destruct (segment_body_next lines i [] Hlt) as (_ & Hk & _).
  set (k := next_position lines i) in *.
  assert (Hdrop : drop i lines
                  = take (k - i) (drop i lines) ++ drop k lines).
  { rewrite <- (take_drop (k - i) (drop i lines)) at 1.
    rewrite drop_drop. by replace (i + (k - i))%nat with k by lia. }
  rewrite map_app, concat_app, map_app, Hdrop, (map_app line_source).
  apply sublist_app; [|done].
  destruct (emitted_sources i Hlt) as [->|(c & -> & _ & Hsrc & _)].
  - apply sublist_nil_l.
  - simpl. rewrite app_nil_r. by rewrite Hsrc.
Qed.

(** X17: the blocks of the candidates, in the order of the result, are
    made from lines of the page in the order of the page, each line
    giving one block at most: their boxes, confidences and languages are
    a subsequence of those of the lines. *)
Theorem candidates_use_each_line_once :
  map block_source (concat (map blocks (group_lines_to_candidates lines)))
  `sublist_of` map line_source lines.
Proof. apply candidate_sources_sublist. Qed.

Lemma candidates_conf_avg :
  Forall (λ c, conf_avg c = _avg_conf (blocks c))
         (group_lines_to_candidates lines).
Proof.
  apply (segment_run_ind
           (λ _ cs, Forall (λ c, conf_avg c = _avg_conf (blocks c)) cs));
    [constructor|].
  intros i rest Hlt Hrest. apply Forall_app. split; [|done].
  destruct (emitted_sources i Hlt) as [->|(c & -> & Hc & _)];
    [constructor|by apply Forall_singleton].
Qed.

(** X18: the segmenter emits one candidate per line at most. *)
Theorem no_more_candidates_than_lines :
  (length (group_lines_to_candidates lines) ≤ length lines)%nat.
Proof.
  assert (Hrun : (length (group_lines_to_candidates lines)
                  ≤ length lines - 0)%nat); [|lia].
  apply (segment_run_ind (λ i cs, (length cs ≤ length lines - i)%nat)).
  { intros i _. simpl. lia. }
  intros i rest Hlt Hrest.
  destruct (segment_body_next lines i [] Hlt) as (_ & Hk & _).
  rewrite length_app.
  destruct (emitted_sources i Hlt) as [->|(c & -> & _)]; simpl; lia.
Qed.

End SegmenterFurther.

Section PipelineFacts.
Context `{Unicode}.

Lemma page_item_page_append p q w d :
  page_item p (page_append q w d)
  = if decide (p = q) then Some (default [] (page_item p d) ++ [w])
    else page_item p d.
Proof.
  induction d as [|[p0 ws] r IH]; simpl.
  - destruct (decide (p = q)) as [->|Hp]; by rewrite ?decide_True, ?decide_False.
  - destruct (decide (q = p0)) as [->|Hq]; simpl.
    + by destruct (decide (p = p0)) as [->|Hp].
    + destruct (decide (p = p0)) as [->|Hp].
      * by rewrite decide_False.
      * apply IH.
Qed.

Lemma page_append_keys q w d :
  map fst (page_append q w d)
  = if bool_decide (q ∈ map fst d) then map fst d else map fst d ++ [q].
Proof.
  induction d as [|[p0 ws] r IH]; simpl; [done|].
  destruct (decide (q = p0)) as [->|Hq]; simpl.
  - rewrite bool_decide_true; [done|]. apply list_elem_of_here.
  - rewrite IH. destruct (bool_decide (q ∈ map fst r)) eqn:Hin.
    + apply bool_decide_eq_true in Hin.
      rewrite bool_decide_true; [done|]. by apply list_elem_of_further.
    + apply bool_decide_eq_false in Hin.
      rewrite bool_decide_false; [done|].
      rewrite elem_of_cons. intros [?|?]; done.
Qed.

Lemma pages_of_snoc ws w :
  pages_of (ws ++ [w]) = page_append (w_page w) w (pages_of ws).
Proof. unfold pages_of. by rewrite foldl_app. Qed.

Lemma page_item_pages_of p ws :
  page_item p (pages_of ws)
  = match filter (λ w, w_page w = p) ws with [] => None | l => Some l end.
Proof.
  induction ws as [|w ws IH] using rev_ind; [done|].
  rewrite pages_of_snoc, page_item_page_append, filter_app, IH.
  destruct (decide (p = w_page w)) as [->|Hp].
  - rewrite (filter_cons_True _ w) by done. rewrite filter_nil.
    by destruct (filter _ ws).
  - rewrite (filter_cons_False _ w) by done. rewrite filter_nil.
    by rewrite app_nil_r.
Qed.

Lemma pages_of_NoDup ws : NoDup (map fst (pages_of ws)).
Proof.
  induction ws as [|w ws IH] using rev_ind; [constructor|].
  rewrite pages_of_snoc, page_append_keys.
  case_bool_decide as Hin; [done|].
  apply NoDup_app. split; [done|]. split; [|apply NoDup_singleton].
  intros k Hk ->%list_elem_of_singleton. done.
Qed.

Lemma page_item_elem_of d p l :
  NoDup (map fst d) → (p, l) ∈ d ↔ page_item p d = Some l.
Proof.
  induction d as [|[p0 ws] r IH]; simpl; intros Hnd.
  { by rewrite elem_of_nil. }
  apply NoDup_cons in Hnd as [Hp0 Hnd]. rewrite elem_of_cons, IH by done.
  destruct (decide (p = p0)) as [->|Hp].
  - split; [intros [[= ->]|Hi]; [done|]|intros [= ->]; by left].
    exfalso. apply Hp0. clear -Hi.
    induction r as [|[p1 ws1] r IH]; simpl in *; [done|].
    destruct (decide (p0 = p1)) as [->|?]; rewrite elem_of_cons; auto.
  - split; [intros [[= -> _]|Hi]; done|auto].
Qed.

Lemma load_from_normalized d file :
  load_from d file
  = ws ← normalized file;
    Ok (foldl (λ d w, page_append (w_page w) w d) d ws).
Proof.
  revert d. induction file as [|[| |v] rest IH]; intros d; simpl; try done.
  destruct (normalize_document v) as [w|e]; simpl; [|done].
  rewrite IH. by destruct (normalized rest).
Qed.

(** X19: the loader keeps, for each page that has a token, the tokens
    of that page in the order of the file, and no entry for any other
    page; it raises what the first line that is no document, or whose
    document does not normalize, raises. *)
Theorem load_blocks_groups_by_page (file : list input_line) :
  match load_blocks file with
  | Ok d =>
      ∃ ws, normalized file = Ok ws ∧ NoDup (map fst d)
            ∧ ∀ p l, (p, l) ∈ d ↔ l ≠ [] ∧ l = filter (λ w, w_page w = p) ws
  | Raise e => normalized file = Raise e
  end.
Proof.
  unfold load_blocks. rewrite load_from_normalized.
  destruct (normalized file) as [ws|e]; simpl; [|done].
  exists ws. split; [done|]. fold (pages_of ws).
  split; [apply pages_of_NoDup|]. intros p l.
  rewrite page_item_elem_of by apply pages_of_NoDup.
  rewrite page_item_pages_of.
  destruct (filter (λ w, w_page w = p) ws) as [|w r].
  - split; [done|]. by intros [? ->].
  - split; [by intros [= <-]|]. by intros [_ ->].
Qed.

Lemma load_from_skips_blank d file :
  load_from d (List.filter (λ ln, negb (is_blank ln)) file) = load_from d file.
Proof.
  revert d. induction file as [|[| |v] rest IH]; intros d; simpl; try done.
  destruct (normalize_document v); simpl; [apply IH|done].
Qed.

(** X20: blank lines, wherever they stand in the file, change neither
    what the loader returns nor what [main] writes. *)
Theorem blank_lines_are_skipped (file : list input_line) :
  let kept := List.filter (λ ln, negb (is_blank ln)) file in
  load_blocks kept = load_blocks file ∧ main kept = main file.
Proof.
  intros kept.
  assert (Hl : load_blocks kept = load_blocks file)
    by apply load_from_skips_blank.
  split; [done|]. unfold main. by rewrite Hl.
Qed.

Lemma StronglySorted_app {A} (R : A → A → Prop) (l k : list A) :
  Sorted.StronglySorted R l → Sorted.StronglySorted R k →
  (∀ a b, a ∈ l → b ∈ k → R a b) →
  Sorted.StronglySorted R (l ++ k).
Proof.
  induction 1 as [|x r Hr IH Hx]; intros Hk Hlk; simpl; [done|].
  constructor.
  - apply IH; [done|]. intros a b Ha. apply Hlk. by apply list_elem_of_further.
  - apply Forall_app. split; [done|].
    apply Forall_forall. intros b Hb. apply Hlk; [apply list_elem_of_here|done].
Qed.

Lemma page_candidates_page page words o :
  o ∈ page_candidates page words → o_page o = page.
Proof. unfold page_candidates. by intros (c & -> & _)%elem_of_map. Qed.

Lemma StronglySorted_same_page page (os : list output) :
  (∀ o, o ∈ os → o_page o = page) →
  Sorted.StronglySorted Z.le (map o_page os).
Proof.
  induction os as [|o os IH]; intros Hos; simpl; [constructor|].
  constructor.
  - apply IH. intros o' Ho'. by apply Hos, list_elem_of_further.
  - apply Forall_forall. intros p (o' & -> & Ho')%elem_of_map.
    rewrite (Hos o) by apply list_elem_of_here.
    rewrite (Hos o') by (by apply list_elem_of_further). lia.
Qed.

(** X21: [main] writes the candidates page by page, in the ascending
    order of the pages. *)
Theorem main_writes_pages_in_ascending_order
    (file : list input_line) (out : list output) :
  main file = Ok out → Sorted.StronglySorted Z.le (map o_page out).
Proof.
  unfold main. destruct (load_blocks file) as [pages|e]; [|done]. simpl.
  intros [= <-].
  pose proof (sorted_StronglySorted fst Z.leb Z_leb_total Z_leb_trans pages)
    as Hsorted.
  induction Hsorted as [|[p ws] r Hr IH Hp]; simpl; [constructor|].
  rewrite map_app. apply StronglySorted_app; [|done|].
  - apply (StronglySorted_same_page p). apply page_candidates_page.
  - intros a b (o & -> & Ho)%elem_of_map (o' & -> & Ho')%elem_of_map.
    rewrite (page_candidates_page _ _ _ Ho).
    apply list_elem_of_In, in_flat_map in Ho' as ([p' ws'] & Hin & Ho').
    apply list_elem_of_In in Ho'.
    rewrite (page_candidates_page _ _ _ Ho').
    rewrite Forall_forall in Hp.
    specialize (Hp (p', ws') ltac:(by apply list_elem_of_In)).
    by apply Z.leb_le in Hp.
Qed.

Lemma sublist_elem_of {A} (l k : list A) x :
  l `sublist_of` k → x ∈ l → x ∈ k.
Proof.
  induction 1 as [|y l k _ IH|y l k _ IH]; rewrite ?elem_of_cons; [done| |].
  - intros [->|Hx]; auto.
  - auto.
Qed.

(** X22: confidences stay in range through the pipeline of a page: when
    every confidence of a word of the page lies between [lo] and [hi], two
    integers below 2^53 in magnitude, so does the average confidence of
    every candidate of the page. *)
Theorem page_confidences_stay_in_range
    (page : Z) (words : list word) (lo hi : Z) :
  - 2 ^ 53 < lo → hi < 2 ^ 53 →
  Forall (λ w, ∀ c, w_conf w = Some c → lo ≤ c ≤ hi) words →
  Forall (λ o, ∀ m, conf_avg (o_candidate o) = Some m → lo ≤ m ≤ hi)
         (page_candidates page words).
Proof.
  intros Hlo Hhi Hall. apply Forall_forall. intros o Ho m. revert Ho.
  assert (Hwords : ∀ w c, w ∈ words → w_conf w = Some c → lo ≤ c ≤ hi).
  { intros w c Hw. rewrite Forall_forall in Hall. by apply Hall. }
  clear Hall. unfold page_candidates.
  set (lines := sorted reading_key pair_le
                       (group_words_to_lines words (1 # 2))).
  intros (c & -> & Hc)%elem_of_map. simpl.
  pose proof (candidates_conf_avg lines) as Havg.
  rewrite Forall_forall in Havg. rewrite (Havg c Hc).
  apply average_in_range; [done|done|]. intros b cb Hb Hcb.
  assert (Hsrc : block_source b ∈ map line_source lines).
  { eapply sublist_elem_of; [apply candidate_sources_sublist|].
    apply elem_of_map. exists b. split; [done|].
    apply list_elem_of_In, in_concat. exists (blocks c).
    split; [apply in_map; by apply list_elem_of_In|by apply list_elem_of_In]. }
  apply elem_of_map in Hsrc as (ln & Hsrc & Hln).
  injection Hsrc as _ Hconf _.
  apply sorted_elem_of in Hln.
  assert (Hl : l_conf ln = int_mean (omap w_conf (l_words ln))).
  { rewrite (group_words_to_lines_make_line _ _ _ Hln) at 1. done. }
  rewrite Hconf, Hl in Hcb. revert Hcb. apply int_mean_bounds; [done|done|].
  apply Forall_forall. intros cw (w & Hw & Hcw)%list_elem_of_omap.
  apply (Hwords w); [|done].
  rewrite <- (group_words_to_lines_Permutation words (1 # 2)).
  apply list_elem_of_In, in_concat. exists (l_words ln).
  split; [apply in_map; by apply list_elem_of_In|by apply list_elem_of_In].
Qed.

End PipelineFacts.

Section EdgeFacts.
Context `{Unicode}.

Lemma length_concat_nonempty {A} (ls : list (list A)) :
  Forall (λ l, l ≠ []) ls → (length ls ≤ length (concat ls))%nat.
Proof.
  induction 1 as [|l ls Hl _ IH]; simpl; [done|].
  rewrite length_app. destruct l; [done|]. simpl. lia.
Qed.

(** X23: a page gives no more lines than it has words; an empty page
    gives none. *)
Theorem no_more_lines_than_words (page_words : list word) (y_tol : Q) :
  (length (group_words_to_lines page_words y_tol) ≤ length page_words)%nat.
Proof.
  rewrite <- (Permutation_length
                (group_words_to_lines_Permutation page_words y_tol)).
  rewrite <- (length_map l_words). apply length_concat_nonempty.
  apply Forall_forall. intros ws (ln & -> & Hln)%elem_of_map.
  apply group_words_to_lines_shape in Hln as (ws0 & Hws0 & ->). simpl.
  intros Hnil. by apply Hws0, (sorted_nil_inv w_left Z.leb).
Qed.

Lemma take_digits_cons n c r :
  is_Some (decimal c) →
  take_digits (Datatypes.S n) (c :: r)
  = (c :: (take_digits n r).1, (take_digits n r).2).
Proof.
  intros Hc. simpl. destruct (is_Some_dec (decimal c)); [|done].
  by destruct (take_digits n r).
Qed.

(** X24: a text that starts, after whitespace, with a decimal digit
    always has a question number, which starts with that digit: a year, a
    quantity or a page number at the head of a line opens a numbered
    candidate. *)
Theorem leading_digit_is_a_question_number (spaces rest : str) (d : char) :
  Forall (λ c, isspace c = true) spaces →
  is_Some (decimal d) → isspace d = false → d ≠ 81%N →
  ∃ q rest', QUESTION_NUM_REGEX (spaces ++ d :: rest) = Some (d :: q, rest').
Proof.
  intros Hsp Hd Hnsp Hq. unfold QUESTION_NUM_REGEX.
  rewrite (lstrip_by_Forall isspace spaces _ Hsp).
  cbn [lstrip_by]. rewrite Hnsp.
  destruct (N.eqb_spec d 81); [done|].
  rewrite (take_digits_cons 3 d rest Hd). by eexists _, _.
Qed.

(** X25: the unnumbered branch does not look at question numbers: after
    a line without number and without option marker it takes the next
    line too, numbered or not. *)
Theorem chunk_takes_the_next_line (lines : list line) (i : nat)
    (ln nxt : line) :
  lines !! i = Some ln → lines !! Datatypes.S i = Some nxt →
  option_marker (l_text ln) = false →
  ∃ j bs,
    collect_chunk lines i = (j, line_block ln :: line_block nxt :: bs)
    ∧ (i + 2 ≤ j)%nat.
Proof.
  intros Hln Hnxt Hmark.
  assert (Hlt : (Datatypes.S i < length lines)%nat)
    by (by eapply lookup_lt_Some).
  assert (Hgen : ∀ fuel, (2 ≤ fuel)%nat →
            ∃ j bs,
              while fuel (chunk_cond lines i) (chunk_body lines i) (i, [])
              = (j, line_block ln :: line_block nxt :: bs)
              ∧ (i + 2 ≤ j)%nat).
  { intros [|fuel] Hfuel; [lia|]. cbn [while]. unfold chunk_cond at 1.
    destruct (Nat.ltb_spec i (length lines `min` (i + 6))); [|lia].
    unfold chunk_body at 1. rewrite Hln, Hmark. simpl.
    destruct fuel as [|fuel]; [lia|]. cbn [while]. unfold chunk_cond at 1.
    destruct (Nat.ltb_spec (Datatypes.S i) (length lines `min` (i + 6)));
      [|lia].
    unfold chunk_body at 1. rewrite Hnxt.
    destruct (option_marker (l_text nxt)).
    - destruct (options_loop_spec lines (length lines) i
                  (Datatypes.S (Datatypes.S i))
                  ([line_block ln] ++ [line_block nxt]))
        as (j & -> & Hj & _); [lia|].
      eexists j, _. split; [done|lia].
    - destruct (chunk_loop_spec lines fuel i (Datatypes.S (Datatypes.S i))
                  ([line_block ln] ++ [line_block nxt]))
        as (j & -> & Hj & _); [lia|].
      eexists j, _. split; [done|lia]. }
  apply Hgen. lia.
Qed.

End EdgeFacts.

Section ClusteringFacts.

Lemma sorted_constant_key {A K} (key : A → K) (le : K → K → bool)
    (k : K) (l : list A) :
  le k k = true → Forall (λ x, key x = k) l → sorted key le l = l.
Proof.
  intros Hle. unfold sorted. induction 1 as [|x r Hx Hr IH]; simpl; [done|].
  rewrite IH. destruct Hr as [|y r' Hy _]; simpl; [done|].
  by rewrite Hx, Hy, Hle.
Qed.

Lemma _median_nonneg (arr : list (option Z)) (m : number) :
  Forall (λ x, ∀ z, x = Some z → 0 ≤ z) arr →
  _median arr = Some m → (0 <= number_value m)%Q.
Proof.
  intros Hall. unfold _median.
  assert (Hin : ∀ x i, sorted id Z.leb (omap id arr) !! i = Some x → 0 ≤ x).
  { intros x i Hx. apply list_elem_of_lookup_2, sorted_elem_of in Hx.
    apply list_elem_of_omap in Hx as (y & Hy & Hyx). simpl in Hyx. subst y.
    rewrite Forall_forall in Hall. by eapply Hall. }
  destruct (sorted id Z.leb (omap id arr)) as [|z r] eqn:Hs; [done|].
  rewrite <- Hs in *. set (l := sorted id Z.leb (omap id arr)) in *.
  assert (Hz : ∀ x, 0 ≤ x → (0 <= inject_Z x)%Q).
  { intros x Hx. change 0%Q with (inject_Z 0). by rewrite <- Zle_Qle. }
  destruct (length l mod 2 =? 1)%nat.
  - destruct (l !! (length l / 2)%nat) as [x|] eqn:Hx; [|done].
    intros [= <-]. simpl. eauto.
  - destruct (l !! (length l / 2 - 1)%nat) as [x|] eqn:Hx; [|done].
    destruct (l !! (length l / 2)%nat) as [y|] eqn:Hy; [|done].
    intros [= <-]. cbn [number_value].
    apply binary64_nonneg. apply Qle_shift_div_l; [done|].
    rewrite Qmult_0_l. apply binary64_nonneg, Hz.
    pose proof (Hin x _ Hx). pose proof (Hin y _ Hy). lia.
Qed.

Lemma float_nonneg (x : number) : (0 <= number_value x)%Q → (0 <= float x)%Q.
Proof. destruct x as [z|q]; simpl; [apply binary64_nonneg|done]. Qed.

Lemma mean_of_constant (t : Z) (l : list Z) :
  l ≠ [] → Z.abs t < 2 ^ 53 → Forall (λ x, x = t) l → int_quotient l = t.
Proof.
  intros Hne Ht Hall.
  assert (Hb : t ≤ int_quotient l ≤ t); [|lia].
  apply int_quotient_bounds; [done|lia|lia|].
  eapply Forall_impl; [exact Hall|]. simpl. lia.
Qed.

Lemma foldl_place_same_top (tol : Q) (t : Z) (ws : list word) (g : group) :
  (0 <= tol)%Q → Z.abs t < 2 ^ 53 → Forall (λ w, w_top w = t) ws →
  g_top g = t → Forall (λ w, w_top w = t) (g_words g) →
  foldl (λ groups w, place tol w groups) [g] ws
  = [ {| g_top := t; g_words := g_words g ++ ws |} ].
Proof.
  intros Htol Ht Hws. revert g. induction Hws as [|w ws Hw _ IH];
    intros g Hg Hgw; simpl.
  { rewrite app_nil_r. destruct g. simpl in *. by subst. }
  assert (Hle : Qle_bool (inject_Z (Z.abs (w_top w - g_top g))) tol = true).
  { rewrite Hw, Hg, Z.sub_diag. by apply Qle_bool_iff. }
  cbn [place]. rewrite Hle. rewrite IH; simpl.
  - by rewrite <- app_assoc.
  - apply mean_of_constant; [by destruct (g_words g)|done|].
    rewrite Forall_fmap. apply Forall_app. split; [done|by repeat constructor].
  - apply Forall_app. split; [done|by repeat constructor].
Qed.

(** X26: on a page without line numbers, words that share one top
    coordinate and have no negative height form a single line, whatever
    the tolerance factor from zero upwards, when the top, the heights and
    the confidences are below 2^53 in magnitude. *)
Theorem words_on_one_baseline_form_one_line (page_words : list word)
    (y_tol : Q) (t : Z) :
  page_words ≠ [] → has_line_num page_words = false → (0 <= y_tol)%Q →
  Z.abs t < 2 ^ 53 →
  Forall (λ w, w_top w = t ∧ 0 ≤ w_height w < 2 ^ 53
               ∧ ∀ c, w_conf w = Some c → Z.abs c < 2 ^ 53) page_words →
  group_words_to_lines page_words y_tol
  = [make_line (sorted w_left Z.leb page_words)].
Proof.
  intros Hne Hnum Htol Ht Hall. unfold group_words_to_lines. rewrite Hnum.
  unfold lines_by_clustering.
  assert (Htops : Forall (λ w, w_top w = t) page_words)
    by (eapply Forall_impl; [exact Hall|]; by intros w [? _]).
  rewrite (sorted_constant_key w_top Z.leb t page_words (Z.leb_refl t) Htops).
  set (heights := map _ page_words).
  set (median_h := match _median heights with
                   | Some m => number_or m (Int 20)
                   | None => Int 20
                   end).
  assert (Hmed : (0 <= float median_h)%Q).
  { apply float_nonneg. subst median_h.
    destruct (_median heights) as [m|] eqn:Hm; [|done].
    unfold number_or. destruct (Qeq_bool (number_value m) 0); [done|].
    apply (_median_nonneg heights); [|done].
    subst heights. rewrite Forall_fmap. eapply Forall_impl; [exact Hall|].
    simpl. intros w (_ & Hh & _) z [= <-].
    destruct (Z.eqb_spec (w_height w) 0); lia. }
  destruct page_words as [|w ws]; [done|]. simpl foldl.
  apply Forall_cons in Htops as [Hw Hws].
  rewrite (foldl_place_same_top _ t ws); simpl; try done.
  - apply binary64_nonneg. by apply Qmult_le_0_compat.
  - by repeat constructor.
Qed.

End ClusteringFacts.

(** * The further properties on concrete records, texts and pages

    The character database is [latin_devanagari]. *)

Section FurtherEvaluation.
#[local] Existing Instance latin_devanagari.

(** X1, witness. *)
Lemma flat_word_text_trimmed : trimmed (w_text flat_word).
Proof.
  apply (normalize_row_text_trimmed flat_record flat_word). reflexivity.
Defined.

(** X3, witness. *)
Lemma shadowed_box_record_normalizes :
  normalize_row shadowed_box_record = normalize_row flat_record.
Proof.
  apply (direct_fields_shadow_bbox flat_record (VStr (U "none"))).
  reflexivity.
Defined.

(** X4, witness. *)
Lemma devanagari_digits_are_english : guess_lang devanagari_digits = english.
Proof.
  apply (text_without_script_is_english devanagari_digits).
  right. repeat constructor.
Defined.

(** X5, witness. *)
Lemma prashna_is_hindi : guess_lang prashna = hindi.
Proof.
  apply (devanagari_text_is_hindi prashna).
  - apply Exists_cons_hd. reflexivity.
  - repeat (apply Forall_cons; split; [intros _; reflexivity|]).
    apply Forall_nil_2.
Defined.

(** X7, witness. *)
Lemma two_blocks_average_in_range :
  _avg_conf [line_block question_line; line_block digits_line] = Some 87
  ∧ 85 ≤ 87 ≤ 90.
Proof.
  split; [reflexivity|].
  apply (average_confidence_in_range
           [line_block question_line; line_block digits_line] 85 90 87).
  - reflexivity.
  - reflexivity.
  - repeat (apply Forall_cons; split;
              [intros c Hc; vm_compute in Hc; injection Hc as <-; lia|]).
    apply Forall_nil_2.
  - reflexivity.
Defined.

(** X8, witness: the median of four heights, one of them missing. *)
Lemma heights_median_within_range :
  match _median [Some 12; None; Some 10; Some 15; Some 11] with
  | None => omap id [Some 12; None; Some 10; Some 15; Some 11] = []
  | Some m =>
      ∃ a b, Some a ∈ [Some 12; None; Some 10; Some 15; Some 11]
             ∧ Some b ∈ [Some 12; None; Some 10; Some 15; Some 11]
             ∧ (inject_Z a <= number_value m <= inject_Z b)%Q
  end.
Proof.
  apply (median_within_range [Some 12; None; Some 10; Some 15; Some 11]).
  repeat (apply Forall_cons; split;
            [intros z Hz; first [discriminate Hz
                                |injection Hz as <-; reflexivity]|]).
  apply Forall_nil_2.
Defined.

(** X12, witness. *)
Lemma mixed_metadata_page_in_key_order :
  ∃ keys,
    Sorted.StronglySorted key_lt keys
    ∧ Forall2 (λ k ln, ∀ w, w ∈ l_words ln → line_key w = k)
              keys (group_words_to_lines mixed_metadata_page (1 # 2)).
Proof.
  apply (metadata_lines_in_key_order mixed_metadata_page (1 # 2)).
  exists (word_at "title" 0 400 50 10 None 1). split.
  - by repeat constructor.
  - simpl. lia.
Defined.

(** X14, witness. *)
Lemma indented_question_is_detected :
  QUESTION_NUM_REGEX (U "   " ++ U "Q1) What")
  = QUESTION_NUM_REGEX (U "Q1) What")
  ∧ option_marker (U "   " ++ U "Q1) What") = option_marker (U "Q1) What").
Proof.
  apply (leading_whitespace_is_ignored (U "   ") (U "Q1) What")).
  repeat constructor.
Defined.

(** X15, witness. *)
Lemma plain_text_has_no_number :
  detect_question_number (U "What is it?") = (None, U "What is it?").
Proof.
  apply (text_without_digit_has_no_number (U "What is it?")).
  repeat constructor.
Defined.

(** X21, witness: the second page comes first in the file, and second in
    what is written. *)
Lemma two_page_file_in_page_order :
  ∃ out, main two_page_file = Ok out
         ∧ map o_page out = [1; 2]
         ∧ Sorted.StronglySorted Z.le (map o_page out).
Proof.
  eexists. split; [reflexivity|]. split; [reflexivity|].
  apply (main_writes_pages_in_ascending_order two_page_file). reflexivity.
Defined.

(** X22, witness. *)
Lemma confident_page_stays_in_range :
  Forall (λ o, ∀ m, conf_avg (o_candidate o) = Some m → 70 ≤ m ≤ 90)
         (page_candidates 1 confident_page).
Proof.
  apply (page_confidences_stay_in_range 1 confident_page 70 90).
  - reflexivity.
  - reflexivity.
  - repeat (apply Forall_cons; split;
              [intros c Hc; simpl in Hc; first [discriminate Hc
                                               |injection Hc as <-; lia]|]).
    apply Forall_nil_2.
Defined.

(** X24, witness: a year at the head of a line. *)
Lemma year_is_a_question_number :
  ∃ q rest',
    QUESTION_NUM_REGEX (U "  " ++ 50%N :: U "023 was a good year")
    = Some (50%N :: q, rest').
Proof.
  apply (leading_digit_is_a_question_number
           (U "  ") (U "023 was a good year") 50%N).
  - repeat constructor.
  - exists 2. reflexivity.
  - reflexivity.
  - discriminate.
Defined.

(** X25, witness: the numbered line after the heading is in the chunk of
    the heading. *)
Lemma heading_takes_the_question :
  ∃ j bs,
    collect_chunk heading_page 0
    = (j, line_block heading_line :: line_block question_line :: bs)
    ∧ (0 + 2 ≤ j)%nat.
Proof.
  apply (chunk_takes_the_next_line heading_page 0 heading_line question_line);
    reflexivity.
Defined.

Example heading_page_loses_the_question :
  map qnum (group_lines_to_candidates heading_page) = [None]
  ∧ map (λ c, length (blocks c)) (group_lines_to_candidates heading_page)
    = [2%nat].
Proof. split; reflexivity. Qed.

(** X26, witness. *)
Lemma baseline_page_is_one_line :
  group_words_to_lines baseline_page (1 # 2)
  = [make_line (sorted w_left Z.leb baseline_page)].
Proof.
  apply (words_on_one_baseline_form_one_line baseline_page (1 # 2) 10).
  - discriminate.
  - reflexivity.
  - discriminate.
  - reflexivity.
  - repeat (apply Forall_cons; split;
              [split; [reflexivity|split; [simpl; lia|discriminate]]|]).
    apply Forall_nil_2.
Defined.

End FurtherEvaluation.
